(** * A chess engine and its search

    The game state machine of [src/ChessGame.ts], the board helpers of
    [src/utils.ts], the alpha-beta search of [src/ChessAI.ts] and the
    handlers of the component [App].

    The three files pass JavaScript objects around by reference: a
    [Piece] object sits in every grid that was copied from the one it
    was placed on, the two castling-rights objects and the history array
    are shared by every state object spread from the first one.  The
    embedding keeps them in an explicit store ([Heap]); grids and the
    primitive fields of a state are values.  Functions that write take
    the store and return the new one.

    Squares are pairs of integers.  A read [board[r][c]] off the grid
    is modelled as [undefined] ([None]); in the source a row index
    outside [0..7] raises instead, so the statements about [makeMove]
    and [getPossibleMoves] are made for origins on the grid. *)

From Stdlib Require Import ZArith List Bool Lia.
From Stdlib Require String.
Import ListNotations.
Open Scope Z_scope.

(** ** Data model ([types.ts]) *)

Inductive PieceType := pawn | rook | knight | bishop | queen | king.
Inductive Color := white | black.

(** A [Piece] object.  Boards, moves and snapshots hold references to
    such objects; promotion assigns to the [type] field in place. *)
Record Piece := mkPiece { type : PieceType; color : Color }.

Record Position := mkPos { row : Z; col : Z }.

(** References into the store. *)
Definition ref := nat.

Record Move := mkMove {
  from : Position;
  to : Position;
  piece : ref;
  capturedPiece : option ref;
  isEnPassant : bool;
  isCastling : bool;
  promoteTo : option PieceType
}.

(** [(Piece | null)[][]]: the row arrays are owned by one state object
    (every hand-over goes through [copyBoard]), so a board is a value; its
    cells are references to shared [Piece] objects. *)
Definition Board := list (list (option ref)).

(** The objects [{ white: boolean; black: boolean }] behind
    [canCastleKingSide] and [canCastleQueenSide]. *)
Record SideFlags := mkFlags { forWhite : bool; forBlack : bool }.

(** The store: [Piece] objects, castling-rights objects and the arrays
    that hold move histories. *)
Record Heap := mkHeap {
  pieces : list Piece;
  flagObjs : list SideFlags;
  arrays : list (list Move)
}.

(** The [GameState] object of one [ChessGame].  Primitive fields and the
    board are held by value, the three object-valued fields by
    reference. *)
Record GameState := mkState {
  board : Board;
  currentPlayer : Color;
  moveHistory : ref;
  isCheck : bool;
  isCheckmate : bool;
  isStalemate : bool;
  canCastleKingSide : ref;
  canCastleQueenSide : ref;
  enPassantTarget : option Position
}.

Definition PieceType_eqb (a b : PieceType) : bool :=
  match a, b with
  | pawn, pawn | rook, rook | knight, knight
  | bishop, bishop | queen, queen | king, king => true
  | _, _ => false
  end.

Definition Color_eqb (a b : Color) : bool :=
  match a, b with
  | white, white | black, black => true
  | _, _ => false
  end.

Definition opponent (c : Color) : Color :=
  match c with white => black | black => white end.

(** ** Array access *)

(** [a[i]] for an integer [i]: [None] stands for [undefined]. *)
Definition index {A} (a : list A) (i : Z) : option A :=
  if i <? 0 then None else nth_error a (Z.to_nat i).

Fixpoint setNth {A} (a : list A) (n : nat) (v : A) : list A :=
  match a, n with
  | [], _ => []
  | _ :: rest, O => v :: rest
  | x :: rest, S m => x :: setNth rest m v
  end.

(** [a[i] = v] for an index inside the array (every assignment of the
    engine is at a square of the 8x8 grid). *)
Definition assign {A} (a : list A) (i : Z) (v : A) : list A :=
  if i <? 0 then a else setNth a (Z.to_nat i) v.

(** [board[pos.row][pos.col]], with [null] and [undefined] both read as
    [None] (the engine only tests the cell for truthiness). *)
Definition cellAt (b : Board) (pos : Position) : option ref :=
  match index b (row pos) with
  | Some r => match index r (col pos) with
              | Some cell => cell
              | None => None
              end
  | None => None
  end.

(** [board[pos.row][pos.col] = v]. *)
Definition setCell (b : Board) (pos : Position) (v : option ref) : Board :=
  match index b (row pos) with
  | Some r => assign b (row pos) (assign r (col pos) v)
  | None => b
  end.

Definition deref (h : Heap) (l : ref) : option Piece := nth_error (pieces h) l.

(** The piece object a cell refers to, read through the store. *)
Definition pieceAt (h : Heap) (b : Board) (pos : Position) : option Piece :=
  match cellAt b pos with
  | Some l => deref h l
  | None => None
  end.

(** ** [utils.ts] *)

Definition isValidPosition (pos : Position) : bool :=
  (0 <=? row pos) && (row pos <? 8) && (0 <=? col pos) && (col pos <? 8).

Definition positionsEqual (pos1 pos2 : Position) : bool :=
  (row pos1 =? row pos2) && (col pos1 =? col pos2).

(** [board.map(row => [...row])]: fresh row arrays, the same cell
    contents, hence the same [Piece] objects. *)
Definition copyBoard (b : Board) : Board := map (fun r => map (fun cell => cell) r) b.

Definition backRank : list PieceType :=
  [rook; knight; bishop; queen; king; bishop; knight; rook].

(** The indices [0 .. 7] of every [for (let i = 0; i < 8; i++)] loop. *)
Definition range8 : list Z := [0; 1; 2; 3; 4; 5; 6; 7].

(** [new Piece] : the object is appended to the piece table and its
    index is the reference. *)
Definition allocPiece (h : Heap) (p : Piece) : Heap * ref :=
  (mkHeap (pieces h ++ [p]) (flagObjs h) (arrays h), length (pieces h)).

(** [board[r][c] = { type, color }] with a fresh object. *)
Definition place (s : Heap * Board) (r c : Z) (t : PieceType) (k : Color)
  : Heap * Board :=
  let '(h1, l) := allocPiece (fst s) (mkPiece t k) in
  (h1, setCell (snd s) (mkPos r c) (Some l)).

Definition emptyBoard : Board := repeat (repeat None 8) 8.

(** [createInitialBoard]: the grid of nulls, then the pawn loop, then the
    back-rank loop, each allocating its pieces in the store. *)
Definition createInitialBoard (h : Heap) : Heap * Board :=
  let pawns :=
    fold_left (fun s c => place (place s 1 c pawn black) 6 c pawn white)
              range8 (h, emptyBoard) in
  fold_left (fun s ct => place (place s 0 (fst ct) (snd ct) black)
                               7 (fst ct) (snd ct) white)
            (combine range8 backRank) pawns.

(** ** [ChessGame.ts]: move generation

    Every generator is a method that reads [this.state]: the section
    variables [h] and [st] are the store and that state object. *)

Definition isNone {A} (o : option A) : bool :=
  match o with None => true | Some _ => false end.

Definition isNil {A} (l : list A) : bool :=
  match l with [] => true | _ :: _ => false end.

(** Row-major scan [for row ... for col ...] of the 64 squares. *)
Definition allSquares : list Position :=
  flat_map (fun r => map (fun c => mkPos r c) range8) range8.

Section Generators.

Variable h : Heap.
Variable st : GameState.

(** [!this.state.board[pos.row][pos.col]] *)
Definition vacant (pos : Position) : bool := isNone (cellAt (board st) pos).

(** [piece.color !== this.state.board[from.row][from.col]!.color] for the
    object [l] found on a target square.  Both objects exist wherever
    the engine evaluates the comparison. *)
Definition isEnemyOfMover (from : Position) (l : ref) : bool :=
  match deref h l, pieceAt h (board st) from with
  | Some p, Some m => negb (Color_eqb (color p) (color m))
  | _, _ => false
  end.

Definition getPawnMoves (from : Position) (c : Color) : list Position :=
  let direction := match c with white => -1 | black => 1 end in
  let startRow := match c with white => 6 | black => 1 end in
  let oneStep := mkPos (row from + direction) (col from) in
  let forward :=
    if isValidPosition oneStep && vacant oneStep then
      oneStep ::
      (if row from =? startRow then
         let twoStep := mkPos (row from + 2 * direction) (col from) in
         if isValidPosition twoStep && vacant twoStep then [twoStep] else []
       else [])
    else [] in
  let capturePositions :=
    [ mkPos (row from + direction) (col from - 1);
      mkPos (row from + direction) (col from + 1) ] in
  forward ++
  flat_map (fun pos =>
    if isValidPosition pos then
      (match pieceAt h (board st) pos with
       | Some target => if negb (Color_eqb (color target) c) then [pos] else []
       | None => []
       end) ++
      (match enPassantTarget st with
       | Some ep => if positionsEqual pos ep then [pos] else []
       | None => []
       end)
    else []) capturePositions.

(** The inner loop [for (let i = 1; i < 8; i++)] of the rook and bishop
    generators along one direction, with its two [break]s. *)
Fixpoint ray (from : Position) (dr dc : Z) (steps : list Z) : list Position :=
  match steps with
  | [] => []
  | i :: rest =>
    let pos := mkPos (row from + dr * i) (col from + dc * i) in
    if negb (isValidPosition pos) then []
    else match cellAt (board st) pos with
         | None => pos :: ray from dr dc rest
         | Some l => if isEnemyOfMover from l then [pos] else []
         end
  end.

Definition steps : list Z := [1; 2; 3; 4; 5; 6; 7].

Definition getRookMoves (from : Position) : list Position :=
  flat_map (fun d => ray from (fst d) (snd d) steps)
           [(-1, 0); (1, 0); (0, -1); (0, 1)].

Definition getBishopMoves (from : Position) : list Position :=
  flat_map (fun d => ray from (fst d) (snd d) steps)
           [(-1, -1); (-1, 1); (1, -1); (1, 1)].

Definition getQueenMoves (from : Position) : list Position :=
  getRookMoves from ++ getBishopMoves from.

(** The loop shared by the knight and the king: one candidate square per
    offset, kept when inside the grid and not held by a friendly piece. *)
Definition jumps (from : Position) (offsets : list (Z * Z)) : list Position :=
  flat_map (fun d =>
    let pos := mkPos (row from + fst d) (col from + snd d) in
    if isValidPosition pos then
      match cellAt (board st) pos with
      | None => [pos]
      | Some l => if isEnemyOfMover from l then [pos] else []
      end
    else []) offsets.

Definition getKnightMoves (from : Position) : list Position :=
  jumps from [(-2, -1); (-2, 1); (-1, -2); (-1, 2);
              (1, -2); (1, 2); (2, -1); (2, 1)].

(** [this.state.canCastleKingSide.white] and the three like it. *)
Definition flagOf (l : ref) (c : Color) : bool :=
  match nth_error (flagObjs h) l with
  | Some f => match c with white => forWhite f | black => forBlack f end
  | None => false
  end.

Definition castlingMoves (c : Color) (r : Z) : list Position :=
  (if flagOf (canCastleKingSide st) c
      && vacant (mkPos r 5) && vacant (mkPos r 6)
   then [mkPos r 6] else []) ++
  (if flagOf (canCastleQueenSide st) c
      && vacant (mkPos r 3) && vacant (mkPos r 2) && vacant (mkPos r 1)
   then [mkPos r 2] else []).

Definition getKingMoves (from : Position) : list Position :=
  jumps from [(-1, -1); (-1, 0); (-1, 1);
              (0, -1);           (0, 1);
              (1, -1);  (1, 0);  (1, 1)] ++
  match option_map color (pieceAt h (board st) from) with
  | Some white =>
      if (row from =? 7) && (col from =? 4) then castlingMoves white 7 else []
  | Some black =>
      if (row from =? 0) && (col from =? 4) then castlingMoves black 0 else []
  | None => []
  end.

Definition calculateLegalMoves (from : Position) (p : Piece) : list Position :=
  match type p with
  | pawn => getPawnMoves from (color p)
  | rook => getRookMoves from
  | knight => getKnightMoves from
  | bishop => getBishopMoves from
  | queen => getQueenMoves from
  | king => getKingMoves from
  end.

(** ** Attack detection and the legality filter

    [findKing] and [isSquareAttacked] scan the board they are given, but
    the moves of each attacker come from [calculateLegalMoves], which
    reads [this.state.board]. *)

Definition findKing (b : Board) (c : Color) : option Position :=
  find (fun pos =>
          match pieceAt h b pos with
          | Some p => PieceType_eqb (type p) king && Color_eqb (color p) c
          | None => false
          end) allSquares.

Definition isSquareAttacked (b : Board) (target : Position) (byColor : Color)
  : bool :=
  existsb (fun pos =>
             match pieceAt h b pos with
             | Some p =>
                 Color_eqb (color p) byColor
                 && existsb (fun m => positionsEqual m target)
                            (calculateLegalMoves pos p)
             | None => false
             end) allSquares.

Definition isInCheck (b : Board) (c : Color) : bool :=
  match findKing b c with
  | None => false
  | Some kingPos => isSquareAttacked b kingPos (opponent c)
  end.

Definition simulateMove (m : Move) : Board :=
  setCell (setCell (copyBoard (board st)) (to m) (Some (piece m))) (from m) None.

Definition isLegalMove (m : Move) : bool :=
  negb (isInCheck (simulateMove m) (currentPlayer st)).

Definition getPossibleMoves (from : Position) : list Position :=
  match cellAt (board st) from with
  | None => []
  | Some l =>
    match deref h l with
    | None => []
    | Some p =>
      if negb (Color_eqb (color p) (currentPlayer st)) then []
      else filter (fun to => isLegalMove (mkMove from to l None false false None))
                  (calculateLegalMoves from p)
    end
  end.

Definition hasLegalMoves (c : Color) : bool :=
  existsb (fun pos =>
             match pieceAt h (board st) pos with
             | Some p => Color_eqb (color p) c
                         && negb (isNil (getPossibleMoves pos))
             | None => false
             end) allSquares.

Definition getAllLegalMoves (c : Color) : list Move :=
  flat_map (fun pos =>
    match cellAt (board st) pos with
    | None => []
    | Some l =>
      match deref h l with
      | None => []
      | Some p =>
        if Color_eqb (color p) c then
          map (fun to => mkMove pos to l (cellAt (board st) to) false false None)
              (getPossibleMoves pos)
        else []
      end
    end) allSquares.

End Generators.

(** ** [ChessGame.ts]: applying a move *)

Definition setBoard (st : GameState) (b : Board) : GameState :=
  mkState b (currentPlayer st) (moveHistory st) (isCheck st) (isCheckmate st)
          (isStalemate st) (canCastleKingSide st) (canCastleQueenSide st)
          (enPassantTarget st).

Definition setEnPassantTarget (st : GameState) (e : option Position) : GameState :=
  mkState (board st) (currentPlayer st) (moveHistory st) (isCheck st)
          (isCheckmate st) (isStalemate st) (canCastleKingSide st)
          (canCastleQueenSide st) e.

Definition setCurrentPlayer (st : GameState) (c : Color) : GameState :=
  mkState (board st) c (moveHistory st) (isCheck st) (isCheckmate st)
          (isStalemate st) (canCastleKingSide st) (canCastleQueenSide st)
          (enPassantTarget st).

Definition setStatus (st : GameState) (chk mate stale : bool) : GameState :=
  mkState (board st) (currentPlayer st) (moveHistory st) chk mate stale
          (canCastleKingSide st) (canCastleQueenSide st) (enPassantTarget st).

(** [piece.type = t] on the object [l]. *)
Definition setPieceType (h : Heap) (l : ref) (t : PieceType) : Heap :=
  match deref h l with
  | Some p => mkHeap (setNth (pieces h) l (mkPiece t (color p)))
                     (flagObjs h) (arrays h)
  | None => h
  end.

(** [flags.white = false] or [flags.black = false] on the object [l]. *)
Definition clearFlag (h : Heap) (l : ref) (c : Color) : Heap :=
  match nth_error (flagObjs h) l with
  | Some f =>
      mkHeap (pieces h)
             (setNth (flagObjs h) l
                (match c with
                 | white => mkFlags false (forBlack f)
                 | black => mkFlags (forWhite f) false
                 end))
             (arrays h)
  | None => h
  end.

(** [array.push(m)] on the array [l]. *)
Definition pushMove (h : Heap) (l : ref) (m : Move) : Heap :=
  match nth_error (arrays h) l with
  | Some a => mkHeap (pieces h) (flagObjs h) (setNth (arrays h) l (a ++ [m]))
  | None => h
  end.

(** The type and colour of the moved object, [None] standing for a
    reference that is not in the store. *)
Definition typeOf (h : Heap) (l : ref) : option PieceType :=
  option_map type (deref h l).

Definition colorOf (h : Heap) (l : ref) : option Color :=
  option_map color (deref h l).

Definition isType (h : Heap) (l : ref) (t : PieceType) : bool :=
  match typeOf h l with
  | Some t' => PieceType_eqb t' t
  | None => false
  end.

(** The three tests of [handleSpecialMoves], each on the moved object as
    it is when the test runs (only the last branch writes to it). *)
Definition isCastlingMove (h : Heap) (m : Move) : bool :=
  isType h (piece m) king && (Z.abs (col (to m) - col (from m)) =? 2).

Definition isEnPassantMove (h : Heap) (st : GameState) (m : Move) : bool :=
  isType h (piece m) pawn
  && match enPassantTarget st with
     | Some ep => positionsEqual (to m) ep
     | None => false
     end.

Definition isPromotionMove (h : Heap) (m : Move) : bool :=
  isType h (piece m) pawn && ((row (to m) =? 0) || (row (to m) =? 7)).

(** The castling branch: the rook's corner is copied to its post-castle
    square and cleared. *)
Definition relocateRook (b : Board) (m : Move) : Board :=
  let isKingSide := col (to m) >? col (from m) in
  let rookFromCol := if isKingSide then 7 else 0 in
  let rookToCol := if isKingSide then 5 else 3 in
  let r := row (from m) in
  setCell (setCell b (mkPos r rookToCol) (cellAt b (mkPos r rookFromCol)))
          (mkPos r rookFromCol) None.

(** The en-passant branch: the square behind the destination is
    cleared. *)
Definition removePassedPawn (h : Heap) (b : Board) (m : Move) : Board :=
  let capturedPawnRow :=
    match colorOf h (piece m) with
    | Some white => row (to m) + 1
    | _ => row (to m) - 1
    end in
  setCell b (mkPos capturedPawnRow (col (to m))) None.

(** The three effects of [handleSpecialMoves], in the order of the
    source: the grid after the castling and en-passant branches, the
    store after the promotion branch (the [type] field of the moved
    object is assigned in place), and the move record with its three
    optional fields. *)
Definition specialBoard (h : Heap) (st : GameState) (m : Move) : Board :=
  let b1 := if isCastlingMove h m then relocateRook (board st) m
            else board st in
  if isEnPassantMove h st m then removePassedPawn h b1 m else b1.

Definition promoted (h : Heap) (m : Move) : Heap :=
  if isPromotionMove h m then setPieceType h (piece m) queen else h.

Definition recorded (h : Heap) (st : GameState) (m : Move) : Move :=
  mkMove (from m) (to m) (piece m) (capturedPiece m)
         (isEnPassantMove h st m) (isCastlingMove h m)
         (if isPromotionMove h m then Some queen else None).

Definition handleSpecialMoves (h : Heap) (st : GameState) (m : Move)
  : Heap * GameState * Move :=
  (promoted h m, setBoard st (specialBoard h st m), recorded h st m).

(** [updateCastlingRights]: reads the moved object after
    [handleSpecialMoves] and writes the shared rights objects. *)
Definition updateCastlingRights (h : Heap) (st : GameState) (m : Move) : Heap :=
  let h1 :=
    if isType h (piece m) king then
      match colorOf h (piece m) with
      | Some white => clearFlag (clearFlag h (canCastleKingSide st) white)
                                (canCastleQueenSide st) white
      | _ => clearFlag (clearFlag h (canCastleKingSide st) black)
                       (canCastleQueenSide st) black
      end
    else h in
  if isType h1 (piece m) rook then
    match colorOf h1 (piece m) with
    | Some white =>
        if row (from m) =? 7 then
          let h2 := if col (from m) =? 0
                    then clearFlag h1 (canCastleQueenSide st) white else h1 in
          if col (from m) =? 7
          then clearFlag h2 (canCastleKingSide st) white else h2
        else h1
    | Some black =>
        if row (from m) =? 0 then
          let h2 := if col (from m) =? 0
                    then clearFlag h1 (canCastleQueenSide st) black else h1 in
          if col (from m) =? 7
          then clearFlag h2 (canCastleKingSide st) black else h2
        else h1
    | None => h1
    end
  else h1.

Definition updateEnPassantTarget (h : Heap) (st : GameState) (m : Move)
  : GameState :=
  if isType h (piece m) pawn && (Z.abs (row (to m) - row (from m)) =? 2) then
    setEnPassantTarget st
      (Some (mkPos ((row (from m) + row (to m)) / 2) (col (from m))))
  else setEnPassantTarget st None.

(** [updateGameStatus]: [isCheck] is assigned, the two terminal flags are
    only ever set. *)
Definition updateGameStatus (h : Heap) (st : GameState) : GameState :=
  let c := currentPlayer st in
  let chk := isInCheck h st (board st) c in
  if negb (hasLegalMoves h st c) then
    if chk then setStatus st chk true (isStalemate st)
    else setStatus st chk (isCheckmate st) true
  else setStatus st chk (isCheckmate st) (isStalemate st).

(** [{ from, to, piece, capturedPiece: capturedPiece || undefined }] *)
Definition candidate (st : GameState) (fromP toP : Position) (l : ref) : Move :=
  mkMove fromP toP l (cellAt (board st) toP) false false None.

(** The part of [makeMove] after its two guards. *)
Definition performMove (h : Heap) (st : GameState) (fromP toP : Position)
  (l : ref) : Heap * GameState :=
  let m := candidate st fromP toP l in
  let '(h1, st1, m1) := handleSpecialMoves h st m in
  let st2 := setBoard st1 (setCell (setCell (board st1) toP (Some l)) fromP None) in
  let h2 := pushMove h1 (moveHistory st2) m1 in
  let h3 := updateCastlingRights h2 st2 m1 in
  let st3 := updateEnPassantTarget h3 st2 m1 in
  let st4 := setCurrentPlayer st3 (opponent (currentPlayer st3)) in
  (h3, updateGameStatus h3 st4).

Definition makeMove (h : Heap) (st : GameState) (fromP toP : Position)
  : bool * (Heap * GameState) :=
  match cellAt (board st) fromP with
  | None => (false, (h, st))
  | Some l =>
    match deref h l with
    | None => (false, (h, st))
    | Some p =>
      if negb (Color_eqb (color p) (currentPlayer st)) then (false, (h, st))
      else if negb (existsb (fun pos => positionsEqual pos toP)
                            (getPossibleMoves h st fromP))
      then (false, (h, st))
      else (true, performMove h st fromP toP l)
    end
  end.

Definition applyMove (h : Heap) (st : GameState) (m : Move) : Heap * GameState :=
  snd (makeMove h st (from m) (to m)).

(** [createInitialGameState]: the board, then the empty history array
    and the two rights objects, all fresh in the store. *)
Definition createInitialGameState (h : Heap) : Heap * GameState :=
  let '(h1, b) := createInitialBoard h in
  let hist := length (arrays h1) in
  let ks := length (flagObjs h1) in
  let qs := S ks in
  (mkHeap (pieces h1)
          (flagObjs h1 ++ [mkFlags true true; mkFlags true true])
          (arrays h1 ++ [[]]),
   mkState b white hist false false false ks qs None).

(** [getGameState]: [{ ...this.state, board: copyBoard(this.state.board) }].
    The spread copies the fields; the history array and the two rights
    objects are the ones of the engine. *)
Definition getGameState (st : GameState) : GameState :=
  setBoard st (copyBoard (board st)).

Definition emptyHeap : Heap := mkHeap [] [] [].

(** [new ChessGame()] in an empty store. *)
Definition newGame : Heap * GameState := createInitialGameState emptyHeap.

(** A sequence of [makeMove] calls; the answers are collected. *)
Fixpoint play (s : Heap * GameState) (ms : list (Position * Position))
  : list bool * (Heap * GameState) :=
  match ms with
  | [] => ([], s)
  | (f, t) :: rest =>
      let r := makeMove (fst s) (snd s) f t in
      let r' := play (snd r) rest in
      (fst r :: fst r', snd r')
  end.

Definition sq (r c : Z) : Position := mkPos r c.

(** ** [ChessAI.ts] *)

(** JavaScript numbers as the search uses them: the integers of the
    evaluation and the two infinities that seed the folds. *)
Inductive Num := NegInf | Fin (z : Z) | PosInf.

Definition Num_leb (a b : Num) : bool :=
  match a, b with
  | NegInf, _ => true
  | _, PosInf => true
  | Fin x, Fin y => x <=? y
  | _, _ => false
  end.

Definition Num_ltb (a b : Num) : bool := negb (Num_leb b a).

(** [Math.max] and [Math.min] *)
Definition Num_max (a b : Num) : Num := if Num_leb a b then b else a.
Definition Num_min (a b : Num) : Num := if Num_leb a b then a else b.

Definition maxDepth : nat := 4.

Definition pieceValues (t : PieceType) : Z :=
  match t with
  | pawn => 100
  | knight => 320
  | bishop => 330
  | rook => 500
  | queen => 900
  | king => 20000
  end.

Definition pawnTable : list (list Z) :=
  [ [0; 0; 0; 0; 0; 0; 0; 0];
    [50; 50; 50; 50; 50; 50; 50; 50];
    [10; 10; 20; 30; 30; 20; 10; 10];
    [5; 5; 10; 25; 25; 10; 5; 5];
    [0; 0; 0; 20; 20; 0; 0; 0];
    [5; (-5); (-10); 0; 0; (-10); (-5); 5];
    [5; 10; 10; (-20); (-20); 10; 10; 5];
    [0; 0; 0; 0; 0; 0; 0; 0] ].

Definition knightTable : list (list Z) :=
  [ [(-50); (-40); (-30); (-30); (-30); (-30); (-40); (-50)];
    [(-40); (-20); 0; 0; 0; 0; (-20); (-40)];
    [(-30); 0; 10; 15; 15; 10; 0; (-30)];
    [(-30); 5; 15; 20; 20; 15; 5; (-30)];
    [(-30); 0; 15; 20; 20; 15; 0; (-30)];
    [(-30); 5; 10; 15; 15; 10; 5; (-30)];
    [(-40); (-20); 0; 5; 5; 0; (-20); (-40)];
    [(-50); (-40); (-30); (-30); (-30); (-30); (-40); (-50)] ].

Definition bishopTable : list (list Z) :=
  [ [(-20); (-10); (-10); (-10); (-10); (-10); (-10); (-20)];
    [(-10); 0; 0; 0; 0; 0; 0; (-10)];
    [(-10); 0; 5; 10; 10; 5; 0; (-10)];
    [(-10); 5; 5; 10; 10; 5; 5; (-10)];
    [(-10); 0; 10; 10; 10; 10; 0; (-10)];
    [(-10); 10; 10; 10; 10; 10; 10; (-10)];
    [(-10); 5; 0; 0; 0; 0; 5; (-10)];
    [(-20); (-10); (-10); (-10); (-10); (-10); (-10); (-20)] ].

Definition rookTable : list (list Z) :=
  [ [0; 0; 0; 0; 0; 0; 0; 0];
    [5; 10; 10; 10; 10; 10; 10; 5];
    [(-5); 0; 0; 0; 0; 0; 0; (-5)];
    [(-5); 0; 0; 0; 0; 0; 0; (-5)];
    [(-5); 0; 0; 0; 0; 0; 0; (-5)];
    [(-5); 0; 0; 0; 0; 0; 0; (-5)];
    [(-5); 0; 0; 0; 0; 0; 0; (-5)];
    [0; 0; 0; 5; 5; 0; 0; 0] ].

Definition queenTable : list (list Z) :=
  [ [(-20); (-10); (-10); (-5); (-5); (-10); (-10); (-20)];
    [(-10); 0; 0; 0; 0; 0; 0; (-10)];
    [(-10); 0; 5; 5; 5; 5; 0; (-10)];
    [(-5); 0; 5; 5; 5; 5; 0; (-5)];
    [0; 0; 5; 5; 5; 5; 0; (-5)];
    [(-10); 5; 5; 5; 5; 5; 0; (-10)];
    [(-10); 0; 5; 0; 0; 0; 0; (-10)];
    [(-20); (-10); (-10); (-5); (-5); (-10); (-10); (-20)] ].

Definition kingMiddleGameTable : list (list Z) :=
  [ [(-30); (-40); (-40); (-50); (-50); (-40); (-40); (-30)];
    [(-30); (-40); (-40); (-50); (-50); (-40); (-40); (-30)];
    [(-30); (-40); (-40); (-50); (-50); (-40); (-40); (-30)];
    [(-30); (-40); (-40); (-50); (-50); (-40); (-40); (-30)];
    [(-20); (-30); (-30); (-40); (-40); (-30); (-30); (-20)];
    [(-10); (-20); (-20); (-20); (-20); (-20); (-20); (-10)];
    [20; 20; 0; 0; 0; 0; 20; 20];
    [20; 30; 10; 0; 0; 10; 30; 20] ].

(** [table[r][c]] inside the 8x8 table. *)
Definition lookup (table : list (list Z)) (r c : Z) : Z :=
  match index table r with
  | Some line => match index line c with Some v => v | None => 0 end
  | None => 0
  end.

Definition getPositionValue (p : Piece) (position : Position) : Z :=
  let adjustedRow :=
    match color p with white => 7 - row position | black => row position end in
  let table :=
    match type p with
    | pawn => pawnTable
    | knight => knightTable
    | bishop => bishopTable
    | rook => rookTable
    | queen => queenTable
    | king => kingMiddleGameTable
    end in
  lookup table adjustedRow (col position).

Definition getPieceValue (p : Piece) (position : Position) : Z :=
  pieceValues (type p) + getPositionValue p position.

Definition evaluatePosition (h : Heap) (b : Board) : Z :=
  fold_left (fun score pos =>
               match pieceAt h b pos with
               | Some p =>
                   let pieceValue := getPieceValue p pos in
                   score + match color p with
                           | black => pieceValue
                           | white => - pieceValue
                           end
               | None => score
               end) allSquares 0.

(** [createGameCopy].  The state that [new ChessGame()] builds is
    replaced before anything reads it, so its objects are left out of
    the store.  The copy has its own grid and its own history array; the
    [Piece] objects and the two rights objects are those of [game]. *)
Definition createGameCopy (h : Heap) (game : GameState) : Heap * GameState :=
  let currentState := getGameState game in
  let history :=
    match nth_error (arrays h) (moveHistory currentState) with
    | Some a => a
    | None => []
    end in
  (mkHeap (pieces h) (flagObjs h) (arrays h ++ [history]),
   mkState (copyBoard (board currentState)) (currentPlayer currentState)
           (length (arrays h)) (isCheck currentState)
           (isCheckmate currentState) (isStalemate currentState)
           (canCastleKingSide currentState) (canCastleQueenSide currentState)
           (enPassantTarget currentState)).

(** One iteration body shared by the two loops of [minimax] and by the
    loop of [getBestMove]: copy the game, apply the move to the copy. *)
Definition branch (h : Heap) (game : GameState) (m : Move) : Heap * GameState :=
  let '(h1, tempGame) := createGameCopy h game in
  applyMove h1 tempGame m.

(** [minimax].  The recursion is on [depth]; each of the two [for] loops
    is a local loop over the move list that carries the store, the
    running extremum and the bound it updates, and stops at
    [beta <= alpha]. *)
Fixpoint minimax (depth : nat) (h : Heap) (game : GameState)
  (alpha beta : Num) (isMaximizing : bool) {struct depth} : Heap * Num :=
  let gameState := getGameState game in
  match depth with
  | O => (h, Fin (evaluatePosition h (board gameState)))
  | S depth' =>
    if isCheckmate gameState || isStalemate gameState
    then (h, Fin (evaluatePosition h (board gameState)))
    else
      let currentPlayer := if isMaximizing then black else white in
      let legalMoves := getAllLegalMoves h game currentPlayer in
      if isMaximizing then
        (fix loop (moves : list Move) (h : Heap) (maxEval alpha : Num)
           : Heap * Num :=
           match moves with
           | [] => (h, maxEval)
           | move :: rest =>
             let '(h1, tempGame) := branch h game move in
             let '(h2, eval_) := minimax depth' h1 tempGame alpha beta false in
             let maxEval := Num_max maxEval eval_ in
             let alpha := Num_max alpha eval_ in
             if Num_leb beta alpha then (h2, maxEval)
             else loop rest h2 maxEval alpha
           end) legalMoves h NegInf alpha
      else
        (fix loop (moves : list Move) (h : Heap) (minEval beta : Num)
           : Heap * Num :=
           match moves with
           | [] => (h, minEval)
           | move :: rest =>
             let '(h1, tempGame) := branch h game move in
             let '(h2, eval_) := minimax depth' h1 tempGame alpha beta true in
             let minEval := Num_min minEval eval_ in
             let beta := Num_min beta eval_ in
             if Num_leb beta alpha then (h2, minEval)
             else loop rest h2 minEval beta
           end) legalMoves h PosInf beta
  end.

(** [getBestMove]: the loop keeps the first move of strictly greatest
    value; the result also carries the store the search leaves behind. *)
Definition getBestMove (h : Heap) (game : GameState) : Heap * option Move :=
  let legalMoves := getAllLegalMoves h game black in
  if isNil legalMoves then (h, None)
  else
    let '(h', bestMove, _) :=
      fold_left (fun acc move =>
                   let '(h, bestMove, bestValue) := acc in
                   let '(h1, tempGame) := branch h game move in
                   let '(h2, value) :=
                     minimax (maxDepth - 1) h1 tempGame NegInf PosInf false in
                   if Num_ltb bestValue value then (h2, Some move, value)
                   else (h2, bestMove, bestValue))
                legalMoves (h, None, NegInf) in
    (h', bestMove).

(** The search of the specification's wording: the same recursion with
    no cut-off, every sibling explored. *)
Fixpoint minimaxUnpruned (depth : nat) (h : Heap) (game : GameState)
  (isMaximizing : bool) {struct depth} : Heap * Num :=
  let gameState := getGameState game in
  match depth with
  | O => (h, Fin (evaluatePosition h (board gameState)))
  | S depth' =>
    if isCheckmate gameState || isStalemate gameState
    then (h, Fin (evaluatePosition h (board gameState)))
    else
      let currentPlayer := if isMaximizing then black else white in
      let legalMoves := getAllLegalMoves h game currentPlayer in
      (fix loop (moves : list Move) (h : Heap) (best : Num) : Heap * Num :=
         match moves with
         | [] => (h, best)
         | move :: rest =>
           let '(h1, tempGame) := branch h game move in
           let '(h2, eval_) :=
             minimaxUnpruned depth' h1 tempGame (negb isMaximizing) in
           loop rest h2
                (if isMaximizing then Num_max best eval_
                 else Num_min best eval_)
         end) legalMoves h (if isMaximizing then NegInf else PosInf)
  end.


(** ** Observations through the store *)

(** What a reader of a grid sees: each cell's object as it now is. *)
Definition viewBoard (h : Heap) (b : Board) : list (list (option Piece)) :=
  map (map (fun cell => match cell with
                        | Some l => deref h l
                        | None => None
                        end)) b.

(** The contents of the history array of a state object. *)
Definition historyOf (h : Heap) (st : GameState) : list Move :=
  match nth_error (arrays h) (moveHistory st) with
  | Some a => a
  | None => []
  end.

Definition countPieces (t : PieceType) (c : Color)
  (v : list (list (option Piece))) : nat :=
  length (filter (fun cell =>
                    match cell with
                    | Some p => PieceType_eqb (type p) t && Color_eqb (color p) c
                    | None => false
                    end) (concat v)).

(** ** States of a game *)

(** The 8x8 shape of a grid. *)
Definition wfBoard (b : Board) : Prop :=
  length b = 8%nat /\ Forall (fun r => length r = 8%nat) b.

(** The states a game goes through: the constructor's state and every
    state a successful [makeMove] leaves. *)
Inductive reachable : Heap * GameState -> Prop :=
| reachable_new : reachable newGame
| reachable_move h st f t h' st' :
    reachable (h, st) ->
    makeMove h st f t = (true, (h', st')) ->
    reachable (h', st').

(** Every reference of the state object points into the store and the
    grid is 8x8. *)
Definition wfState (h : Heap) (st : GameState) : Prop :=
  wfBoard (board st) /\ (moveHistory st < length (arrays h))%nat.

(** No pawn stands on row 0 or row 7. *)
Definition noEdgePawn (h : Heap) (b : Board) : Prop :=
  forall pos q, pieceAt h b pos = Some q -> type q = pawn ->
                row pos <> 0 /\ row pos <> 7.

(** The invariant of the two terminal flags: one of them is set exactly
    when the side to move has no legal move, and never both. *)
Definition statusInv (s : Heap * GameState) : Prop :=
  (isCheckmate (snd s) = true \/ isStalemate (snd s) = true <->
   hasLegalMoves (fst s) (snd s) (currentPlayer (snd s)) = false)
  /\ ~ (isCheckmate (snd s) = true /\ isStalemate (snd s) = true).

(** The constants of the rules, by colour: the forward direction and
    the start row of a pawn, the home row of the king and rooks, and the
    final rank. *)
Definition direction (c : Color) : Z :=
  match c with white => -1 | black => 1 end.

Definition startRow (c : Color) : Z :=
  match c with white => 6 | black => 1 end.

Definition homeRow (c : Color) : Z :=
  match c with white => 7 | black => 0 end.

Definition finalRank (c : Color) : Z :=
  match c with white => 0 | black => 7 end.

(** ** Games and positions used as inputs *)

(** 1.d4 e6 2.Nc3 Bb4: the knight on c3 stands between the bishop on b4
    and the white king. *)
Definition pinGame : Heap * GameState :=
  snd (play newGame [ (sq 6 3, sq 4 3); (sq 1 4, sq 2 4);
                      (sq 7 1, sq 5 2); (sq 0 5, sq 4 1) ]).

(** 1.g4 b6 2.Nh3 Bb7 3.e3 Bxh1 4.Bc4 a6: the rook on h1 was taken on
    its home square and never moved; f1 and g1 are empty. *)
Definition capturedRookGame : Heap * GameState :=
  snd (play newGame [ (sq 6 6, sq 4 6); (sq 1 1, sq 2 1);
                      (sq 7 6, sq 5 7); (sq 0 2, sq 1 1);
                      (sq 6 4, sq 5 4); (sq 1 1, sq 7 7);
                      (sq 7 5, sq 4 2); (sq 1 0, sq 2 0) ]).

(** 1.e4 e5 2.Nf3 Nc6 3.Bc4 Bc5: White may castle on the king's side. *)
Definition castlingGame : Heap * GameState :=
  snd (play newGame [ (sq 6 4, sq 4 4); (sq 1 4, sq 3 4);
                      (sq 7 6, sq 5 5); (sq 0 1, sq 2 2);
                      (sq 7 5, sq 4 2); (sq 0 5, sq 3 2) ]).

(** 1.a4 h6 2.a5 h5 3.a6 h4 4.axb7 h3: the white pawn on b7 can take on
    a8 or c8. *)
Definition promotionGame : Heap * GameState :=
  snd (play newGame [ (sq 6 0, sq 4 0); (sq 1 7, sq 2 7);
                      (sq 4 0, sq 3 0); (sq 2 7, sq 3 7);
                      (sq 3 0, sq 2 0); (sq 3 7, sq 4 7);
                      (sq 2 0, sq 1 1); (sq 4 7, sq 5 7) ]).

(** 1.e4 f6 2.Qh5: the engine finds no legal move for Black. *)
Definition queenCheckGame : Heap * GameState :=
  snd (play newGame [ (sq 6 4, sq 4 4); (sq 1 5, sq 2 5); (sq 7 3, sq 3 7) ]).

(** 1.e4 a6 2.Bc4 a5 3.Nf3 a4 4.Bxf7+: Black's only legal move is
    Kxf7, after which White may castle on the king's side. *)
Definition bishopCheckGame : Heap * GameState :=
  snd (play newGame [ (sq 6 4, sq 4 4); (sq 1 0, sq 2 0);
                      (sq 7 5, sq 4 2); (sq 2 0, sq 3 0);
                      (sq 7 6, sq 5 5); (sq 3 0, sq 4 0);
                      (sq 4 2, sq 1 5) ]).

(** 1.e4 e5 2.Nf3 Nf6 3.Bc4 Bc5 4.d3: Black is to move and may castle
    on the king's side. *)
Definition italianGame : Heap * GameState :=
  snd (play newGame [ (sq 6 4, sq 4 4); (sq 1 4, sq 3 4);
                      (sq 7 6, sq 5 5); (sq 0 6, sq 2 5);
                      (sq 7 5, sq 4 2); (sq 0 5, sq 3 2);
                      (sq 6 3, sq 5 3) ]).

(** 1.Na3 Nc6 2.Nb5 Rb8 3.Nxa7 d6 4.a4 Bg4 5.a5 h6 6.a6 h5 7.axb7: Black
    is to move, a white pawn stands on b7 in front of the rook on b8. *)
Definition passedPawnGame : Heap * GameState :=
  snd (play newGame [ (sq 7 1, sq 5 0); (sq 0 1, sq 2 2);
                      (sq 5 0, sq 3 1); (sq 0 0, sq 0 1);
                      (sq 3 1, sq 1 0); (sq 1 3, sq 2 3);
                      (sq 6 0, sq 4 0); (sq 0 2, sq 4 6);
                      (sq 4 0, sq 3 0); (sq 1 7, sq 2 7);
                      (sq 3 0, sq 2 0); (sq 2 7, sq 3 7);
                      (sq 2 0, sq 1 1) ]).

(** ** The search over independently owned copies

    The two searches that follow are the ones of the specification's
    wording for the comparison with [minimax]: every branch works on a
    copy that it owns, so what a branch writes to the store is dropped
    when the branch returns.  [alphaBetaIsolated] keeps the cut-off of
    [minimax], [minimaxIsolated] explores every sibling. *)

Section Loops.

Variable A : Type.

(** The value of the position a move leads to, under the window it is
    searched with. *)
Variable child : A -> Num -> Num -> Num.

(** The maximizing loop of [minimax]. *)
Fixpoint maxLoop (moves : list A) (maxEval alpha beta : Num) : Num :=
  match moves with
  | [] => maxEval
  | move :: rest =>
    let eval_ := child move alpha beta in
    let maxEval := Num_max maxEval eval_ in
    let alpha := Num_max alpha eval_ in
    if Num_leb beta alpha then maxEval else maxLoop rest maxEval alpha beta
  end.

(** The minimizing loop of [minimax]. *)
Fixpoint minLoop (moves : list A) (minEval alpha beta : Num) : Num :=
  match moves with
  | [] => minEval
  | move :: rest =>
    let eval_ := child move alpha beta in
    let minEval := Num_min minEval eval_ in
    let beta := Num_min beta eval_ in
    if Num_leb beta alpha then minEval else minLoop rest minEval alpha beta
  end.

End Loops.

Fixpoint alphaBetaIsolated (depth : nat) (h : Heap) (game : GameState)
  (alpha beta : Num) (isMaximizing : bool) {struct depth} : Num :=
  let gameState := getGameState game in
  match depth with
  | O => Fin (evaluatePosition h (board gameState))
  | S depth' =>
    if isCheckmate gameState || isStalemate gameState
    then Fin (evaluatePosition h (board gameState))
    else
      let currentPlayer := if isMaximizing then black else white in
      let legalMoves := getAllLegalMoves h game currentPlayer in
      let below (move : Move) (a b : Num) : Num :=
        let copy := branch h game move in
        alphaBetaIsolated depth' (fst copy) (snd copy) a b
                          (negb isMaximizing) in
      if isMaximizing then maxLoop Move below legalMoves NegInf alpha beta
      else minLoop Move below legalMoves PosInf alpha beta
  end.

Fixpoint minimaxIsolated (depth : nat) (h : Heap) (game : GameState)
  (isMaximizing : bool) {struct depth} : Num :=
  let gameState := getGameState game in
  match depth with
  | O => Fin (evaluatePosition h (board gameState))
  | S depth' =>
    if isCheckmate gameState || isStalemate gameState
    then Fin (evaluatePosition h (board gameState))
    else
      let currentPlayer := if isMaximizing then black else white in
      let legalMoves := getAllLegalMoves h game currentPlayer in
      let below (move : Move) : Num :=
        let copy := branch h game move in
        minimaxIsolated depth' (fst copy) (snd copy) (negb isMaximizing) in
      if isMaximizing
      then fold_left (fun best move => Num_max best (below move))
                     legalMoves NegInf
      else fold_left (fun best move => Num_min best (below move))
                     legalMoves PosInf
  end.

(** [Math.max(alpha, Math.min(x, beta))]: a value as seen through a
    window. *)
Definition clamp (alpha beta x : Num) : Num := Num_max alpha (Num_min x beta).

(** A value [r] found under the window [(alpha, beta)] against the
    plain value [v]: an upper bound of [v] when at or below [alpha], a
    lower bound when at or above [beta], and [v] itself in between. *)
Definition withinWindow (alpha beta v r : Num) : Prop :=
  (Num_leb r alpha = true -> Num_leb v r = true)
  /\ (Num_leb beta r = true -> Num_leb r v = true)
  /\ (Num_leb r alpha = false -> Num_leb beta r = false -> r = v).


(** ** Notions used to state what the generators return *)

(** The square [i] steps away from [from] in direction [d]. *)
Definition offsetBy (from : Position) (d : Z * Z) (i : Z) : Position :=
  mkPos (row from + fst d * i) (col from + snd d * i).

(** A square a piece of colour [c] may land on: empty, or held by a
    piece of another colour. *)
Definition landing (h : Heap) (st : GameState) (c : Color) (pos : Position)
  : Prop :=
  cellAt (board st) pos = None
  \/ exists p, pieceAt h (board st) pos = Some p /\ color p <> c.

(** [pos] lies [i] steps from [from] in direction [d], between 1 and 7,
    every square passed on the way is on the grid and empty, and [pos]
    is on the grid and a landing square for colour [c]. *)
Definition slidesTo (h : Heap) (st : GameState) (c : Color)
  (from : Position) (d : Z * Z) (pos : Position) : Prop :=
  exists i, 1 <= i <= 7 /\ pos = offsetBy from d i
            /\ (forall j, 1 <= j <= i ->
                          isValidPosition (offsetBy from d j) = true)
            /\ (forall j, 1 <= j < i ->
                          cellAt (board st) (offsetBy from d j) = None)
            /\ landing h st c pos.

(** The integers [k], [k+1], ... ([n] of them). *)
Fixpoint countFrom (k : Z) (n : nat) : list Z :=
  match n with
  | O => []
  | S n' => k :: countFrom (k + 1) n'
  end.

(** One for an occupied cell, zero for an empty one, and the number of
    occupied cells of a row and of a grid. *)
Definition occ (o : option ref) : nat := if isNone o then 0%nat else 1%nat.

Definition occupiedCells (r : list (option ref)) : nat :=
  length (filter (fun cell => negb (isNone cell)) r).

Definition occupied (b : Board) : nat := occupiedCells (concat b).

(** 1.e4 a6 2.e5: Black is to move; after d7-d5 the white pawn on e5
    can take en passant on d6. *)
Definition enPassantGame : Heap * GameState :=
  snd (play newGame [ (sq 6 4, sq 4 4); (sq 1 0, sq 2 0);
                      (sq 4 4, sq 3 4) ]).

(** What a search leaves of the store it was given: the same [Piece]
    objects with their colours, each of its type or, for a pawn, a
    queen; the same rights objects, no flag set that was cleared; and
    every array that existed, with its contents. *)
Definition storeKept (h h' : Heap) : Prop :=
  length (pieces h') = length (pieces h)
  /\ (forall l p, deref h l = Some p ->
                  exists p', deref h' l = Some p' /\ color p' = color p
                             /\ (type p' = type p
                                 \/ (type p = pawn /\ type p' = queen)))
  /\ length (flagObjs h') = length (flagObjs h)
  /\ (forall l c, flagOf h l c = false -> flagOf h' l c = false)
  /\ (forall a, (a < length (arrays h))%nat ->
                nth_error (arrays h') a = nth_error (arrays h) a).

(** ** Notions used to state what the evaluation computes *)

(** The contribution of one square to [evaluatePosition]: the value of
    the piece on it, counted for Black and against White. *)
Definition contribution (h : Heap) (b : Board) (pos : Position) : Z :=
  match pieceAt h b pos with
  | Some p => match color p with
              | black => getPieceValue p pos
              | white => - getPieceValue p pos
              end
  | None => 0
  end.

Definition sumZ (l : list Z) : Z := fold_right Z.add 0 l.

(** The store in which every piece has the other colour. *)
Definition swapColors (h : Heap) : Heap :=
  mkHeap (map (fun p => mkPiece (type p) (opponent (color p))) (pieces h))
         (flagObjs h) (arrays h).

(** ** [App.tsx]

    The component holds one [ChessGame] and four state variables.  A
    handler runs against the values of the render it was created in
    and calls setters; it is modelled as a function from those values
    (and the store) to the values after it.  A call
    [setTimeout(() => makeAIMove(), 500)] is reported as a flag of the
    result; the body of the timer that [makeAIMove] sets is
    [aiMoveCallback]. *)

Module App.
Import String.

Record AppState := mkApp {
  store : Heap;
  game : GameState;
  gameState : GameState;
  selectedSquare : option Position;
  possibleMoves : list Position;
  isThinking : bool
}.

(** The initial values of the [useState] calls. *)
Definition initial : AppState :=
  let '(h, st) := newGame in
  mkApp h st (getGameState st) None [] false.

Definition handleSquareClick (a : AppState) (position : Position)
  : AppState * bool :=
  if Color_eqb (currentPlayer (gameState a)) black
     && negb (isCheckmate (gameState a)) && negb (isStalemate (gameState a))
  then (a, false)
  else
    match selectedSquare a with
    | Some selected =>
      if (row selected =? row position) && (col selected =? col position)
      then (mkApp (store a) (game a) (gameState a) None [] (isThinking a),
            false)
      else
        let '(moveSuccessful, (h, st)) :=
          makeMove (store a) (game a) selected position in
        if moveSuccessful then
          (mkApp h st (getGameState st) None [] (isThinking a),
           negb (isCheckmate (getGameState st))
           && negb (isStalemate (getGameState st)))
        else
          let newMoves := getPossibleMoves h st position in
          if negb (isNil newMoves)
          then (mkApp h st (gameState a) (Some position) newMoves
                      (isThinking a), false)
          else (mkApp h st (gameState a) None [] (isThinking a), false)
    | None =>
      let moves := getPossibleMoves (store a) (game a) position in
      if negb (isNil moves)
      then (mkApp (store a) (game a) (gameState a) (Some position) moves
                  (isThinking a), false)
      else (a, false)
    end.

(** The body of the timer set by [makeAIMove]. *)
Definition aiMoveCallback (a : AppState) : AppState :=
  let '(h, aiMove) := getBestMove (store a) (game a) in
  match aiMove with
  | Some m =>
      let '(h', st') := applyMove h (game a) m in
      mkApp h' st' (getGameState st') (selectedSquare a) (possibleMoves a)
            false
  | None =>
      mkApp h (game a) (gameState a) (selectedSquare a) (possibleMoves a)
            false
  end.

(** [resetGame]: [Object.assign(game, newGame)] makes the state object
    of a fresh [ChessGame] the state of [game]. *)
Definition resetGame (a : AppState) : AppState :=
  let '(h, st) := createInitialGameState (store a) in
  mkApp h st (getGameState st) None [] (isThinking a).

Definition getGameStatusMessage (a : AppState) : string :=
  if isCheckmate (gameState a) then
    match currentPlayer (gameState a) with
    | white => "Black wins by checkmate!"
    | black => "White wins by checkmate!"
    end
  else if isStalemate (gameState a) then "Game ends in stalemate!"
  else if isCheck (gameState a) then
    (match currentPlayer (gameState a) with
     | white => "White"
     | black => "Black"
     end ++ " is in check!")%string
  else "".

End App.

(** [getPieceSymbol] of [utils.ts]: the twelve chess glyphs, U+2654 to
    U+265F. *)
Module Glyphs.
Import String.

Definition getPieceSymbol (p : Piece) : string :=
  match color p, type p with
  | white, king => "♔" | white, queen => "♕" | white, rook => "♖"
  | white, bishop => "♗" | white, knight => "♘" | white, pawn => "♙"
  | black, king => "♚" | black, queen => "♛" | black, rook => "♜"
  | black, bishop => "♝" | black, knight => "♞" | black, pawn => "♟"
  end.

End Glyphs.

(** The grid [b] with every reference moved up by [n]. *)
Definition shiftBoard (n : nat) (b : Board) : Board :=
  map (map (option_map (fun l : ref => (n + l)%nat))) b.

(** The references a grid holds. *)
Definition refsOf (b : Board) : list ref :=
  flat_map (fun cell => match cell with Some l => [l] | None => [] end)
           (concat b).

(** No [Piece] object stands on two squares of the grid. *)
Definition onOneSquare (b : Board) : Prop :=
  forall pos1 pos2 l,
    cellAt b pos1 = Some l -> cellAt b pos2 = Some l -> pos1 = pos2.

(** The kings of a store are the two objects the constructor made. *)
Definition twoKings (h : Heap) : Prop :=
  forall l p, deref h l = Some p -> type p = king ->
              deref (fst newGame) l = Some p.
(** * Properties *)

(** ** Equality tests *)

Lemma PieceType_eqb_eq a b : PieceType_eqb a b = true <-> a = b.
Proof. destruct a, b; simpl; split; congruence. Qed.

Lemma Color_eqb_eq a b : Color_eqb a b = true <-> a = b.
Proof. destruct a, b; simpl; split; congruence. Qed.

Lemma Color_eqb_refl c : Color_eqb c c = true.
Proof. now destruct c. Qed.

Lemma Color_eqb_opponent c : Color_eqb (opponent c) c = false.
Proof. now destruct c. Qed.


(** ** Arrays and grids *)

Lemma nth_error_setNth_same {A} (a : list A) n v :
  (n < length a)%nat -> nth_error (setNth a n v) n = Some v.
Proof.
  revert n; induction a as [|x a IH]; intros [|n] Hn; simpl in *;
    try lia; auto.
  apply IH; lia.
Qed.

Lemma nth_error_setNth_other {A} (a : list A) n k v :
  n <> k -> nth_error (setNth a n v) k = nth_error a k.
Proof.
  revert n k; induction a as [|x a IH]; intros [|n] [|k] Hnk; simpl;
    try congruence; auto.
Qed.

Lemma length_setNth {A} (a : list A) n v : length (setNth a n v) = length a.
Proof.
  revert n; induction a as [|x a IH]; intros [|n]; simpl; auto.
Qed.

Lemma length_assign {A} (a : list A) i v : length (assign a i v) = length a.
Proof. unfold assign; destruct (i <? 0); auto using length_setNth. Qed.

Lemma index_Some_range {A} (a : list A) i x :
  index a i = Some x -> 0 <= i < Z.of_nat (length a).
Proof.
  unfold index; destruct (Z.ltb_spec i 0); try discriminate.
  intros E. assert (nth_error a (Z.to_nat i) <> None) as N by congruence.
  apply nth_error_Some in N. lia.
Qed.

Lemma index_in_range {A} (a : list A) i :
  0 <= i < Z.of_nat (length a) -> exists x, index a i = Some x.
Proof.
  intros Hi. unfold index. destruct (Z.ltb_spec i 0); try lia.
  destruct (nth_error a (Z.to_nat i)) eqn:E; eauto.
  apply nth_error_None in E. lia.
Qed.

Lemma index_assign_same {A} (a : list A) i v :
  0 <= i < Z.of_nat (length a) -> index (assign a i v) i = Some v.
Proof.
  intros Hi. unfold index, assign. destruct (Z.ltb_spec i 0); try lia.
  apply nth_error_setNth_same. lia.
Qed.

Lemma index_assign_other {A} (a : list A) i j v :
  i <> j -> index (assign a i v) j = index a j.
Proof.
  intros Hij. unfold index, assign.
  destruct (Z.ltb_spec i 0), (Z.ltb_spec j 0); auto.
  apply nth_error_setNth_other. lia.
Qed.

Lemma Forall_setNth {A} (P : A -> Prop) (a : list A) n v :
  Forall P a -> P v -> Forall P (setNth a n v).
Proof.
  intros Ha Hv; revert n; induction Ha; intros [|n]; simpl; auto.
Qed.

Lemma position_eta pos : mkPos (row pos) (col pos) = pos.
Proof. now destruct pos. Qed.

Lemma positionsEqual_eq p q : positionsEqual p q = true <-> p = q.
Proof.
  destruct p as [r c], q as [r' c']; unfold positionsEqual; simpl.
  rewrite andb_true_iff, !Z.eqb_eq. split.
  - intros [-> ->]; reflexivity.
  - intros E; injection E; auto.
Qed.

Lemma positionsEqual_refl p : positionsEqual p p = true.
Proof. now apply positionsEqual_eq. Qed.

Lemma existsb_positionsEqual (l : list Position) (q : Position) :
  existsb (fun pos => positionsEqual pos q) l = true <-> In q l.
Proof.
  rewrite existsb_exists. split.
  - intros (x & Hx & E). apply positionsEqual_eq in E. now subst.
  - intros Hq. exists q. split; auto using positionsEqual_refl.
Qed.

Lemma isValidPosition_range pos :
  isValidPosition pos = true <->
  0 <= row pos < 8 /\ 0 <= col pos < 8.
Proof.
  unfold isValidPosition.
  rewrite !andb_true_iff, !Z.leb_le, !Z.ltb_lt. lia.
Qed.

Lemma wfBoard_row b r line :
  wfBoard b -> index b r = Some line -> length line = 8%nat.
Proof.
  intros [_ Hrows] E. unfold index in E.
  destruct (r <? 0); try discriminate.
  apply nth_error_In in E. rewrite Forall_forall in Hrows. auto.
Qed.

Lemma cellAt_valid b pos l :
  wfBoard b -> cellAt b pos = Some l -> isValidPosition pos = true.
Proof.
  intros Hwf E. unfold cellAt in E.
  destruct (index b (row pos)) as [line|] eqn:Er; try discriminate.
  destruct (index line (col pos)) as [cell|] eqn:Ec; try discriminate.
  pose proof (wfBoard_row _ _ _ Hwf Er) as Hlen.
  apply index_Some_range in Er. apply index_Some_range in Ec.
  destruct Hwf as [Hb _]. apply isValidPosition_range. lia.
Qed.

Lemma wfBoard_setCell b pos v : wfBoard b -> wfBoard (setCell b pos v).
Proof.
  intros Hwf. unfold setCell.
  destruct (index b (row pos)) as [line|] eqn:Er; auto.
  pose proof (wfBoard_row _ _ _ Hwf Er) as Hlen.
  destruct Hwf as [Hb Hrows]. split.
  - now rewrite length_assign.
  - unfold assign at 1. destruct (row pos <? 0); auto.
    apply Forall_setNth; auto. now rewrite length_assign.
Qed.

Lemma cellAt_setCell_same b pos v :
  wfBoard b -> isValidPosition pos = true -> cellAt (setCell b pos v) pos = v.
Proof.
  intros Hwf Hv. apply isValidPosition_range in Hv.
  pose proof Hwf as [Hb _].
  destruct (index_in_range b (row pos)) as [line Er]; try lia.
  pose proof (wfBoard_row _ _ _ Hwf Er) as Hlen.
  unfold cellAt, setCell. rewrite Er.
  rewrite index_assign_same by lia.
  rewrite index_assign_same by lia. reflexivity.
Qed.

Lemma cellAt_setCell_other b pos pos' v :
  pos <> pos' -> cellAt (setCell b pos v) pos' = cellAt b pos'.
Proof.
  intros Hne. unfold cellAt, setCell.
  destruct (index b (row pos)) as [line|] eqn:Er; auto.
  destruct (Z.eq_dec (row pos) (row pos')) as [Er'|Er'].
  - rewrite <- Er'.
    destruct (index_Some_range _ _ _ Er) as [? ?].
    rewrite index_assign_same by lia. rewrite Er.
    rewrite index_assign_other; auto.
    intros Ec. apply Hne. destruct pos, pos'; simpl in *; congruence.
  - rewrite index_assign_other; auto.
Qed.

Lemma copyBoard_id b : copyBoard b = b.
Proof.
  unfold copyBoard. rewrite <- (map_id b) at 2. apply map_ext.
  intros r. apply map_id.
Qed.

Lemma In_allSquares pos : isValidPosition pos = true -> In pos allSquares.
Proof.
  intros Hv. apply isValidPosition_range in Hv.
  destruct pos as [r c]; simpl in Hv.
  assert (In r range8) as Hr by (unfold range8; simpl; lia).
  assert (In c range8) as Hc by (unfold range8; simpl; lia).
  unfold allSquares. apply in_flat_map. exists r. split; auto.
  apply in_map_iff. exists c. auto.
Qed.

(** ** Shape of the generated moves *)

Lemma ray_spec h st from dr dc stps pos :
  In pos (ray h st from dr dc stps) ->
  isValidPosition pos = true /\
  exists i, In i stps /\ pos = mkPos (row from + dr * i) (col from + dc * i).
Proof.
  induction stps as [|i rest IH]; simpl; [intros []|].
  destruct (isValidPosition (mkPos (row from + dr * i) (col from + dc * i)))
    eqn:Hv; simpl; [|intros []].
  destruct (cellAt _ _) as [l|].
  - destruct (isEnemyOfMover _ _ _ _); simpl; [|intros []].
    intros [<-|[]]. split; auto. exists i; auto.
  - intros [<-|Hin].
    + split; auto. exists i; auto.
    + destruct (IH Hin) as (Hp & j & Hj & E). split; auto. exists j; auto.
Qed.

Lemma jumps_spec h st from offsets pos :
  In pos (jumps h st from offsets) ->
  isValidPosition pos = true /\
  exists d, In d offsets /\ pos = mkPos (row from + fst d) (col from + snd d).
Proof.
  unfold jumps. rewrite in_flat_map. intros (d & Hd & Hin).
  destruct (isValidPosition (mkPos (row from + fst d) (col from + snd d)))
    eqn:Hv; [|destruct Hin].
  assert (pos = mkPos (row from + fst d) (col from + snd d)) as E.
  { destruct (cellAt _ _) as [l|].
    - destruct (isEnemyOfMover _ _ _ _); simpl in Hin; intuition.
    - simpl in Hin; intuition. }
  subst pos. split; auto. exists d; auto.
Qed.

(** A pawn's destinations: one step ahead on its file, two steps ahead
    on its file from the start row, or one step ahead on a neighbouring
    file onto an enemy piece or the en-passant target. *)
Lemma getPawnMoves_spec h st from c pos :
  In pos (getPawnMoves h st from c) ->
  isValidPosition pos = true /\
  ( (pos = mkPos (row from + direction c) (col from)
     /\ vacant st pos = true)
    \/ (pos = mkPos (row from + 2 * direction c) (col from)
        /\ row from = startRow c /\ vacant st pos = true)
    \/ (row pos = row from + direction c
        /\ (col pos = col from - 1 \/ col pos = col from + 1)
        /\ ((exists target, pieceAt h (board st) pos = Some target
                            /\ color target <> c)
            \/ enPassantTarget st = Some pos)) ).
Proof.
  unfold getPawnMoves.
  change (match c with white => -1 | black => 1 end) with (direction c).
  change (match c with white => 6 | black => 1 end) with (startRow c).
  rewrite in_app_iff. intros [Hf|Hc].
  - destruct (isValidPosition (mkPos (row from + direction c) (col from))
              && vacant st _) eqn:H1; [|destruct Hf].
    apply andb_true_iff in H1 as [Hv1 He1].
    destruct Hf as [<-|Hf]; [split; auto|].
    destruct (Z.eqb_spec (row from) (startRow c)) as [Hs|]; [|destruct Hf].
    destruct (isValidPosition (mkPos (row from + 2 * direction c) (col from))
              && vacant st _) eqn:H2; [|destruct Hf].
    apply andb_true_iff in H2 as [Hv2 He2].
    destruct Hf as [<-|[]]. split; auto.
  - apply in_flat_map in Hc as (q & Hq & Hin).
    destruct (isValidPosition q) eqn:Hv; [|destruct Hin].
    assert (pos = q) as ->.
    { apply in_app_iff in Hin as [Hin|Hin].
      - destruct (pieceAt h (board st) q) as [t|]; [|destruct Hin].
        destruct (negb _); simpl in Hin; intuition.
      - destruct (enPassantTarget st) as [e|]; [|destruct Hin].
        destruct (positionsEqual q e); simpl in Hin; intuition. }
    split; auto. right; right.
    assert (row q = row from + direction c
            /\ (col q = col from - 1 \/ col q = col from + 1)) as [Hr Hcq].
    { simpl in Hq. destruct Hq as [<-|[<-|[]]]; simpl; auto. }
    split; auto. split; auto.
    apply in_app_iff in Hin as [Hin|Hin].
    + left. destruct (pieceAt h (board st) q) as [t|]; [|destruct Hin].
      destruct (Color_eqb (color t) c) eqn:Ec; simpl in Hin; [destruct Hin|].
      exists t. split; auto. intros E. apply Color_eqb_eq in E. congruence.
    + right. destruct (enPassantTarget st) as [e|]; [|destruct Hin].
      destruct (positionsEqual q e) eqn:Eq; simpl in Hin; [|destruct Hin].
      apply positionsEqual_eq in Eq. now subst.
Qed.

Lemma castlingMoves_spec h st c r pos :
  In pos (castlingMoves h st c r) ->
  (pos = mkPos r 6
   /\ flagOf h (canCastleKingSide st) c = true
   /\ vacant st (mkPos r 5) = true /\ vacant st (mkPos r 6) = true)
  \/ (pos = mkPos r 2
      /\ flagOf h (canCastleQueenSide st) c = true
      /\ vacant st (mkPos r 3) = true /\ vacant st (mkPos r 2) = true
      /\ vacant st (mkPos r 1) = true).
Proof.
  unfold castlingMoves. rewrite in_app_iff. intros [H|H].
  - destruct (flagOf _ _ _ && _ && _) eqn:E; [|destruct H].
    apply andb_true_iff in E as [E E3]. apply andb_true_iff in E as [E1 E2].
    destruct H as [<-|[]]. left; auto.
  - destruct (flagOf _ _ _ && _ && _ && _) eqn:E; [|destruct H].
    apply andb_true_iff in E as [E E4]. apply andb_true_iff in E as [E E3].
    apply andb_true_iff in E as [E1 E2].
    destruct H as [<-|[]]. right; auto 6.
Qed.

(** A king's destinations: a neighbouring square, or a castling square
    from its home square (row [homeRow], column 4). *)
Lemma getKingMoves_spec h st from pos :
  In pos (getKingMoves h st from) ->
  (isValidPosition pos = true
   /\ Z.abs (row pos - row from) <= 1 /\ Z.abs (col pos - col from) <= 1
   /\ pos <> from)
  \/ (exists k, pieceAt h (board st) from = Some k
                /\ from = mkPos (homeRow (color k)) 4
                /\ In pos (castlingMoves h st (color k) (homeRow (color k)))).
Proof.
  unfold getKingMoves. rewrite in_app_iff. intros [H|H].
  - left. apply jumps_spec in H as (Hv & d & Hd & ->). split; auto.
    simpl in Hd.
    repeat (destruct Hd as [<-|Hd];
            [simpl; repeat split; try lia;
             intros E; destruct from; simpl in E; injection E; lia|]).
    destruct Hd.
  - right. destruct (pieceAt h (board st) from) as [k|]; simpl in H;
      [|destruct H].
    exists k. split; auto. destruct (color k); simpl.
    + destruct (Z.eqb_spec (row from) 7), (Z.eqb_spec (col from) 4);
        simpl in H; try destruct H.
      split; auto. destruct from; simpl in *; congruence.
    + destruct (Z.eqb_spec (row from) 0), (Z.eqb_spec (col from) 4);
        simpl in H; try destruct H.
      split; auto. destruct from; simpl in *; congruence.
Qed.

Lemma castlingMoves_valid h st c pos :
  In pos (castlingMoves h st c (homeRow c)) ->
  isValidPosition pos = true /\ pos <> mkPos (homeRow c) 4
  /\ row pos = homeRow c /\ Z.abs (col pos - 4) = 2.
Proof.
  intros H. apply castlingMoves_spec in H.
  destruct H as [(-> & _)|(-> & _)]; destruct c; simpl;
    repeat split; try reflexivity; discriminate.
Qed.

Lemma ray_moves_away h st from dr dc pos :
  (dr, dc) <> (0, 0) ->
  In pos (ray h st from dr dc steps) ->
  isValidPosition pos = true /\ pos <> from.
Proof.
  intros Hd H. apply ray_spec in H as (Hv & i & Hi & ->). split; auto.
  assert (1 <= i) as Hi1 by (unfold steps in Hi; simpl in Hi; lia).
  intros E. destruct from as [r c]; simpl in E. injection E as E1 E2.
  assert (dr = 0) by nia. assert (dc = 0) by nia. subst. now apply Hd.
Qed.

Lemma getRookMoves_valid h st from pos :
  In pos (getRookMoves h st from) -> isValidPosition pos = true /\ pos <> from.
Proof.
  unfold getRookMoves. rewrite in_flat_map. intros (d & Hd & H).
  simpl in Hd.
  repeat (destruct Hd as [<-|Hd];
          [apply ray_moves_away in H; [exact H|discriminate]|]).
  destruct Hd.
Qed.

Lemma getBishopMoves_valid h st from pos :
  In pos (getBishopMoves h st from) -> isValidPosition pos = true /\ pos <> from.
Proof.
  unfold getBishopMoves. rewrite in_flat_map. intros (d & Hd & H).
  simpl in Hd.
  repeat (destruct Hd as [<-|Hd];
          [apply ray_moves_away in H; [exact H|discriminate]|]).
  destruct Hd.
Qed.

Lemma getKnightMoves_valid h st from pos :
  In pos (getKnightMoves h st from) -> isValidPosition pos = true /\ pos <> from.
Proof.
  unfold getKnightMoves. intros H.
  apply jumps_spec in H as (Hv & d & Hd & ->). split; auto.
  simpl in Hd.
  repeat (destruct Hd as [<-|Hd];
          [intros E; destruct from; simpl in E; injection E; lia|]).
  destruct Hd.
Qed.

Lemma getPawnMoves_valid h st from c pos :
  In pos (getPawnMoves h st from c) -> isValidPosition pos = true /\ pos <> from.
Proof.
  intros H. apply getPawnMoves_spec in H as (Hv & H). split; auto.
  intros ->. destruct from as [r k]; simpl in H.
  destruct H as [(E & _)|[(E & _)|(E & _)]]; destruct c; simpl in E;
    try injection E; lia.
Qed.

Lemma getKingMoves_valid h st from pos :
  In pos (getKingMoves h st from) -> isValidPosition pos = true /\ pos <> from.
Proof.
  intros H. apply getKingMoves_spec in H.
  destruct H as [(Hv & _ & _ & Hne)|(k & _ & -> & H)]; auto.
  apply castlingMoves_valid in H. tauto.
Qed.

(** Every generated destination is a square of the grid other than the
    origin. *)
Lemma calculateLegalMoves_valid h st from p pos :
  In pos (calculateLegalMoves h st from p) ->
  isValidPosition pos = true /\ pos <> from.
Proof.
  unfold calculateLegalMoves, getQueenMoves. destruct (type p).
  - apply getPawnMoves_valid.
  - apply getRookMoves_valid.
  - apply getKnightMoves_valid.
  - apply getBishopMoves_valid.
  - rewrite in_app_iff.
    intros [H|H]; [eapply getRookMoves_valid|eapply getBishopMoves_valid];
      exact H.
  - apply getKingMoves_valid.
Qed.

(** [getPossibleMoves] answers for a piece of the side to move and
    keeps a subset of the generated destinations. *)
Lemma getPossibleMoves_spec h st from pos :
  In pos (getPossibleMoves h st from) ->
  exists l p, cellAt (board st) from = Some l /\ deref h l = Some p
              /\ color p = currentPlayer st
              /\ In pos (calculateLegalMoves h st from p)
              /\ isLegalMove h st (mkMove from pos l None false false None) = true.
Proof.
  unfold getPossibleMoves.
  destruct (cellAt (board st) from) as [l|] eqn:El; [|intros []].
  destruct (deref h l) as [p|] eqn:Ep; [|intros []].
  destruct (negb (Color_eqb (color p) (currentPlayer st))) eqn:Ec;
    [intros []|].
  rewrite filter_In. intros [Hin Hl]. exists l, p.
  apply negb_false_iff in Ec. apply Color_eqb_eq in Ec. auto.
Qed.

(** ** The steps of [makeMove] *)

Lemma pieces_clearFlag h l c : pieces (clearFlag h l c) = pieces h.
Proof. unfold clearFlag. now destruct (nth_error (flagObjs h) l). Qed.

Lemma arrays_clearFlag h l c : arrays (clearFlag h l c) = arrays h.
Proof. unfold clearFlag. now destruct (nth_error (flagObjs h) l). Qed.

Lemma pieces_pushMove h l m : pieces (pushMove h l m) = pieces h.
Proof. unfold pushMove. now destruct (nth_error (arrays h) l). Qed.

Lemma flagObjs_pushMove h l m : flagObjs (pushMove h l m) = flagObjs h.
Proof. unfold pushMove. now destruct (nth_error (arrays h) l). Qed.

Lemma flagObjs_setPieceType h l t : flagObjs (setPieceType h l t) = flagObjs h.
Proof. unfold setPieceType. now destruct (deref h l). Qed.

Lemma arrays_setPieceType h l t : arrays (setPieceType h l t) = arrays h.
Proof. unfold setPieceType. now destruct (deref h l). Qed.

Lemma deref_same_pieces h h' l : pieces h' = pieces h -> deref h' l = deref h l.
Proof. unfold deref. now intros ->. Qed.

Lemma isType_same_pieces h h' l t :
  pieces h' = pieces h -> isType h' l t = isType h l t.
Proof. unfold isType, typeOf. intros E. now rewrite (deref_same_pieces _ _ _ E). Qed.

Lemma colorOf_same_pieces h h' l :
  pieces h' = pieces h -> colorOf h' l = colorOf h l.
Proof. unfold colorOf. intros E. now rewrite (deref_same_pieces _ _ _ E). Qed.

Lemma pieces_updateCastlingRights h st m :
  pieces (updateCastlingRights h st m) = pieces h.
Proof.
  unfold updateCastlingRights.
  repeat match goal with
         | |- context [if ?b then _ else _] => destruct b
         | |- context [match ?o with Some _ => _ | None => _ end] => destruct o
         | |- context [match ?c with white => _ | black => _ end] => destruct c
         end; rewrite ?pieces_clearFlag; reflexivity.
Qed.

Lemma arrays_updateCastlingRights h st m :
  arrays (updateCastlingRights h st m) = arrays h.
Proof.
  unfold updateCastlingRights.
  repeat match goal with
         | |- context [if ?b then _ else _] => destruct b
         | |- context [match ?o with Some _ => _ | None => _ end] => destruct o
         | |- context [match ?c with white => _ | black => _ end] => destruct c
         end; rewrite ?arrays_clearFlag; reflexivity.
Qed.

Lemma deref_setPieceType_same h l t p :
  deref h l = Some p ->
  deref (setPieceType h l t) l = Some (mkPiece t (color p)).
Proof.
  intros E. unfold setPieceType. rewrite E. unfold deref in *. simpl.
  apply nth_error_setNth_same. apply nth_error_Some. congruence.
Qed.

Lemma deref_setPieceType_other h l k t :
  l <> k -> deref (setPieceType h l t) k = deref h k.
Proof.
  intros Hne. unfold setPieceType. destruct (deref h l); auto.
  unfold deref; simpl. now apply nth_error_setNth_other.
Qed.

(** The status update writes the three status fields only. *)
Lemma updateGameStatus_fields h st :
  let st' := updateGameStatus h st in
  board st' = board st /\ currentPlayer st' = currentPlayer st
  /\ moveHistory st' = moveHistory st
  /\ canCastleKingSide st' = canCastleKingSide st
  /\ canCastleQueenSide st' = canCastleQueenSide st
  /\ enPassantTarget st' = enPassantTarget st
  /\ isCheck st' = isInCheck h st (board st) (currentPlayer st).
Proof.
  unfold updateGameStatus.
  destruct (negb (hasLegalMoves h st (currentPlayer st)));
    [destruct (isInCheck h st (board st) (currentPlayer st)) eqn:E|];
    simpl; rewrite ?E; repeat split; reflexivity.
Qed.

Lemma updateEnPassantTarget_fields h st m :
  let st' := updateEnPassantTarget h st m in
  board st' = board st /\ currentPlayer st' = currentPlayer st
  /\ moveHistory st' = moveHistory st
  /\ canCastleKingSide st' = canCastleKingSide st
  /\ canCastleQueenSide st' = canCastleQueenSide st
  /\ isCheckmate st' = isCheckmate st /\ isStalemate st' = isStalemate st.
Proof.
  unfold updateEnPassantTarget.
  destruct (isType h (piece m) pawn && _); simpl; repeat split; reflexivity.
Qed.

Lemma wfBoard_specialBoard h st m :
  wfBoard (board st) -> wfBoard (specialBoard h st m).
Proof.
  intros Hwf. unfold specialBoard.
  assert (wfBoard (if isCastlingMove h m then relocateRook (board st) m
                   else board st)) as H1.
  { destruct (isCastlingMove h m); auto.
    unfold relocateRook. auto using wfBoard_setCell. }
  destruct (isEnPassantMove h st m); auto.
  unfold removePassedPawn. auto using wfBoard_setCell.
Qed.

Lemma handleSpecialMoves_eq h st m :
  handleSpecialMoves h st m =
  (promoted h m, setBoard st (specialBoard h st m), recorded h st m).
Proof. reflexivity. Qed.

(** Field by field, the state a successful [makeMove] leaves. *)
Lemma performMove_fields h st f t l :
  let m := candidate st f t l in
  let r := performMove h st f t l in
  board (snd r) = setCell (setCell (specialBoard h st m) t (Some l)) f None
  /\ currentPlayer (snd r) = opponent (currentPlayer st)
  /\ moveHistory (snd r) = moveHistory st
  /\ canCastleKingSide (snd r) = canCastleKingSide st
  /\ canCastleQueenSide (snd r) = canCastleQueenSide st
  /\ pieces (fst r) = pieces (promoted h m)
  /\ enPassantTarget (snd r) =
       (if isType (promoted h m) l pawn && (Z.abs (row t - row f) =? 2)
        then Some (mkPos ((row f + row t) / 2) (col f)) else None).
Proof.
  intros m r. subst r. unfold performMove. fold (candidate st f t l). fold m.
  rewrite handleSpecialMoves_eq.
  generalize (specialBoard h st m) (promoted h m). intros b2 h1.
  set (st2 := setBoard (setBoard st b2) _).
  set (h3 := updateCastlingRights _ st2 _).
  assert (pieces h3 = pieces h1) as Hp.
  { subst h3. now rewrite pieces_updateCastlingRights, pieces_pushMove. }
  set (st3 := updateEnPassantTarget h3 st2 _).
  set (st4 := setCurrentPlayer st3 _).
  pose proof (updateGameStatus_fields h3 st4) as Hs. cbv zeta in Hs.
  destruct Hs as (Hb & Hc & Hm & Hk & Hq & He & _).
  pose proof (updateEnPassantTarget_fields h3 st2 (recorded h st m)) as Hs.
  cbv zeta in Hs. fold st3 in Hs.
  destruct Hs as (Hb' & Hc' & Hm' & Hk' & Hq' & _).
  cbn [fst snd]. rewrite Hb, Hc, Hm, Hk, Hq, He.
  subst st4. cbn [board currentPlayer moveHistory canCastleKingSide
                   canCastleQueenSide enPassantTarget setCurrentPlayer].
  rewrite Hb', Hc', Hm', Hk', Hq'.
  repeat split; auto.
  subst st3. unfold updateEnPassantTarget.
  rewrite (isType_same_pieces _ _ _ _ Hp).
  cbn [recorded piece from to m candidate].
  destruct (isType h1 l pawn && _); reflexivity.
Qed.

(** ** The two outcomes of [makeMove] *)

Lemma makeMove_true h st f t s :
  makeMove h st f t = (true, s) ->
  exists l p, cellAt (board st) f = Some l /\ deref h l = Some p
              /\ color p = currentPlayer st
              /\ In t (getPossibleMoves h st f)
              /\ s = performMove h st f t l.
Proof.
  unfold makeMove.
  destruct (cellAt (board st) f) as [l|] eqn:El; [|discriminate].
  destruct (deref h l) as [p|] eqn:Ep; [|discriminate].
  destruct (negb (Color_eqb (color p) (currentPlayer st))) eqn:Ec;
    [discriminate|].
  destruct (negb (existsb _ _)) eqn:Ex; [discriminate|].
  intros E. injection E as <-. exists l, p.
  apply negb_false_iff in Ec, Ex. apply Color_eqb_eq in Ec.
  apply existsb_positionsEqual in Ex. auto 6.
Qed.

Lemma makeMove_false h st f t s :
  makeMove h st f t = (false, s) -> s = (h, st).
Proof.
  unfold makeMove.
  destruct (cellAt (board st) f) as [l|]; [|congruence].
  destruct (deref h l) as [p|]; [|congruence].
  destruct (negb (Color_eqb (color p) (currentPlayer st))); [congruence|].
  destruct (negb (existsb _ _)); congruence.
Qed.

Lemma makeMove_accepts h st f t l p :
  cellAt (board st) f = Some l -> deref h l = Some p ->
  color p = currentPlayer st -> In t (getPossibleMoves h st f) ->
  makeMove h st f t = (true, performMove h st f t l).
Proof.
  intros El Ep Ec Hin. unfold makeMove. rewrite El, Ep, Ec.
  rewrite Color_eqb_refl. simpl.
  apply existsb_positionsEqual in Hin. now rewrite Hin.
Qed.

Lemma pieceAt_Some h b pos p :
  pieceAt h b pos = Some p ->
  exists l, cellAt b pos = Some l /\ deref h l = Some p.
Proof.
  unfold pieceAt. destruct (cellAt b pos) as [l|]; [|discriminate]. eauto.
Qed.

(** What a legal destination is, for a grid of the right shape. *)
Lemma legal_destination h st f t l p :
  wfBoard (board st) ->
  cellAt (board st) f = Some l -> deref h l = Some p ->
  In t (getPossibleMoves h st f) ->
  isValidPosition f = true /\ isValidPosition t = true /\ t <> f
  /\ In t (calculateLegalMoves h st f p).
Proof.
  intros Hwf El Ep Hin.
  apply getPossibleMoves_spec in Hin as (l' & p' & El' & Ep' & _ & Hin & _).
  rewrite El in El'. injection El' as <-.
  rewrite Ep in Ep'. injection Ep' as <-.
  destruct (calculateLegalMoves_valid _ _ _ _ _ Hin).
  eauto using cellAt_valid.
Qed.

(** After a successful call the origin is empty and the destination
    holds the moved object. *)
Lemma performMove_squares h st f t l :
  wfBoard (board st) ->
  isValidPosition f = true -> isValidPosition t = true -> t <> f ->
  let b' := board (snd (performMove h st f t l)) in
  cellAt b' f = None /\ cellAt b' t = Some l /\ wfBoard b'.
Proof.
  intros Hwf Hf Ht Hne b'. subst b'.
  destruct (performMove_fields h st f t l) as (-> & _).
  pose proof (wfBoard_specialBoard h st (candidate st f t l) Hwf) as Hw2.
  repeat split.
  - apply cellAt_setCell_same; auto using wfBoard_setCell.
  - rewrite cellAt_setCell_other by congruence.
    now apply cellAt_setCell_same.
  - apply wfBoard_setCell; auto using wfBoard_setCell.
  - apply wfBoard_setCell; auto using wfBoard_setCell.
Qed.

Lemma isType_true h l t p :
  deref h l = Some p -> isType h l t = PieceType_eqb (type p) t.
Proof. intros E. unfold isType, typeOf. now rewrite E. Qed.

(** A pawn moves strictly forward, so the far edge it can reach is the
    final rank of its colour. *)
Lemma pawn_edge h st f t p :
  isValidPosition f = true -> type p = pawn ->
  In t (calculateLegalMoves h st f p) ->
  ((row t =? 0) || (row t =? 7)) = (row t =? finalRank (color p))
  /\ Z.abs (row t - row f) <= 2
  /\ (Z.abs (row t - row f) = 2 ->
      t = mkPos (row f + 2 * direction (color p)) (col f)
      /\ row f = startRow (color p)
      /\ (row f + row t) / 2 = row f + direction (color p)
      /\ vacant st t = true).
Proof.
  intros Hf Hp Hin. unfold calculateLegalMoves in Hin. rewrite Hp in Hin.
  apply isValidPosition_range in Hf.
  apply getPawnMoves_spec in Hin as (Hv & Hin).
  apply isValidPosition_range in Hv.
  assert (row t = row f + direction (color p)
          \/ (row t = row f + 2 * direction (color p)
              /\ col t = col f /\ row f = startRow (color p)
              /\ vacant st t = true)) as Hrow.
  { destruct Hin as [(E & _)|[(E & Hs & Hvac)|(Hr & _)]]; auto.
    - left. now rewrite E.
    - right. rewrite E at 1 2. simpl. auto. }
  clear Hin.
  assert (((row t =? 0) || (row t =? 7)) = (row t =? finalRank (color p)))
    as Hedge.
  { destruct (color p); simpl in *;
      destruct (Z.eqb_spec (row t) 0), (Z.eqb_spec (row t) 7);
      simpl; try reflexivity; lia. }
  split; auto. split.
  - destruct (color p); simpl in *; lia.
  - intros Habs.
    destruct Hrow as [Hr|(Hr & Hc & Hs & Hvac)];
      [destruct (color p); simpl in *; lia|].
    repeat split; auto.
    + destruct t as [tr tc]; simpl in *. congruence.
    + rewrite Hr, Hs. now destruct (color p).
Qed.

(** ** The piece a move leaves on its destination *)

Lemma moved_piece h st f t h' st' l p :
  wfBoard (board st) ->
  cellAt (board st) f = Some l -> deref h l = Some p ->
  makeMove h st f t = (true, (h', st')) ->
  cellAt (board st') t = Some l
  /\ cellAt (board st') f = None
  /\ wfBoard (board st')
  /\ deref h' l =
     Some (mkPiece (if PieceType_eqb (type p) pawn
                       && (row t =? finalRank (color p))
                    then queen else type p) (color p))
  /\ (forall k, k <> l -> deref h' k = deref h k).
Proof.
  intros Hwf El Ep Hmv.
  apply makeMove_true in Hmv as (l' & p' & El' & Ep' & Ec & Hin & Hs).
  rewrite El in El'. injection El' as <-.
  rewrite Ep in Ep'. injection Ep' as <-.
  destruct (legal_destination _ _ _ _ _ _ Hwf El Ep Hin) as (Hf & Ht & Hne & Hg).
  destruct (performMove_squares h st f t l Hwf Hf Ht Hne) as (Hbf & Hbt & Hw).
  destruct (performMove_fields h st f t l) as (_ & _ & _ & _ & _ & Hp & _).
  rewrite <- Hs in Hbf, Hbt, Hw, Hp. simpl in Hbf, Hbt, Hw, Hp.
  split; [exact Hbt|]. split; [exact Hbf|]. split; [exact Hw|]. split.
  - rewrite (deref_same_pieces _ _ _ Hp). unfold promoted, isPromotionMove.
    cbn [candidate piece to]. rewrite (isType_true _ _ _ _ Ep).
    destruct (PieceType_eqb (type p) pawn) eqn:Et; simpl.
    + apply PieceType_eqb_eq in Et.
      destruct (pawn_edge _ _ _ _ _ Hf Et Hg) as (-> & _).
      destruct (row t =? finalRank (color p)).
      * now apply deref_setPieceType_same.
      * rewrite Ep. now destruct p.
    + rewrite Ep. now destruct p.
  - intros k Hk. rewrite (deref_same_pieces _ _ _ Hp). unfold promoted.
    destruct (isPromotionMove h _); auto.
    now apply deref_setPieceType_other.
Qed.

(** ** Invariants of the reachable states *)

Lemma wfBoard_newGame : wfBoard (board (snd newGame)).
Proof.
  unfold wfBoard. vm_compute. split; [reflexivity|]. repeat constructor.
Qed.

Lemma reachable_wfBoard s : reachable s -> wfBoard (board (snd s)).
Proof.
  induction 1 as [|h st f t h' st' _ IH Hmv]; [apply wfBoard_newGame|].
  simpl in *.
  pose proof Hmv as Hmv'.
  apply makeMove_true in Hmv' as (l & p & El & Ep & _).
  now destruct (moved_piece _ _ _ _ _ _ _ _ IH El Ep Hmv) as (_ & _ & Hw & _).
Qed.

Lemma cellAt_setCell_cases b pos v :
  cellAt (setCell b pos v) pos = v \/ cellAt (setCell b pos v) pos = None.
Proof.
  unfold setCell, cellAt.
  destruct (index b (row pos)) as [line|] eqn:Er; [|rewrite Er; auto].
  destruct (index_Some_range _ _ _ Er) as [? ?].
  rewrite index_assign_same by lia.
  destruct (index (assign line (col pos) v) (col pos)) as [c|] eqn:Ec; auto.
  pose proof (index_Some_range _ _ _ Ec) as Hr.
  rewrite length_assign in Hr.
  rewrite index_assign_same in Ec by lia. left. congruence.
Qed.

Lemma cellAt_setCell_origin b pos' pos v k :
  cellAt (setCell b pos' v) pos = Some k ->
  (pos' = pos /\ v = Some k) \/ cellAt b pos = Some k.
Proof.
  destruct (positionsEqual pos' pos) eqn:E1.
  - apply positionsEqual_eq in E1. subst pos'.
    destruct (cellAt_setCell_cases b pos v) as [->| ->]; [auto|discriminate].
  - assert (pos' <> pos) as Hne.
    { intros <-. now rewrite positionsEqual_refl in E1. }
    rewrite cellAt_setCell_other by auto. auto.
Qed.

Lemma setCell_None_origin b pos' pos k :
  cellAt (setCell b pos' None) pos = Some k -> cellAt b pos = Some k.
Proof.
  intros E. apply cellAt_setCell_origin in E as [[_ E]|E];
    [discriminate|exact E].
Qed.

Lemma relocateRook_origin b m pos k :
  cellAt (relocateRook b m) pos = Some k ->
  exists pos', row pos' = row pos /\ cellAt b pos' = Some k.
Proof.
  unfold relocateRook. intros E.
  apply setCell_None_origin in E.
  apply cellAt_setCell_origin in E as [[<- E]|E].
  - eexists. split; [|exact E]. reflexivity.
  - exists pos. auto.
Qed.

Lemma specialBoard_origin h st m pos k :
  cellAt (specialBoard h st m) pos = Some k ->
  exists pos', row pos' = row pos /\ cellAt (board st) pos' = Some k.
Proof.
  unfold specialBoard. intros E.
  assert (cellAt (if isCastlingMove h m then relocateRook (board st) m
                  else board st) pos = Some k) as E1.
  { destruct (isEnPassantMove h st m); auto.
    unfold removePassedPawn in E. now apply setCell_None_origin in E. }
  destruct (isCastlingMove h m); eauto using relocateRook_origin.
Qed.

Lemma noEdgePawn_step h st f t h' st' :
  wfBoard (board st) -> noEdgePawn h (board st) ->
  makeMove h st f t = (true, (h', st')) ->
  noEdgePawn h' (board st').
Proof.
  intros Hwf Hinv Hmv pos q Hq Hpawn.
  pose proof Hmv as Hmv'.
  apply makeMove_true in Hmv' as (l & p & El & Ep & Ec & Hin & Hs).
  destruct (legal_destination _ _ _ _ _ _ Hwf El Ep Hin) as (Hf & Ht & Hne & Hg).
  destruct (moved_piece _ _ _ _ _ _ _ _ Hwf El Ep Hmv)
    as (Hbt & Hbf & Hw & Hl & Hother).
  apply pieceAt_Some in Hq as (k & Hk & Hdk).
  destruct (positionsEqual pos t) eqn:Et.
  - apply positionsEqual_eq in Et. subst pos.
    rewrite Hbt in Hk. injection Hk as <-.
    rewrite Hl in Hdk. injection Hdk as <-. simpl in Hpawn.
    destruct (PieceType_eqb (type p) pawn) eqn:Etp; simpl in Hpawn.
    + apply PieceType_eqb_eq in Etp.
      destruct (pawn_edge _ _ _ _ _ Hf Etp Hg) as (He & _).
      destruct (Z.eqb_spec (row t) (finalRank (color p))); [discriminate|].
      destruct (Z.eqb_spec (row t) 0), (Z.eqb_spec (row t) 7);
        simpl in He; try discriminate; auto.
    + apply PieceType_eqb_eq in Hpawn. congruence.
  - assert (pos <> t) as Hpt.
    { intros ->. now rewrite positionsEqual_refl in Et. }
    destruct (performMove_fields h st f t l) as (Hb & _).
    rewrite <- Hs in Hb. simpl in Hb. rewrite Hb in Hk.
    apply setCell_None_origin in Hk.
    rewrite cellAt_setCell_other in Hk by congruence.
    apply specialBoard_origin in Hk as (pos' & Hrow & Hk).
    rewrite <- Hrow.
    destruct (Nat.eq_dec k l) as [->|Hkl].
    + rewrite Hl in Hdk. injection Hdk as <-. simpl in Hpawn.
      destruct (PieceType_eqb (type p) pawn && _) eqn:Ep'; [discriminate|].
      apply (Hinv pos' p); auto. unfold pieceAt. now rewrite Hk.
    + rewrite Hother in Hdk by auto.
      apply (Hinv pos' q); auto. unfold pieceAt. now rewrite Hk.
Qed.

Lemma noEdgePawn_newGame : noEdgePawn (fst newGame) (board (snd newGame)).
Proof.
  intros pos q Hq Hp.
  assert (In pos allSquares) as Hin.
  { apply In_allSquares. apply pieceAt_Some in Hq as (l & Hl & _).
    eapply cellAt_valid; eauto using wfBoard_newGame. }
  revert q Hq Hp.
  assert (forallb (fun pos =>
            match pieceAt (fst newGame) (board (snd newGame)) pos with
            | Some q => negb (PieceType_eqb (type q) pawn)
                        || (negb (row pos =? 0) && negb (row pos =? 7))
            | None => true
            end) allSquares = true) as Hall by (vm_compute; reflexivity).
  rewrite forallb_forall in Hall. specialize (Hall pos Hin).
  intros q Hq Hp. rewrite Hq in Hall.
  apply PieceType_eqb_eq in Hp. rewrite Hp in Hall. simpl in Hall.
  destruct (Z.eqb_spec (row pos) 0), (Z.eqb_spec (row pos) 7);
    simpl in Hall; try discriminate; auto.
Qed.

Lemma reachable_noEdgePawn s :
  reachable s -> noEdgePawn (fst s) (board (snd s)).
Proof.
  induction 1 as [|h st f t h' st' Hr IH Hmv]; [apply noEdgePawn_newGame|].
  simpl in *. eapply noEdgePawn_step; eauto.
  apply (reachable_wfBoard _ Hr).
Qed.

(** ** The status flags are not read by the rules *)

Lemma calculateLegalMoves_setStatus h st a b c f p :
  calculateLegalMoves h (setStatus st a b c) f p = calculateLegalMoves h st f p.
Proof. reflexivity. Qed.

Lemma isInCheck_setStatus h st a b c bd k :
  isInCheck h (setStatus st a b c) bd k = isInCheck h st bd k.
Proof. reflexivity. Qed.

Lemma getPossibleMoves_setStatus h st a b c f :
  getPossibleMoves h (setStatus st a b c) f = getPossibleMoves h st f.
Proof. reflexivity. Qed.

Lemma hasLegalMoves_setStatus h st a b c k :
  hasLegalMoves h (setStatus st a b c) k = hasLegalMoves h st k.
Proof. reflexivity. Qed.

Lemma getAllLegalMoves_setStatus h st a b c k :
  getAllLegalMoves h (setStatus st a b c) k = getAllLegalMoves h st k.
Proof. reflexivity. Qed.

Lemma updateGameStatus_shape h st :
  exists a b c, updateGameStatus h st = setStatus st a b c.
Proof.
  unfold updateGameStatus.
  destruct (negb (hasLegalMoves h st (currentPlayer st)));
    [destruct (isInCheck h st (board st) (currentPlayer st))|]; eauto.
Qed.

(** ** Terminal states *)

Lemma makeMove_true_hasLegalMoves h st f t s :
  wfBoard (board st) -> makeMove h st f t = (true, s) ->
  hasLegalMoves h st (currentPlayer st) = true.
Proof.
  intros Hwf Hmv.
  apply makeMove_true in Hmv as (l & p & El & Ep & Ec & Hin & _).
  unfold hasLegalMoves. apply existsb_exists. exists f. split.
  - apply In_allSquares. eapply cellAt_valid; eauto.
  - unfold pieceAt. rewrite El, Ep, Ec, Color_eqb_refl. simpl.
    destruct (getPossibleMoves h st f); [destruct Hin|reflexivity].
Qed.

Lemma no_legal_moves_rejects h st f t :
  wfBoard (board st) -> hasLegalMoves h st (currentPlayer st) = false ->
  makeMove h st f t = (false, (h, st)).
Proof.
  intros Hwf Hno.
  destruct (makeMove h st f t) as [[|] s] eqn:Hmv.
  - apply makeMove_true_hasLegalMoves in Hmv; auto. congruence.
  - apply makeMove_false in Hmv. now subst.
Qed.

Lemma performMove_status h st f t l :
  exists h3 st4,
    performMove h st f t l = (h3, updateGameStatus h3 st4)
    /\ isCheckmate st4 = isCheckmate st
    /\ isStalemate st4 = isStalemate st.
Proof.
  unfold performMove. rewrite handleSpecialMoves_eq.
  eexists. eexists. split; [reflexivity|].
  match goal with
  | |- context [updateEnPassantTarget ?h3 ?st2 ?m1] =>
      destruct (updateEnPassantTarget_fields h3 st2 m1)
        as (_ & _ & _ & _ & _ & Hm & Hs)
  end.
  cbn [isCheckmate isStalemate setCurrentPlayer].
  rewrite Hm, Hs. split; reflexivity.
Qed.

(** What the status update leaves in the two terminal flags when they
    were clear before. *)
Lemma updateGameStatus_terminal h st :
  isCheckmate st = false -> isStalemate st = false ->
  let st' := updateGameStatus h st in
  (isCheckmate st' = true \/ isStalemate st' = true <->
   hasLegalMoves h st' (currentPlayer st') = false)
  /\ ~ (isCheckmate st' = true /\ isStalemate st' = true).
Proof.
  intros Hm Hs st'. subst st'.
  destruct (updateGameStatus_shape h st) as (a & b & c & E).
  rewrite E at 3 4. rewrite hasLegalMoves_setStatus. cbn [currentPlayer setStatus].
  unfold updateGameStatus.
  destruct (hasLegalMoves h st (currentPlayer st)); simpl;
    [|destruct (isInCheck h st (board st) (currentPlayer st))]; simpl;
    rewrite ?Hm, ?Hs; intuition congruence.
Qed.

Lemma statusInv_newGame : statusInv newGame.
Proof.
  unfold statusInv.
  assert (isCheckmate (snd newGame) = false) as -> by reflexivity.
  assert (isStalemate (snd newGame) = false) as -> by reflexivity.
  assert (hasLegalMoves (fst newGame) (snd newGame)
                        (currentPlayer (snd newGame)) = true) as ->
      by (vm_compute; reflexivity).
  intuition congruence.
Qed.

Lemma reachable_statusInv s : reachable s -> statusInv s.
Proof.
  induction 1 as [|h st f t h' st' Hr IH Hmv]; [apply statusInv_newGame|].
  pose proof (reachable_wfBoard _ Hr) as Hwf. simpl in Hwf.
  pose proof (makeMove_true_hasLegalMoves _ _ _ _ _ Hwf Hmv) as Hlegal.
  destruct IH as (Hiff & _). simpl in Hiff.
  assert (isCheckmate st = false /\ isStalemate st = false) as [Hm Hs].
  { destruct (isCheckmate st), (isStalemate st); auto;
      exfalso; assert (true = false) by (rewrite <- Hlegal; apply Hiff; auto);
      discriminate. }
  apply makeMove_true in Hmv as (l & p & _ & _ & _ & _ & E).
  destruct (performMove_status h st f t l) as (h3 & st4 & E' & Hm4 & Hs4).
  rewrite E' in E. injection E as -> ->.
  unfold statusInv. cbn [fst snd].
  apply updateGameStatus_terminal; congruence.
Qed.

(** ** The store after a move *)

Lemma performMove_store h st f t l :
  let m := candidate st f t l in
  fst (performMove h st f t l) =
  updateCastlingRights
    (pushMove (promoted h m) (moveHistory st) (recorded h st m))
    st (recorded h st m).
Proof. reflexivity. Qed.

Lemma flagOf_clearFlag_same h l c : flagOf (clearFlag h l c) l c = false.
Proof.
  unfold flagOf, clearFlag.
  destruct (nth_error (flagObjs h) l) as [fl|] eqn:E; simpl.
  - rewrite nth_error_setNth_same
      by (apply nth_error_Some; congruence).
    now destruct c.
  - now rewrite E.
Qed.

Lemma flagOf_clearFlag_mono h l c l' c' :
  flagOf h l c = false -> flagOf (clearFlag h l' c') l c = false.
Proof.
  unfold flagOf, clearFlag. intros H.
  destruct (nth_error (flagObjs h) l') as [fl'|] eqn:E'; simpl; auto.
  destruct (Nat.eq_dec l' l) as [->|Hne].
  - rewrite E' in H.
    rewrite nth_error_setNth_same by (apply nth_error_Some; congruence).
    destruct c, c'; simpl; auto.
  - now rewrite nth_error_setNth_other by auto.
Qed.

Lemma flagOf_same_flagObjs h h' l c :
  flagObjs h' = flagObjs h -> flagOf h' l c = flagOf h l c.
Proof. unfold flagOf. now intros ->. Qed.

(** [updateCastlingRights] only ever clears. *)
Lemma updateCastlingRights_mono h st m l c :
  flagOf h l c = false -> flagOf (updateCastlingRights h st m) l c = false.
Proof.
  intros H. unfold updateCastlingRights.
  repeat match goal with
         | |- context [if ?b then _ else _] => destruct b
         | |- context [match ?o with Some _ => _ | None => _ end] => destruct o
         | |- context [match ?c with white => _ | black => _ end] => destruct c
         end; auto using flagOf_clearFlag_mono.
Qed.

(** A king's move clears both rights of its colour. *)
Lemma updateCastlingRights_king h st m k :
  deref h (piece m) = Some k -> type k = king ->
  flagOf (updateCastlingRights h st m) (canCastleKingSide st) (color k) = false
  /\ flagOf (updateCastlingRights h st m) (canCastleQueenSide st) (color k) = false.
Proof.
  intros Ek Hk. unfold updateCastlingRights.
  set (h1 := if isType h (piece m) king then _ else h).
  assert (flagOf h1 (canCastleKingSide st) (color k) = false
          /\ flagOf h1 (canCastleQueenSide st) (color k) = false) as [H1 H2].
  { subst h1. rewrite (isType_true _ _ king _ Ek), Hk. simpl.
    unfold colorOf. rewrite Ek. simpl.
    destruct (color k); split;
      auto using flagOf_clearFlag_mono, flagOf_clearFlag_same. }
  clearbody h1.
  repeat match goal with
         | |- context [if ?b then _ else _] => destruct b
         | |- context [match ?o with Some _ => _ | None => _ end] => destruct o
         | |- context [match ?c with white => _ | black => _ end] => destruct c
         end; auto using flagOf_clearFlag_mono.
Qed.

(** A call of [makeMove], accepted or not, never sets a right again. *)
Lemma makeMove_rights_mono h st f t b h' st' c :
  makeMove h st f t = (b, (h', st')) ->
  canCastleKingSide st' = canCastleKingSide st
  /\ canCastleQueenSide st' = canCastleQueenSide st
  /\ (forall l, flagOf h l c = false -> flagOf h' l c = false).
Proof.
  intros Hmv. destruct b.
  - apply makeMove_true in Hmv as (l & p & _ & _ & _ & _ & E).
    destruct (performMove_fields h st f t l) as (_ & _ & _ & Hk & Hq & _).
    pose proof (performMove_store h st f t l) as Hst. cbv zeta in Hst.
    rewrite <- E in Hk, Hq, Hst. simpl in Hk, Hq, Hst.
    repeat split; auto. intros r Hr. rewrite Hst.
    apply updateCastlingRights_mono.
    rewrite (flagOf_same_flagObjs h); auto.
    rewrite flagObjs_pushMove. unfold promoted.
    destruct (isPromotionMove h _); auto using flagObjs_setPieceType.
  - apply makeMove_false in Hmv. injection Hmv as -> ->. auto.
Qed.

(** ** Legal moves as a list and as a test *)

Lemma flat_map_nil {A B} (g : A -> list B) (l : list A) :
  flat_map g l = [] <-> forall x, In x l -> g x = [].
Proof.
  induction l as [|a l IH]; simpl; [intuition|].
  split.
  - intros E x [<-|Hx]; apply app_eq_nil in E as [E1 E2]; auto.
    now apply IH.
  - intros H. rewrite (H a) by auto. simpl. apply IH. auto.
Qed.

Lemma existsb_false {A} (g : A -> bool) (l : list A) :
  existsb g l = false <-> forall x, In x l -> g x = false.
Proof.
  induction l as [|a l IH]; simpl; [intuition|].
  rewrite orb_false_iff, IH. split.
  - intros [Ha Hl] x [<-|Hx]; auto.
  - intros H. split; auto.
Qed.

Lemma getAllLegalMoves_nil h st c :
  getAllLegalMoves h st c = [] <-> hasLegalMoves h st c = false.
Proof.
  unfold getAllLegalMoves, hasLegalMoves.
  rewrite flat_map_nil, existsb_false.
  split; intros H pos Hpos; specialize (H pos Hpos); unfold pieceAt in *;
    destruct (cellAt (board st) pos) as [l|]; auto;
    destruct (deref h l) as [p|]; auto;
    destruct (Color_eqb (color p) c); auto;
    destruct (getPossibleMoves h st pos); simpl in *; auto; discriminate.
Qed.

Lemma getBestMove_no_moves h st :
  getAllLegalMoves h st black = [] -> getBestMove h st = (h, None).
Proof. intros E. unfold getBestMove. now rewrite E. Qed.

(** A rook's move from a corner of its home row clears the right of
    that side. *)
Lemma updateCastlingRights_rook h st m p :
  deref h (piece m) = Some p -> type p = rook ->
  row (from m) = homeRow (color p) ->
  (col (from m) = 7 ->
   flagOf (updateCastlingRights h st m) (canCastleKingSide st) (color p) = false)
  /\ (col (from m) = 0 ->
      flagOf (updateCastlingRights h st m) (canCastleQueenSide st) (color p)
      = false).
Proof.
  intros Ep Hp Hrow. unfold updateCastlingRights.
  rewrite (isType_true _ _ king _ Ep), Hp. simpl.
  rewrite (isType_true _ _ rook _ Ep), Hp. simpl.
  unfold colorOf. rewrite Ep. simpl.
  destruct (color p); simpl in Hrow; rewrite Hrow; simpl; split; intros ->;
    simpl; auto using flagOf_clearFlag_same.
Qed.

(** ** The remaining fields after a move *)

Lemma arrays_promoted h m : arrays (promoted h m) = arrays h.
Proof.
  unfold promoted. destruct (isPromotionMove h m); auto using arrays_setPieceType.
Qed.

Lemma historyOf_pushMove h st m :
  (moveHistory st < length (arrays h))%nat ->
  nth_error (arrays (pushMove h (moveHistory st) m)) (moveHistory st)
  = Some (historyOf h st ++ [m]).
Proof.
  intros Hlt. unfold pushMove, historyOf.
  destruct (nth_error (arrays h) (moveHistory st)) as [a|] eqn:E.
  - simpl. now apply nth_error_setNth_same.
  - apply nth_error_None in E. lia.
Qed.

Lemma performMove_history h st f t l :
  (moveHistory st < length (arrays h))%nat ->
  let r := performMove h st f t l in
  historyOf (fst r) (snd r)
  = historyOf h st ++ [recorded h st (candidate st f t l)].
Proof.
  intros Hlt r. subst r.
  destruct (performMove_fields h st f t l) as (_ & _ & Hm & _).
  unfold historyOf at 1. rewrite Hm, performMove_store.
  rewrite arrays_updateCastlingRights.
  assert (moveHistory st < length (arrays (promoted h (candidate st f t l))))%nat
    as Hlt' by now rewrite arrays_promoted.
  pose proof (historyOf_pushMove (promoted h (candidate st f t l)) st
                (recorded h st (candidate st f t l)) Hlt') as E.
  rewrite E. unfold historyOf. now rewrite arrays_promoted.
Qed.

Lemma updateGameStatus_reads h st :
  (forall bd k, isInCheck h (updateGameStatus h st) bd k = isInCheck h st bd k)
  /\ (forall k, hasLegalMoves h (updateGameStatus h st) k = hasLegalMoves h st k)
  /\ (forall k, getAllLegalMoves h (updateGameStatus h st) k
                = getAllLegalMoves h st k).
Proof.
  destruct (updateGameStatus_shape h st) as (a & b & c & ->).
  split; [|split]; intros.
  - apply isInCheck_setStatus.
  - apply hasLegalMoves_setStatus.
  - apply getAllLegalMoves_setStatus.
Qed.

Lemma updateGameStatus_sets h st :
  hasLegalMoves h st (currentPlayer st) = false ->
  isCheckmate (updateGameStatus h st) = true
  \/ isStalemate (updateGameStatus h st) = true.
Proof.
  intros Hno. unfold updateGameStatus. rewrite Hno. simpl.
  destruct (isInCheck h st (board st) (currentPlayer st)); simpl; auto.
Qed.

Lemma performMove_check h st f t l :
  let r := performMove h st f t l in
  isCheck (snd r)
  = isInCheck (fst r) (snd r) (board (snd r)) (currentPlayer (snd r))
  /\ (hasLegalMoves (fst r) (snd r) (currentPlayer (snd r)) = false ->
      isCheckmate (snd r) = true \/ isStalemate (snd r) = true).
Proof.
  intros r. subst r.
  destruct (performMove_status h st f t l) as (h3 & st4 & -> & _).
  cbn [fst snd].
  destruct (updateGameStatus_reads h3 st4) as (Hi & Hl & _).
  destruct (updateGameStatus_fields h3 st4) as (Hb & Hc & _ & _ & _ & _ & Hk).
  rewrite Hi, Hl, Hb, Hc. split; [exact Hk|].
  apply updateGameStatus_sets.
Qed.

(** The en-passant target after a move of the piece [p]: the square
    passed over when [p] is a pawn that advanced two rows, none
    otherwise. *)
Lemma performMove_enPassant h st f t l p :
  wfBoard (board st) ->
  cellAt (board st) f = Some l -> deref h l = Some p ->
  In t (getPossibleMoves h st f) ->
  enPassantTarget (snd (performMove h st f t l)) =
    (if PieceType_eqb (type p) pawn && (Z.abs (row t - row f) =? 2)
     then Some (mkPos ((row f + row t) / 2) (col f)) else None).
Proof.
  intros Hwf El Ep Hin.
  destruct (legal_destination _ _ _ _ _ _ Hwf El Ep Hin) as (Hf & Ht & Hne & Hg).
  destruct (performMove_fields h st f t l) as (_ & _ & _ & _ & _ & _ & ->).
  assert (isType (promoted h (candidate st f t l)) l pawn
            && (Z.abs (row t - row f) =? 2)
          = PieceType_eqb (type p) pawn && (Z.abs (row t - row f) =? 2)) as ->;
    [|reflexivity].
  unfold promoted, isPromotionMove. cbn [candidate piece to].
  rewrite (isType_true _ _ _ _ Ep).
  destruct (PieceType_eqb (type p) pawn) eqn:Et; simpl.
  - apply PieceType_eqb_eq in Et.
    destruct (pawn_edge _ _ _ _ _ Hf Et Hg) as (-> & _ & H2).
    destruct (Z.eqb_spec (Z.abs (row t - row f)) 2) as [Habs|];
      [|now rewrite andb_false_r].
    destruct (H2 Habs) as (_ & Hs & Hmid & _).
    assert ((row t =? finalRank (color p)) = false) as ->.
    { apply Z.eqb_neq. destruct (color p); simpl in *; lia. }
    now rewrite (isType_true _ _ _ _ Ep), Et.
  - now rewrite (isType_true _ _ _ _ Ep), Et.
Qed.

Lemma play_reachable s ms :
  reachable s -> forallb (fun b => b) (fst (play s ms)) = true ->
  reachable (snd (play s ms)).
Proof.
  revert s; induction ms as [|[f t] ms IH]; intros s Hs Hall; simpl in *; auto.
  apply andb_true_iff in Hall as [H1 H2].
  apply IH; auto.
  destruct s as [h st]. simpl in *.
  destruct (makeMove h st f t) as [b [h' st']] eqn:E. simpl in *. subst b.
  eapply reachable_move; eauto.
Qed.

(** ** The named games are reachable *)

Lemma reachable_pinGame : reachable pinGame.
Proof. apply play_reachable; [apply reachable_new|vm_compute; reflexivity]. Qed.

Lemma reachable_capturedRookGame : reachable capturedRookGame.
Proof. apply play_reachable; [apply reachable_new|vm_compute; reflexivity]. Qed.

Lemma reachable_castlingGame : reachable castlingGame.
Proof. apply play_reachable; [apply reachable_new|vm_compute; reflexivity]. Qed.

Lemma reachable_promotionGame : reachable promotionGame.
Proof. apply play_reachable; [apply reachable_new|vm_compute; reflexivity]. Qed.

Lemma reachable_queenCheckGame : reachable queenCheckGame.
Proof. apply play_reachable; [apply reachable_new|vm_compute; reflexivity]. Qed.

Lemma reachable_bishopCheckGame : reachable bishopCheckGame.
Proof. apply play_reachable; [apply reachable_new|vm_compute; reflexivity]. Qed.

Lemma reachable_italianGame : reachable italianGame.
Proof. apply play_reachable; [apply reachable_new|vm_compute; reflexivity]. Qed.

Lemma reachable_passedPawnGame : reachable passedPawnGame.
Proof. apply play_reachable; [apply reachable_new|vm_compute; reflexivity]. Qed.

Lemma reachable_wfState s : reachable s -> wfState (fst s) (snd s).
Proof.
  intros Hr. split; [apply (reachable_wfBoard _ Hr)|].
  induction Hr as [|h st f t h' st' Hr IH Hmv]; [vm_compute; lia|].
  simpl in *.
  apply makeMove_true in Hmv as (l & p & _ & _ & _ & _ & E).
  destruct (performMove_fields h st f t l) as (_ & _ & Hm & _).
  pose proof (performMove_store h st f t l) as Hst. cbv zeta in Hst.
  rewrite <- E in Hm, Hst. simpl in Hm, Hst.
  rewrite Hm, Hst, arrays_updateCastlingRights.
  unfold pushMove.
  destruct (nth_error (arrays (promoted h _)) (moveHistory st)) eqn:Ea;
    simpl; rewrite ?length_setNth, arrays_promoted; exact IH.
Qed.


(** ** The cut-off over independent copies *)

Lemma Num_max_Fin x y : Num_max (Fin x) (Fin y) = Fin (Z.max x y).
Proof.
  unfold Num_max, Num_leb. destruct (Z.leb_spec x y); f_equal; lia.
Qed.

Lemma Num_min_Fin x y : Num_min (Fin x) (Fin y) = Fin (Z.min x y).
Proof.
  unfold Num_min, Num_leb. destruct (Z.leb_spec x y); f_equal; lia.
Qed.

(** Case analysis on a few numbers: each is split, maxima and minima
    of integers are pushed to [Z], and linear arithmetic closes the
    case. *)
Ltac num_cases :=
  repeat match goal with x : Num |- _ => destruct x end;
  rewrite ?Num_max_Fin, ?Num_min_Fin in *;
  cbn [Num_max Num_min Num_leb] in *;
  rewrite ?Num_max_Fin, ?Num_min_Fin in *;
  cbn [Num_max Num_min Num_leb] in *;
  try discriminate; try reflexivity;
  repeat match goal with
         | H : Fin _ = Fin _ |- _ => injection H as H
         | H : (_ <=? _) = true |- _ => apply Z.leb_le in H
         | H : (_ <=? _) = false |- _ => apply Z.leb_gt in H
         end;
  try (apply Z.leb_le); try (apply Z.leb_gt); try (f_equal; lia); try lia.

Lemma Num_leb_refl a : Num_leb a a = true.
Proof. num_cases. Qed.

Lemma Num_leb_trans a b c :
  Num_leb a b = true -> Num_leb b c = true -> Num_leb a c = true.
Proof. intros. num_cases. Qed.

Lemma Num_leb_antisym a b :
  Num_leb a b = true -> Num_leb b a = true -> a = b.
Proof. intros. num_cases. Qed.

Lemma Num_leb_total a b : Num_leb a b = false -> Num_leb b a = true.
Proof. intros. num_cases. Qed.

Lemma Num_leb_lt_trans a b c :
  Num_leb a b = true -> Num_leb c b = false -> Num_leb c a = false.
Proof. intros. num_cases. Qed.

Lemma Num_lt_leb_trans a b c :
  Num_leb b a = false -> Num_leb b c = true -> Num_leb c a = false.
Proof. intros. num_cases. Qed.

Lemma Num_max_l a b : Num_leb b a = true -> Num_max a b = a.
Proof. intros. num_cases. Qed.

Lemma Num_max_r a b : Num_leb a b = true -> Num_max a b = b.
Proof. intros. num_cases. Qed.

Lemma Num_min_l a b : Num_leb a b = true -> Num_min a b = a.
Proof. intros. num_cases. Qed.

Lemma Num_min_r a b : Num_leb b a = true -> Num_min a b = b.
Proof. intros. num_cases. Qed.

Lemma Num_max_assoc a b c : Num_max (Num_max a b) c = Num_max a (Num_max b c).
Proof. num_cases. Qed.

Lemma Num_min_assoc a b c : Num_min (Num_min a b) c = Num_min a (Num_min b c).
Proof. num_cases. Qed.

Lemma Num_max_lub a b c :
  Num_leb (Num_max a b) c = true <->
  Num_leb a c = true /\ Num_leb b c = true.
Proof. split; [intros H; split|intros [H1 H2]]; num_cases. Qed.

Lemma Num_min_glb a b c :
  Num_leb c (Num_min a b) = true <->
  Num_leb c a = true /\ Num_leb c b = true.
Proof. split; [intros H; split|intros [H1 H2]]; num_cases. Qed.

Lemma Num_max_mono a b c d :
  Num_leb a c = true -> Num_leb b d = true ->
  Num_leb (Num_max a b) (Num_max c d) = true.
Proof. intros. num_cases. Qed.

Lemma Num_min_mono a b c d :
  Num_leb a c = true -> Num_leb b d = true ->
  Num_leb (Num_min a b) (Num_min c d) = true.
Proof. intros. num_cases. Qed.

Lemma Num_max_le_fold {A} (g : A -> Num) (l : list A) (v : Num) :
  Num_leb v (fold_left (fun best m => Num_max best (g m)) l v) = true.
Proof.
  revert v; induction l as [|a l IH]; intros v; simpl.
  - apply Num_leb_refl.
  - eapply Num_leb_trans; [|apply IH].
    apply (proj1 (Num_max_lub v (g a) (Num_max v (g a)))), Num_leb_refl.
Qed.

Lemma Num_min_ge_fold {A} (g : A -> Num) (l : list A) (v : Num) :
  Num_leb (fold_left (fun best m => Num_min best (g m)) l v) v = true.
Proof.
  revert v; induction l as [|a l IH]; intros v; simpl.
  - apply Num_leb_refl.
  - eapply Num_leb_trans; [apply IH|].
    apply (proj1 (Num_min_glb v (g a) (Num_min v (g a)))), Num_leb_refl.
Qed.

Lemma max_cut_facts a0 b M r :
  Num_leb b (Num_max a0 M) = false ->
  Num_leb b (Num_max (Num_max a0 M) r) = true ->
  Num_max M r = r /\ Num_leb b r = true /\ Num_leb r a0 = false
  /\ Num_leb r (Num_max a0 M) = false.
Proof. intros. repeat split; num_cases. Qed.

Lemma max_low_facts a0 M r :
  Num_leb (Num_max M r) a0 = true ->
  Num_leb M a0 = true /\ Num_leb r a0 = true /\ Num_max a0 M = a0.
Proof. intros. repeat split; num_cases. Qed.

Lemma max_keep_facts a0 M r :
  Num_leb (Num_max M r) a0 = false ->
  Num_leb r (Num_max a0 M) = true ->
  Num_leb M a0 = false /\ Num_max M r = M /\ Num_leb r M = true.
Proof. intros. repeat split; num_cases. Qed.

Lemma max_raise_facts a0 b M r :
  Num_leb r (Num_max a0 M) = false ->
  Num_leb b (Num_max (Num_max a0 M) r) = false ->
  Num_leb b r = false /\ Num_max M r = r /\ Num_leb M r = true.
Proof. intros. repeat split; num_cases. Qed.

Lemma min_cut_facts a b0 M r :
  Num_leb (Num_min b0 M) a = false ->
  Num_leb (Num_min (Num_min b0 M) r) a = true ->
  Num_min M r = r /\ Num_leb r a = true /\ Num_leb b0 r = false
  /\ Num_leb (Num_min b0 M) r = false.
Proof. intros. repeat split; num_cases. Qed.

Lemma min_high_facts b0 M r :
  Num_leb b0 (Num_min M r) = true ->
  Num_leb b0 M = true /\ Num_leb b0 r = true /\ Num_min b0 M = b0.
Proof. intros. repeat split; num_cases. Qed.

Lemma min_keep_facts b0 M r :
  Num_leb b0 (Num_min M r) = false ->
  Num_leb (Num_min b0 M) r = true ->
  Num_leb b0 M = false /\ Num_min M r = M /\ Num_leb M r = true.
Proof. intros. repeat split; num_cases. Qed.

Lemma min_lower_facts a b0 M r :
  Num_leb (Num_min b0 M) r = false ->
  Num_leb (Num_min (Num_min b0 M) r) a = false ->
  Num_leb r a = false /\ Num_min M r = r /\ Num_leb r M = true.
Proof. intros. repeat split; num_cases. Qed.

Section LoopsAgree.

Variable A : Type.
Variable child : A -> Num -> Num -> Num.
Variable exact : A -> Num.

(** The maximizing loop against the plain maximum.  [M] and [V] are the
    two running maxima, [a0] the bound the loop was entered with. *)
Lemma maxLoop_withinWindow a0 b moves :
  (forall m a, In m moves -> Num_leb b a = false ->
               withinWindow a b (exact m) (child m a b)) ->
  forall M V,
    Num_leb b (Num_max a0 M) = false ->
    (Num_leb M a0 = true -> Num_leb V M = true) ->
    (Num_leb M a0 = false -> M = V) ->
    withinWindow a0 b
      (fold_left (fun best m => Num_max best (exact m)) moves V)
      (maxLoop A child moves M (Num_max a0 M) b).
Proof.
  induction moves as [|m rest IH]; intros Hchild M V Hopen Hlow Hin.
  - simpl. repeat split; auto.
    intros Hb. exfalso.
    assert (Num_leb b (Num_max a0 M) = true); [|congruence].
    eapply Num_leb_trans; [exact Hb|].
    apply (proj1 (Num_max_lub a0 M (Num_max a0 M))), Num_leb_refl.
  - simpl.
    pose proof (Hchild m (Num_max a0 M) (or_introl eq_refl) Hopen)
      as (Hc1 & Hc2 & Hc3).
    set (r := child m (Num_max a0 M) b) in *.
    set (v := exact m) in *.
    destruct (Num_leb b (Num_max (Num_max a0 M) r)) eqn:Hcut.
    + (* cut-off *)
      destruct (max_cut_facts _ _ _ _ Hopen Hcut) as (-> & Hbr & Hra & _).
      assert (Num_leb r (fold_left (fun best m0 => Num_max best (exact m0))
                                   rest (Num_max V v)) = true) as Hrw.
      { eapply Num_leb_trans; [apply (Hc2 Hbr)|].
        eapply Num_leb_trans; [|apply Num_max_le_fold].
        apply (proj1 (Num_max_lub V v (Num_max V v))), Num_leb_refl. }
      repeat split; auto; congruence.
    + (* the loop goes on *)
      rewrite Num_max_assoc in Hcut |- *.
      apply IH.
      * intros m' a Hm'. apply Hchild. now right.
      * exact Hcut.
      * intros Hle.
        destruct (max_low_facts _ _ _ Hle) as (HM & Hr & Ha).
        rewrite Ha in Hc1. apply Num_max_mono; auto.
      * intros Hgt.
        rewrite <- Num_max_assoc in Hcut.
        destruct (Num_leb r (Num_max a0 M)) eqn:Hr.
        -- destruct (max_keep_facts _ _ _ Hgt Hr) as (HM & -> & HrM).
           rewrite <- (Hin HM). symmetry. apply Num_max_l.
           eapply Num_leb_trans; [apply (Hc1 eq_refl)|exact HrM].
        -- destruct (max_raise_facts _ _ _ _ Hr Hcut) as (Hbr & -> & HMr).
           rewrite <- (Hc3 eq_refl Hbr). symmetry. apply Num_max_r.
           destruct (Num_leb M a0) eqn:HM.
           ++ eapply Num_leb_trans; [apply (Hlow eq_refl)|exact HMr].
           ++ now rewrite <- (Hin eq_refl).
Qed.

(** The minimizing loop against the plain minimum. *)
Lemma minLoop_withinWindow a b0 moves :
  (forall m b, In m moves -> Num_leb b a = false ->
               withinWindow a b (exact m) (child m a b)) ->
  forall M V,
    Num_leb (Num_min b0 M) a = false ->
    (Num_leb b0 M = true -> Num_leb M V = true) ->
    (Num_leb b0 M = false -> M = V) ->
    withinWindow a b0
      (fold_left (fun best m => Num_min best (exact m)) moves V)
      (minLoop A child moves M a (Num_min b0 M)).
Proof.
  induction moves as [|m rest IH]; intros Hchild M V Hopen Hhigh Hin.
  - simpl. repeat split; auto.
    intros Ha. exfalso.
    assert (Num_leb (Num_min b0 M) a = true); [|congruence].
    eapply Num_leb_trans; [|exact Ha].
    apply (proj1 (Num_min_glb b0 M (Num_min b0 M))), Num_leb_refl.
  - simpl.
    pose proof (Hchild m (Num_min b0 M) (or_introl eq_refl) Hopen)
      as (Hc1 & Hc2 & Hc3).
    set (r := child m a (Num_min b0 M)) in *.
    set (v := exact m) in *.
    destruct (Num_leb (Num_min (Num_min b0 M) r) a) eqn:Hcut.
    + (* cut-off *)
      destruct (min_cut_facts _ _ _ _ Hopen Hcut) as (-> & Hra & Hbr & _).
      assert (Num_leb (fold_left (fun best m0 => Num_min best (exact m0))
                                 rest (Num_min V v)) r = true) as Hrw.
      { eapply Num_leb_trans; [|apply (Hc1 Hra)].
        eapply Num_leb_trans; [apply Num_min_ge_fold|].
        apply (proj1 (Num_min_glb V v (Num_min V v))), Num_leb_refl. }
      repeat split; auto; congruence.
    + (* the loop goes on *)
      rewrite Num_min_assoc in Hcut |- *.
      apply IH.
      * intros m' b Hm'. apply Hchild. now right.
      * exact Hcut.
      * intros Hle.
        destruct (min_high_facts _ _ _ Hle) as (HM & Hr & Hb).
        rewrite Hb in Hc2. apply Num_min_mono; auto.
      * intros Hgt.
        rewrite <- Num_min_assoc in Hcut.
        destruct (Num_leb (Num_min b0 M) r) eqn:Hr.
        -- destruct (min_keep_facts _ _ _ Hgt Hr) as (HM & -> & HMr).
           rewrite <- (Hin HM). symmetry. apply Num_min_l.
           eapply Num_leb_trans; [exact HMr|apply (Hc2 eq_refl)].
        -- destruct (min_lower_facts _ _ _ _ Hr Hcut) as (Hra & -> & HrM).
           rewrite <- (Hc3 Hra eq_refl). symmetry. apply Num_min_r.
           destruct (Num_leb b0 M) eqn:HM.
           ++ eapply Num_leb_trans; [exact HrM|apply (Hhigh eq_refl)].
           ++ now rewrite <- (Hin eq_refl).
Qed.

End LoopsAgree.

Lemma withinWindow_refl a b v : withinWindow a b v v.
Proof. repeat split; auto using Num_leb_refl. Qed.

Lemma withinWindow_full v r : withinWindow NegInf PosInf v r -> r = v.
Proof.
  intros (H1 & H2 & H3). destruct r.
  - symmetry. apply Num_leb_antisym; [apply H1|]; reflexivity.
  - apply H3; reflexivity.
  - apply Num_leb_antisym; [apply H2; reflexivity|]. now destruct v.
Qed.

(** Over independent copies the search with the cut-off finds, under
    any open window, a value that agrees with plain minimax through
    that window. *)
Lemma alphaBetaIsolated_withinWindow depth :
  forall h game a b isMaximizing,
    Num_leb b a = false ->
    withinWindow a b (minimaxIsolated depth h game isMaximizing)
                 (alphaBetaIsolated depth h game a b isMaximizing).
Proof.
  induction depth as [|depth IH]; intros h game a b isMaximizing Hab.
  - apply withinWindow_refl.
  - cbn [alphaBetaIsolated minimaxIsolated].
    destruct (isCheckmate (getGameState game) || isStalemate (getGameState game));
      [apply withinWindow_refl|].
    destruct isMaximizing.
    + replace a with (Num_max a NegInf) at 2 by now destruct a.
      apply (maxLoop_withinWindow Move
               (fun move a' b' =>
                  alphaBetaIsolated depth (fst (branch h game move))
                                    (snd (branch h game move)) a' b' false)
               (fun move =>
                  minimaxIsolated depth (fst (branch h game move))
                                  (snd (branch h game move)) false)).
      * intros m a' _ Ha'. apply IH. exact Ha'.
      * now destruct a, b.
      * reflexivity.
      * discriminate.
    + replace b with (Num_min b PosInf) at 2 by now destruct b.
      apply (minLoop_withinWindow Move
               (fun move a' b' =>
                  alphaBetaIsolated depth (fst (branch h game move))
                                    (snd (branch h game move)) a' b' true)
               (fun move =>
                  minimaxIsolated depth (fst (branch h game move))
                                  (snd (branch h game move)) true)).
      * intros m b' _ Hb'. apply IH. exact Hb'.
      * now destruct a, b.
      * reflexivity.
      * intros H. now destruct b.
Qed.

(** With independently owned copies the cut-off does not change the
    value: from the full window, at every depth and on every position,
    the search with the cut-off returns the value of plain minimax. *)
Theorem alphaBetaIsolated_is_minimax depth h game isMaximizing :
  alphaBetaIsolated depth h game NegInf PosInf isMaximizing
  = minimaxIsolated depth h game isMaximizing.
Proof.
  apply withinWindow_full, alphaBetaIsolated_withinWindow. reflexivity.
Qed.

(** ** The exact effect of an accepted move *)

(** Clearing one flag of one rights object changes that flag and no
    other. *)
Lemma flagOf_clearFlag h l c l' c' :
  flagOf (clearFlag h l c) l' c'
  = flagOf h l' c' && negb ((l' =? l)%nat && Color_eqb c c').
Proof.
  unfold flagOf, clearFlag.
  destruct (Nat.eqb_spec l' l) as [->|Hne].
  - destruct (nth_error (flagObjs h) l) as [fl|] eqn:E; cbn [flagObjs].
    + rewrite nth_error_setNth_same by (apply nth_error_Some; congruence).
      destruct c, c', fl as [[|] [|]]; reflexivity.
    + rewrite E. reflexivity.
  - rewrite andb_true_r.
    destruct (nth_error (flagObjs h) l) as [fl|] eqn:E; cbn [flagObjs];
      [|reflexivity].
    rewrite nth_error_setNth_other by auto. reflexivity.
Qed.

(** [updateCastlingRights], flag by flag: the flag of colour [c] on the
    rights object [r] is cleared when the moved piece has colour [c]
    and [r] is the king-side (queen-side) object and the piece is a
    king, or a rook leaving column 7 (column 0) of its home row; every
    other flag of every rights object is as it was. *)
Lemma updateCastlingRights_exact h st m p r c :
  deref h (piece m) = Some p ->
  flagOf (updateCastlingRights h st m) r c
  = flagOf h r c
    && negb (Color_eqb (color p) c
             && (((r =? canCastleKingSide st)%nat
                  && (PieceType_eqb (type p) king
                      || PieceType_eqb (type p) rook
                         && (row (from m) =? homeRow (color p))
                         && (col (from m) =? 7)))
                 || ((r =? canCastleQueenSide st)%nat
                     && (PieceType_eqb (type p) king
                         || PieceType_eqb (type p) rook
                            && (row (from m) =? homeRow (color p))
                            && (col (from m) =? 0))))).
Proof.
  intros Ep. unfold updateCastlingRights.
  assert (forall h0, pieces h0 = pieces h ->
                     isType h0 (piece m) rook = PieceType_eqb (type p) rook
                     /\ colorOf h0 (piece m) = Some (color p)) as Hread.
  { intros h0 E.
    rewrite (isType_same_pieces _ _ _ _ E), (colorOf_same_pieces _ _ _ E).
    rewrite (isType_true _ _ _ _ Ep). unfold colorOf. now rewrite Ep. }
  rewrite (isType_true _ _ king _ Ep).
  assert (colorOf h (piece m) = Some (color p)) as ->
      by (unfold colorOf; now rewrite Ep).
  destruct (type p) eqn:Et; cbn [PieceType_eqb orb andb];
    try (destruct (Hread h eq_refl) as (-> & ->); cbn [PieceType_eqb]);
    rewrite ?andb_false_r, ?andb_true_r; try reflexivity.
  - (* rook *)
    destruct (color p); cbn [homeRow Color_eqb];
      destruct (row (from m) =? _), (col (from m) =? 0), (col (from m) =? 7);
      cbv zeta; rewrite ?flagOf_clearFlag;
      destruct (flagOf h r c), c,
               (r =? canCastleKingSide st)%nat,
               (r =? canCastleQueenSide st)%nat; reflexivity.
  - (* king *)
    destruct (color p);
      match goal with
      | |- context [isType ?h0 (piece m) rook] =>
          destruct (Hread h0 ltac:(now rewrite !pieces_clearFlag)) as (-> & _)
      end; cbn [PieceType_eqb Color_eqb];
      rewrite !flagOf_clearFlag;
      destruct c, (r =? canCastleKingSide st)%nat,
               (r =? canCastleQueenSide st)%nat;
      cbn [Color_eqb andb orb negb]; rewrite ?andb_true_r, ?andb_false_r;
      reflexivity.
Qed.

(** The moved object as [updateCastlingRights] reads it, and the rights
    objects as it finds them. *)
Lemma moved_object_before_rights h st f t l p :
  isValidPosition f = true ->
  deref h l = Some p -> In t (calculateLegalMoves h st f p) ->
  let m := candidate st f t l in
  let h2 := pushMove (promoted h m) (moveHistory st) (recorded h st m) in
  deref h2 l
  = Some (mkPiece (if PieceType_eqb (type p) pawn
                      && (row t =? finalRank (color p))
                   then queen else type p) (color p))
  /\ flagObjs h2 = flagObjs h.
Proof.
  intros Hf Ep Hg m h2. subst m h2. split.
  - rewrite (deref_same_pieces _ _ _ (pieces_pushMove _ _ _)).
    unfold promoted, isPromotionMove. cbn [candidate piece to].
    rewrite (isType_true _ _ _ _ Ep).
    destruct (PieceType_eqb (type p) pawn) eqn:Et; cbn [andb].
    + apply PieceType_eqb_eq in Et.
      destruct (pawn_edge _ _ _ _ _ Hf Et Hg) as (-> & _).
      destruct (row t =? finalRank (color p)).
      * now apply deref_setPieceType_same.
      * rewrite Ep. now destruct p.
    + rewrite Ep. now destruct p.
  - rewrite flagObjs_pushMove. unfold promoted.
    destruct (isPromotionMove h _); [apply flagObjs_setPieceType|reflexivity].
Qed.

(** The castling rights after an accepted move of the piece [p] from
    [f], flag by flag. *)
Lemma makeMove_rights_exact h st f t h' st' l p :
  wfBoard (board st) ->
  cellAt (board st) f = Some l -> deref h l = Some p ->
  makeMove h st f t = (true, (h', st')) ->
  forall r c,
    flagOf h' r c
    = flagOf h r c
      && negb (Color_eqb (color p) c
               && (((r =? canCastleKingSide st)%nat
                    && (PieceType_eqb (type p) king
                        || PieceType_eqb (type p) rook
                           && (row f =? homeRow (color p)) && (col f =? 7)))
                   || ((r =? canCastleQueenSide st)%nat
                       && (PieceType_eqb (type p) king
                           || PieceType_eqb (type p) rook
                              && (row f =? homeRow (color p))
                              && (col f =? 0))))).
Proof.
  intros Hwf El Ep Hmv r c.
  apply makeMove_true in Hmv as (l' & p' & El' & _ & _ & Hin & E).
  assert (l' = l) as -> by congruence.
  destruct (legal_destination _ _ _ _ _ _ Hwf El Ep Hin) as (Hf & _ & _ & Hg).
  destruct (moved_object_before_rights h st f t l p Hf Ep Hg) as (Hobj & Hfl).
  pose proof (performMove_store h st f t l) as Hst. cbv zeta in Hst.
  rewrite <- E in Hst. cbn [fst] in Hst. rewrite Hst.
  rewrite (updateCastlingRights_exact _ st
             (recorded h st (candidate st f t l)) _ r c Hobj).
  rewrite (flagOf_same_flagObjs _ _ _ _ Hfl).
  cbn [recorded candidate from type color].
  destruct (type p), (row t =? finalRank (color p)); reflexivity.
Qed.

(** The two terminal flags after [updateGameStatus]: each is set when
    the side to move has no legal move, checkmate when that side is in
    check and stalemate when it is not, and is otherwise as it was. *)
Lemma updateGameStatus_exact h st :
  let st' := updateGameStatus h st in
  isCheckmate st'
  = isCheckmate st
    || negb (hasLegalMoves h st (currentPlayer st))
       && isInCheck h st (board st) (currentPlayer st)
  /\ isStalemate st'
     = isStalemate st
       || negb (hasLegalMoves h st (currentPlayer st))
          && negb (isInCheck h st (board st) (currentPlayer st)).
Proof.
  cbv zeta. unfold updateGameStatus.
  destruct (hasLegalMoves h st (currentPlayer st));
    destruct (isInCheck h st (board st) (currentPlayer st));
    cbn [negb andb setStatus isCheckmate isStalemate];
    rewrite ?orb_false_r, ?orb_true_r; split; reflexivity.
Qed.

Lemma performMove_terminal h st f t l :
  let r := performMove h st f t l in
  isCheckmate (snd r)
  = isCheckmate st
    || negb (hasLegalMoves (fst r) (snd r) (currentPlayer (snd r)))
       && isCheck (snd r)
  /\ isStalemate (snd r)
     = isStalemate st
       || negb (hasLegalMoves (fst r) (snd r) (currentPlayer (snd r)))
          && negb (isCheck (snd r)).
Proof.
  intros r. subst r.
  destruct (performMove_status h st f t l) as (h3 & st4 & -> & Hm & Hs).
  cbn [fst snd].
  destruct (updateGameStatus_reads h3 st4) as (_ & Hl & _).
  destruct (updateGameStatus_fields h3 st4) as (_ & Hc & _ & _ & _ & _ & Hk).
  destruct (updateGameStatus_exact h3 st4) as (Em & Es).
  rewrite Hl, Hc, Hk, Em, Es, Hm, Hs. split; reflexivity.
Qed.

(** The squares of the two special moves: a king that moves two columns
    carries what stood on the rook's corner to the square it passes
    over and leaves the corner empty; a pawn that steps onto the
    en-passant target leaves the square behind it empty. *)
Lemma makeMove_special_squares h st f t h' st' l p :
  wfBoard (board st) ->
  cellAt (board st) f = Some l -> deref h l = Some p ->
  makeMove h st f t = (true, (h', st')) ->
  (type p = king -> Z.abs (col t - col f) = 2 ->
   cellAt (board st') (mkPos (row f) (if col t >? col f then 5 else 3))
   = cellAt (board st) (mkPos (row f) (if col t >? col f then 7 else 0))
   /\ cellAt (board st') (mkPos (row f) (if col t >? col f then 7 else 0))
      = None)
  /\ (type p = pawn -> enPassantTarget st = Some t ->
      cellAt (board st') (mkPos (row t - direction (color p)) (col t))
      = None).
Proof.
  intros Hwf El Ep Hmv.
  apply makeMove_true in Hmv as (l' & p' & El' & _ & _ & Hin & E).
  assert (l' = l) as -> by congruence.
  destruct (legal_destination _ _ _ _ _ _ Hwf El Ep Hin)
    as (Hf & Ht & Hne & Hg).
  destruct (performMove_fields h st f t l) as (Hb & _). cbv zeta in Hb.
  rewrite <- E in Hb. cbn [snd] in Hb.
  split.
  - intros Htype Habs.
    assert (specialBoard h st (candidate st f t l)
            = relocateRook (board st) (candidate st f t l)) as Hsb.
    { unfold specialBoard, isCastlingMove, isEnPassantMove.
      cbn [candidate piece from to].
      rewrite !(isType_true _ _ _ _ Ep), Htype. cbn [PieceType_eqb andb].
      apply Z.eqb_eq in Habs. now rewrite Habs. }
    assert (col f = 4 /\ (col t = 6 \/ col t = 2)) as (Hcf & Hct).
    { unfold calculateLegalMoves in Hg. rewrite Htype in Hg.
      apply getKingMoves_spec in Hg.
      destruct Hg as [(_ & _ & Hc & _)|(k' & _ & Hfk & Hc)]; [lia|].
      split; [rewrite Hfk; reflexivity|].
      apply castlingMoves_spec in Hc.
      destruct Hc as [(-> & _)|(-> & _)]; cbn [col]; auto. }
    set (corner := mkPos (row f) (if col t >? col f then 7 else 0)).
    set (passed := mkPos (row f) (if col t >? col f then 5 else 3)).
    assert (isValidPosition corner = true /\ isValidPosition passed = true
            /\ corner <> passed /\ corner <> t /\ corner <> f
            /\ passed <> t /\ passed <> f)
      as (Hvc & Hvp & H1 & H2 & H3 & H4 & H5).
    { apply isValidPosition_range in Hf.
      assert (forall k, 0 <= k < 8 -> isValidPosition (mkPos (row f) k) = true)
        as Hval.
      { intros k Hk. unfold isValidPosition. cbn [row col].
        repeat (apply andb_true_intro; split);
          first [apply Z.leb_le|apply Z.ltb_lt|apply Z.geb_le|idtac]; lia. }
      assert (forall q k, col q <> k -> mkPos (row f) k <> q) as Hdiff.
      { intros q k Hq C. apply Hq. rewrite <- C. reflexivity. }
      subst corner passed.
      destruct (col t >? col f);
        (split; [apply Hval; lia|]); (split; [apply Hval; lia|]);
        (split; [discriminate|]); repeat split; apply Hdiff; lia. }
    rewrite Hb, Hsb. unfold relocateRook. cbn [candidate from to].
    fold corner. fold passed. split.
    + rewrite (cellAt_setCell_other _ f) by congruence.
      rewrite (cellAt_setCell_other _ t) by congruence.
      rewrite cellAt_setCell_other by congruence.
      now apply cellAt_setCell_same.
    + rewrite (cellAt_setCell_other _ f) by congruence.
      rewrite (cellAt_setCell_other _ t) by congruence.
      apply cellAt_setCell_same; auto using wfBoard_setCell.
  - intros Htype Hep.
    set (behind := mkPos (row t - direction (color p)) (col t)).
    assert (behind <> t) as Hbt.
    { intros C. apply (f_equal row) in C. subst behind. cbn [row] in C.
      destruct (color p); cbn [direction] in C; lia. }
    rewrite Hb.
    destruct (positionsEqual f behind) eqn:Efb.
    + apply positionsEqual_eq in Efb. rewrite <- Efb.
      apply cellAt_setCell_same; auto.
      apply wfBoard_setCell, wfBoard_specialBoard, Hwf.
    + assert (f <> behind) as Hfb.
      { intros C. rewrite C, positionsEqual_refl in Efb. discriminate. }
      rewrite cellAt_setCell_other by exact Hfb.
      rewrite cellAt_setCell_other by congruence.
      unfold specialBoard, isCastlingMove, isEnPassantMove.
      cbn [candidate piece from to].
      rewrite !(isType_true _ _ _ _ Ep), Htype, Hep, positionsEqual_refl.
      cbn [PieceType_eqb andb].
      unfold removePassedPawn, colorOf. cbn [candidate piece to].
      rewrite Ep. cbn [option_map].
      assert (mkPos (match color p with
                     | white => row t + 1
                     | black => row t - 1
                     end) (col t) = behind) as ->.
      { subst behind. destruct (color p); cbn [direction]; f_equal; lia. }
      destruct (cellAt_setCell_cases (board st) behind None) as [C|C];
        exact C.
Qed.

(** Every square that is neither an end of the move nor one of its
    special squares holds what it held, and so does every [Piece]
    object other than the moved one. *)
Lemma makeMove_frame h st f t h' st' p :
  wfBoard (board st) ->
  pieceAt h (board st) f = Some p ->
  makeMove h st f t = (true, (h', st')) ->
  let castles := type p = king /\ Z.abs (col t - col f) = 2 in
  let corner := mkPos (row f) (if col t >? col f then 7 else 0) in
  let passed := mkPos (row f) (if col t >? col f then 5 else 3) in
  let takesEnPassant := type p = pawn /\ enPassantTarget st = Some t in
  let behind := mkPos (row t - direction (color p)) (col t) in
  (forall pos,
     pos <> f -> pos <> t ->
     (castles -> pos <> corner /\ pos <> passed) ->
     (takesEnPassant -> pos <> behind) ->
     cellAt (board st') pos = cellAt (board st) pos)
  /\ (forall l k, cellAt (board st) f = Some l -> k <> l ->
                  deref h' k = deref h k).
Proof.
  intros Hwf Hp Hmv castles corner passed takesEnPassant behind.
  apply pieceAt_Some in Hp as (l & Hl & Hpl).
  destruct (moved_piece _ _ _ _ _ _ _ _ Hwf Hl Hpl Hmv)
    as (_ & _ & _ & _ & Hothers).
  split; [|intros l' k Hl' Hk; apply Hothers; congruence].
  apply makeMove_true in Hmv as (l' & p' & Hl' & Hp' & _ & _ & E).
  assert (l' = l) as -> by congruence.
  destruct (performMove_fields h st f t l) as (Hb & _). cbv zeta in Hb.
  rewrite <- E in Hb. cbn [snd] in Hb.
  intros pos Hf Ht Hcast Hep. rewrite Hb.
  rewrite cellAt_setCell_other by congruence.
  rewrite cellAt_setCell_other by congruence.
  unfold specialBoard, isCastlingMove, isEnPassantMove.
  cbn [piece from to candidate].
  rewrite !(isType_true _ _ _ _ Hpl).
  assert (forall b, (if PieceType_eqb (type p) pawn
                        && match enPassantTarget st with
                           | Some ep => positionsEqual t ep
                           | None => false
                           end
                     then cellAt (removePassedPawn h b (candidate st f t l)) pos
                     else cellAt b pos) = cellAt b pos) as Hrm.
  { intros b.
    destruct (PieceType_eqb (type p) pawn) eqn:Et; [|reflexivity].
    apply PieceType_eqb_eq in Et.
    destruct (enPassantTarget st) as [ep|] eqn:Ee; [|reflexivity].
    destruct (positionsEqual t ep) eqn:Eq; [|reflexivity].
    apply positionsEqual_eq in Eq. subst ep. cbn [andb].
    unfold removePassedPawn, colorOf. cbn [piece to candidate].
    rewrite Hpl. cbn [option_map].
    apply cellAt_setCell_other. intros C. apply (Hep (conj Et eq_refl)).
    subst behind. rewrite <- C.
    destruct (color p); cbn [direction]; f_equal; lia. }
  match goal with
  | |- cellAt (if ?c then removePassedPawn h ?b ?m else ?b) pos = _ =>
      transitivity (if c then cellAt (removePassedPawn h b m) pos
                    else cellAt b pos);
        [destruct c; reflexivity|]
  end.
  rewrite Hrm.
  destruct (PieceType_eqb (type p) king) eqn:Ek; [|reflexivity].
  apply PieceType_eqb_eq in Ek.
  destruct (Z.abs (col t - col f) =? 2) eqn:Ea; [|reflexivity].
  apply Z.eqb_eq in Ea. cbn [andb].
  destruct (Hcast (conj Ek Ea)) as (Hc & Hps).
  unfold relocateRook. cbn [from to candidate].
  fold corner. fold passed.
  rewrite cellAt_setCell_other by congruence.
  rewrite cellAt_setCell_other by congruence. reflexivity.
Qed.

(** The record pushed on the history, field by field. *)
Lemma recorded_fields h st f t l p :
  isValidPosition f = true ->
  deref h l = Some p -> In t (calculateLegalMoves h st f p) ->
  recorded h st (candidate st f t l)
  = mkMove f t l (cellAt (board st) t)
           (PieceType_eqb (type p) pawn
            && match enPassantTarget st with
               | Some ep => positionsEqual t ep
               | None => false
               end)
           (PieceType_eqb (type p) king && (Z.abs (col t - col f) =? 2))
           (if PieceType_eqb (type p) pawn && (row t =? finalRank (color p))
            then Some queen else None).
Proof.
  intros Hf Ep Hg.
  unfold recorded, isEnPassantMove, isCastlingMove, isPromotionMove.
  cbn [candidate piece from to capturedPiece].
  rewrite !(isType_true _ _ _ _ Ep).
  destruct (PieceType_eqb (type p) pawn) eqn:Et; [|reflexivity].
  apply PieceType_eqb_eq in Et.
  destruct (pawn_edge _ _ _ _ _ Hf Et Hg) as (-> & _). reflexivity.
Qed.

(** The arrays of the store other than the history of the state are not
    written. *)
Lemma performMove_other_arrays h st f t l a :
  a <> moveHistory st ->
  nth_error (arrays (fst (performMove h st f t l))) a = nth_error (arrays h) a.
Proof.
  intros Ha. pose proof (performMove_store h st f t l) as Hst.
  cbv zeta in Hst. rewrite Hst, arrays_updateCastlingRights.
  rewrite <- (arrays_promoted h (candidate st f t l)).
  unfold pushMove.
  destruct (nth_error (arrays (promoted h (candidate st f t l)))
                      (moveHistory st)); [|reflexivity].
  cbn [arrays]. apply nth_error_setNth_other. congruence.
Qed.

(** * The claims *)

(** ** Check by evaluation *)

(** C9: the freshly constructed state has eight black pawns on row 1 and
    eight white pawns on row 6 (sixteen pawns in all), the back ranks
    rook-knight-bishop-queen-king-bishop-knight-rook on row 0 for Black
    and row 7 for White, White to move, the four castling rights set, no
    en-passant target, an empty history and the three status flags
    false. *)
Theorem initial_state_is_standard :
  let h := fst newGame in
  let st := snd newGame in
  viewBoard h (board st) =
    [ map (fun t => Some (mkPiece t black)) backRank;
      repeat (Some (mkPiece pawn black)) 8;
      repeat None 8; repeat None 8; repeat None 8; repeat None 8;
      repeat (Some (mkPiece pawn white)) 8;
      map (fun t => Some (mkPiece t white)) backRank ]
  /\ countPieces pawn white (viewBoard h (board st)) = 8%nat
  /\ countPieces pawn black (viewBoard h (board st)) = 8%nat
  /\ currentPlayer st = white
  /\ flagOf h (canCastleKingSide st) white = true
  /\ flagOf h (canCastleKingSide st) black = true
  /\ flagOf h (canCastleQueenSide st) white = true
  /\ flagOf h (canCastleQueenSide st) black = true
  /\ enPassantTarget st = None
  /\ historyOf h st = []
  /\ isCheck st = false /\ isCheckmate st = false /\ isStalemate st = false.
Proof. vm_compute. repeat split; reflexivity. Qed.

(** C1 fails on the code: after 1.d4 e6 2.Nc3 Bb4 (a reachable state,
    White to move and not in check) [getPossibleMoves] offers e4 to the
    knight on c3, [makeMove] accepts it, and in the state it leaves the
    white king is attacked.  The legality filter looks for the king on
    the simulated board but takes the attackers' moves from
    [this.state.board], where the knight still blocks the bishop. *)
Theorem pinned_knight_move_leaves_king_attacked :
  let h := fst pinGame in
  let st := snd pinGame in
  let r := makeMove h st (sq 5 2) (sq 4 4) in
  reachable pinGame
  /\ currentPlayer st = white
  /\ isInCheck h st (board st) white = false
  /\ existsb (positionsEqual (sq 4 4)) (getPossibleMoves h st (sq 5 2)) = true
  /\ fst r = true
  /\ isInCheck (fst (snd r)) (snd (snd r)) (board (snd (snd r))) white = true.
Proof.
  cbv zeta. split; [exact reachable_pinGame|].
  vm_compute. repeat split; reflexivity.
Qed.

(** C4 fails on the code: the snapshot of [getGameState] has its own
    grid but shares the history array, the rights objects and the
    [Piece] objects with the engine.  (a) A snapshot of the new game
    shows an empty history; after [makeMove] e2-e4 the same snapshot
    shows one move.  (b) A snapshot taken before b7xa8 shows a pawn on
    b7; after the engine's [makeMove] the same snapshot shows a queen
    there.  (c) A snapshot taken before Ke1-e2 shows White's
    king-side right set; afterwards it shows it cleared.  (d) Pushing
    onto the snapshot's history changes the engine's history.  (e) The
    copies that the search takes through [getGameState] are no more
    independent: after [minimax] on [italianGame], on which no move
    was made, Black's king-side right in the engine's own state is
    cleared. *)
Theorem snapshot_shares_objects_with_engine :
  (let h := fst newGame in
   let snapshot := getGameState (snd newGame) in
   let h' := fst (snd (makeMove h (snd newGame) (sq 6 4) (sq 4 4))) in
   historyOf h snapshot = []
   /\ length (historyOf h' snapshot) = 1%nat)
  /\ (let h := fst promotionGame in
      let snapshot := getGameState (snd promotionGame) in
      let r := makeMove h (snd promotionGame) (sq 1 1) (sq 0 0) in
      fst r = true
      /\ pieceAt h (board snapshot) (sq 1 1) = Some (mkPiece pawn white)
      /\ pieceAt (fst (snd r)) (board snapshot) (sq 1 1)
         = Some (mkPiece queen white))
  /\ (let h := fst castlingGame in
      let snapshot := getGameState (snd castlingGame) in
      let r := makeMove h (snd castlingGame) (sq 7 4) (sq 6 4) in
      fst r = true
      /\ flagOf h (canCastleKingSide snapshot) white = true
      /\ flagOf (fst (snd r)) (canCastleKingSide snapshot) white = false)
  /\ (let h := fst newGame in
      let snapshot := getGameState (snd newGame) in
      let m := mkMove (sq 6 4) (sq 4 4) 0%nat None false false None in
      historyOf (pushMove h (moveHistory snapshot) m) (snd newGame) = [m])
  /\ (let h := fst italianGame in
      let st := snd italianGame in
      flagOf h (canCastleKingSide st) black = true
      /\ flagOf (fst (minimax 2 h st NegInf PosInf true))
                (canCastleKingSide st) black = false).
Proof.
  cbv zeta.
  do 4 (split; [vm_compute; repeat split; reflexivity|]).
  split; [vm_compute; reflexivity|vm_cast_no_check (eq_refl false)].
Qed.

(** C5 fails on the code, on two states reached from the initial
    position with Black to move, at depth 2 and full window.
    (a) After 1.e4 e5 2.Nf3 Nf6 3.Bc4 Bc5 4.d3 the search with the
    cut-off returns [Infinity], while minimax over independently owned
    copies of the same position at the same depth returns 5: the king
    moves Kf8 and Ke7 explored first clear the rights object that every
    copy shares, the castling move generated before them is then
    refused in its copy, and the minimizing call below it finds no move
    for White while Black is still to move.
    (b) After 1.Na3 Nc6 2.Nb5 Rb8 3.Nxa7 d6 4.a4 Bg4 5.a5 h6 6.a6 h5
    7.axb7 the search with the cut-off returns -305 and the same search
    without the cut-off returns -525: only the latter explores a
    promotion of the pawn on b7, which turns the pawn object shared by
    every copy into a queen, so the root moves tried afterwards are
    valued against a queen on b7.  The pawn object is still a pawn
    after the search with the cut-off and a queen after the search
    without it. *)
Theorem pruned_search_differs_from_plain_minimax :
  (reachable italianGame
   /\ currentPlayer (snd italianGame) = black
   /\ snd (minimax 2 (fst italianGame) (snd italianGame) NegInf PosInf true)
      = PosInf
   /\ minimaxIsolated 2 (fst italianGame) (snd italianGame) true = Fin 5)
  /\ (let h := fst passedPawnGame in
      let st := snd passedPawnGame in
      let b7 := sq 1 1 in
      reachable passedPawnGame
      /\ currentPlayer st = black
      /\ option_map type (pieceAt h (board st) b7) = Some pawn
      /\ (let r := minimax 2 h st NegInf PosInf true in
          (snd r, option_map type (pieceAt (fst r) (board st) b7)))
         = (Fin (-305), Some pawn)
      /\ (let r := minimaxUnpruned 2 h st true in
          (snd r, option_map type (pieceAt (fst r) (board st) b7)))
         = (Fin (-525), Some queen)).
Proof.
  split.
  - split; [exact reachable_italianGame|].
    split; [vm_compute; reflexivity|].
    split; [vm_cast_no_check (eq_refl PosInf)|vm_cast_no_check (eq_refl (Fin 5))].
  - intros h st b7; subst h st b7.
    split; [exact reachable_passedPawnGame|].
    split; [vm_compute; reflexivity|].
    split; [vm_compute; reflexivity|].
    split; [vm_cast_no_check (eq_refl (Fin (-305), Some pawn))
           |vm_cast_no_check (eq_refl (Fin (-525), Some queen))].
Qed.

(** ** The state machine *)

(** C3: for a state whose grid is 8x8 and whose history array is in the
    store, and a square [f] of the grid, [makeMove f t] answers false
    and leaves store and state as they were when no piece stands on
    [f], when the piece is not of the side to move, or when [t] is not
    among [getPossibleMoves f]; a false answer never comes with a
    change; and when none of the three holds the answer is true and the
    state is updated in full by that one call:
    - the board: origin empty, the moved object on the destination;
      for a king that moves two columns, what stood on the rook's
      corner now on the square the king passed and the corner empty;
      for a pawn that steps onto the en-passant target, the square
      behind it empty; every other square as it was;
    - the pieces: the moved object is a queen when it was a pawn that
      reached its final rank and is otherwise as it was, every other
      [Piece] object is as it was;
    - the history: the same array, with one record appended, whose
      fields are the two squares, the moved object, what stood on the
      destination, and the en-passant, castling and promotion marks;
    - the side to move flipped and the en-passant target recomputed;
    - the castling rights: the same two rights objects, in which the
      flag of the mover's colour is cleared on both for a king, on the
      king-side (queen-side) one for a rook that leaves column 7
      (column 0) of its home row, and every other flag of every rights
      object is as it was;
    - the status: [isCheck] recomputed for the new side to move, and
      each terminal flag set when that side has no legal move,
      checkmate when it is in check and stalemate when it is not, and
      otherwise as it was;
    - no array of the store other than the history is written. *)
Theorem makeMove_rejects_unchanged_or_applies_in_full h st f t :
  wfState h st -> isValidPosition f = true ->
  ((pieceAt h (board st) f = None
    \/ (exists p, pieceAt h (board st) f = Some p
                  /\ color p <> currentPlayer st)
    \/ ~ In t (getPossibleMoves h st f)) ->
   makeMove h st f t = (false, (h, st)))
  /\ (forall s, makeMove h st f t = (false, s) -> s = (h, st))
  /\ (forall l p,
        cellAt (board st) f = Some l -> deref h l = Some p ->
        color p = currentPlayer st -> In t (getPossibleMoves h st f) ->
        exists h' st',
          makeMove h st f t = (true, (h', st'))
          /\ cellAt (board st') f = None
          /\ cellAt (board st') t = Some l
          /\ historyOf h' st'
             = historyOf h st ++ [recorded h st (candidate st f t l)]
          /\ currentPlayer st' = opponent (currentPlayer st)
          /\ enPassantTarget st'
             = (if PieceType_eqb (type p) pawn && (Z.abs (row t - row f) =? 2)
                then Some (mkPos ((row f + row t) / 2) (col f)) else None)
          /\ isCheck st'
             = isInCheck h' st' (board st') (currentPlayer st')
          /\ (hasLegalMoves h' st' (currentPlayer st') = false ->
              isCheckmate st' = true \/ isStalemate st' = true)
          (* the special squares and the rest of the board *)
          /\ (let corner := mkPos (row f) (if col t >? col f then 7 else 0) in
              let passed := mkPos (row f) (if col t >? col f then 5 else 3) in
              let behind := mkPos (row t - direction (color p)) (col t) in
              (type p = king -> Z.abs (col t - col f) = 2 ->
               cellAt (board st') passed = cellAt (board st) corner
               /\ cellAt (board st') corner = None)
              /\ (type p = pawn -> enPassantTarget st = Some t ->
                  cellAt (board st') behind = None)
              /\ (forall pos,
                    pos <> f -> pos <> t ->
                    (type p = king /\ Z.abs (col t - col f) = 2 ->
                     pos <> corner /\ pos <> passed) ->
                    (type p = pawn /\ enPassantTarget st = Some t ->
                     pos <> behind) ->
                    cellAt (board st') pos = cellAt (board st) pos))
          (* the Piece objects *)
          /\ deref h' l
             = Some (mkPiece (if PieceType_eqb (type p) pawn
                                 && (row t =? finalRank (color p))
                              then queen else type p) (color p))
          /\ (forall k, k <> l -> deref h' k = deref h k)
          (* the record pushed on the history *)
          /\ moveHistory st' = moveHistory st
          /\ recorded h st (candidate st f t l)
             = mkMove f t l (cellAt (board st) t)
                 (PieceType_eqb (type p) pawn
                  && match enPassantTarget st with
                     | Some ep => positionsEqual t ep
                     | None => false
                     end)
                 (PieceType_eqb (type p) king
                  && (Z.abs (col t - col f) =? 2))
                 (if PieceType_eqb (type p) pawn
                     && (row t =? finalRank (color p))
                  then Some queen else None)
          (* the castling rights *)
          /\ canCastleKingSide st' = canCastleKingSide st
          /\ canCastleQueenSide st' = canCastleQueenSide st
          /\ (forall r c,
                flagOf h' r c
                = flagOf h r c
                  && negb (Color_eqb (color p) c
                           && (((r =? canCastleKingSide st)%nat
                                && (PieceType_eqb (type p) king
                                    || PieceType_eqb (type p) rook
                                       && (row f =? homeRow (color p))
                                       && (col f =? 7)))
                               || ((r =? canCastleQueenSide st)%nat
                                   && (PieceType_eqb (type p) king
                                       || PieceType_eqb (type p) rook
                                          && (row f =? homeRow (color p))
                                          && (col f =? 0))))))
          (* the terminal flags *)
          /\ isCheckmate st'
             = isCheckmate st
               || negb (hasLegalMoves h' st' (currentPlayer st'))
                  && isCheck st'
          /\ isStalemate st'
             = isStalemate st
               || negb (hasLegalMoves h' st' (currentPlayer st'))
                  && negb (isCheck st')
          (* the other arrays of the store *)
          /\ (forall a, a <> moveHistory st ->
                        nth_error (arrays h') a = nth_error (arrays h) a)).
Proof.
  intros [Hwf Hhist] Hf. split; [|split].
  - intros Hrej. unfold makeMove, pieceAt in *.
    destruct (cellAt (board st) f) as [l|]; auto.
    destruct (deref h l) as [p|] eqn:Ep; auto.
    destruct Hrej as [Hn|[(q & Hq & Hc)|Hnot]]; [discriminate| |].
    + injection Hq as <-.
      destruct (Color_eqb (color p) (currentPlayer st)) eqn:Ec; auto.
      apply Color_eqb_eq in Ec. contradiction.
    + destruct (negb (Color_eqb (color p) (currentPlayer st))); auto.
      destruct (existsb _ _) eqn:Ex; auto.
      apply existsb_positionsEqual in Ex. contradiction.
  - apply makeMove_false.
  - intros l p El Ep Ec Hin.
    destruct (performMove h st f t l) as [h' st'] eqn:E.
    exists h', st'.
    pose proof (makeMove_accepts _ _ _ _ _ _ El Ep Ec Hin) as Hmv.
    rewrite E in Hmv.
    destruct (moved_piece _ _ _ _ _ _ _ _ Hwf El Ep Hmv)
      as (Ht & Hfn & _ & Hobj & Hothers).
    pose proof (performMove_history h st f t l Hhist) as Hh.
    destruct (performMove_fields h st f t l)
      as (_ & Hc & Hmh & Hks & Hqs & _).
    pose proof (performMove_enPassant _ _ _ _ _ _ Hwf El Ep Hin) as He.
    destruct (performMove_check h st f t l) as (Hk & Hterm).
    destruct (performMove_terminal h st f t l) as (Hmate & Hstale).
    cbv zeta in Hh.
    rewrite E in Hh, Hc, Hmh, Hks, Hqs, He, Hk, Hterm, Hmate, Hstale.
    cbn [fst snd] in Hh, Hc, Hmh, Hks, Hqs, He, Hk, Hterm, Hmate, Hstale.
    destruct (legal_destination _ _ _ _ _ _ Hwf El Ep Hin)
      as (_ & _ & _ & Hg).
    destruct (makeMove_special_squares _ _ _ _ _ _ _ _ Hwf El Ep Hmv)
      as (Hcastle & Hpassant).
    assert (pieceAt h (board st) f = Some p) as Hp
        by (unfold pieceAt; now rewrite El).
    destruct (makeMove_frame _ _ _ _ _ _ _ Hwf Hp Hmv) as (Hframe & _).
    pose proof (makeMove_rights_exact _ _ _ _ _ _ _ _ Hwf El Ep Hmv) as Hrights.
    pose proof (recorded_fields h st f t l p Hf Ep Hg) as Hrec.
    assert (forall a, a <> moveHistory st ->
                      nth_error (arrays h') a = nth_error (arrays h) a)
      as Harr.
    { intros a Ha. pose proof (performMove_other_arrays h st f t l a Ha) as C.
      rewrite E in C. exact C. }
    cbv zeta.
    repeat (split; [assumption|]).
    split; [exact (conj Hcastle (conj Hpassant Hframe))|].
    repeat (split; [assumption|]). assumption.
Qed.

Lemma makeMove_rejects_unchanged_or_applies_in_full_witness :
  (let h := fst newGame in
   let st := snd newGame in
   wfState h st /\ isValidPosition (sq 6 4) = true
   /\ makeMove h st (sq 6 4) (sq 3 4) = (false, (h, st))
   /\ makeMove h st (sq 1 4) (sq 2 4) = (false, (h, st))
   /\ exists h' st',
        makeMove h st (sq 6 4) (sq 4 4) = (true, (h', st'))
        /\ cellAt (board st') (sq 6 4) = None
        /\ currentPlayer st' = black
        /\ length (historyOf h' st') = 1%nat
        /\ enPassantTarget st' = Some (sq 5 4)
        /\ cellAt (board st') (sq 7 4) = cellAt (board st) (sq 7 4)
        /\ flagOf h' (canCastleKingSide st') white = true
        /\ isCheckmate st' = false)
  /\ (let h := fst castlingGame in
      let st := snd castlingGame in
      wfState h st
      /\ flagOf h (canCastleKingSide st) white = true
      /\ flagOf h (canCastleQueenSide st) white = true
      /\ exists h' st',
           makeMove h st (sq 7 4) (sq 7 6) = (true, (h', st'))
           /\ cellAt (board st') (sq 7 6) = cellAt (board st) (sq 7 4)
           /\ cellAt (board st') (sq 7 5) = cellAt (board st) (sq 7 7)
           /\ cellAt (board st') (sq 7 7) = None
           /\ flagOf h' (canCastleKingSide st') white = false
           /\ flagOf h' (canCastleQueenSide st') white = false
           /\ flagOf h' (canCastleKingSide st') black = true).
Proof.
  cbv zeta. split.
  - assert (wfState (fst newGame) (snd newGame)) as Hwf
      by (apply (reachable_wfState newGame), reachable_new).
    assert (isValidPosition (sq 6 4) = true) as Hv
        by (vm_compute; reflexivity).
    assert (isValidPosition (sq 1 4) = true) as Hv'
        by (vm_compute; reflexivity).
    split; [exact Hwf|]. split; [exact Hv|]. split; [|split].
    + apply (makeMove_rejects_unchanged_or_applies_in_full
               (fst newGame) (snd newGame) (sq 6 4) (sq 3 4) Hwf Hv).
      right; right. vm_compute. intuition discriminate.
    + apply (makeMove_rejects_unchanged_or_applies_in_full
               (fst newGame) (snd newGame) (sq 1 4) (sq 2 4) Hwf Hv').
      right; left. exists (mkPiece pawn black).
      split; [vm_compute; reflexivity|vm_compute; discriminate].
    + destruct (makeMove_rejects_unchanged_or_applies_in_full
                  (fst newGame) (snd newGame) (sq 6 4) (sq 4 4) Hwf Hv)
        as (_ & _ & Hok).
      destruct (Hok 9%nat (mkPiece pawn white)) as
          (h' & st' & Hmv & Hfrom & _ & Hhist & Hplayer & Hep & _ & _
           & (_ & _ & Hframe) & _ & _ & _ & _ & Hks & _ & Hrights
           & Hmate & _);
        try (vm_compute; reflexivity).
      { vm_compute. auto. }
      exists h', st'. split; [exact Hmv|]. split; [exact Hfrom|].
      split; [exact Hplayer|].
      split; [rewrite Hhist; vm_compute; reflexivity|].
      split; [exact Hep|]. split; [|split].
      * apply (Hframe (sq 7 4)).
        -- intros C. discriminate C.
        -- intros C. discriminate C.
        -- intros (C & _). discriminate C.
        -- intros (_ & C). vm_compute in C. discriminate C.
      * rewrite Hks, Hrights. vm_compute. reflexivity.
      * rewrite Hmate.
        replace h' with (fst (snd (makeMove (fst newGame) (snd newGame)
                                            (sq 6 4) (sq 4 4))))
          by (now rewrite Hmv).
        replace st' with (snd (snd (makeMove (fst newGame) (snd newGame)
                                             (sq 6 4) (sq 4 4))))
          by (now rewrite Hmv).
        vm_compute. reflexivity.
  - assert (wfState (fst castlingGame) (snd castlingGame)) as Hwf
      by (apply (reachable_wfState castlingGame), reachable_castlingGame).
    assert (isValidPosition (sq 7 4) = true) as Hv
        by (vm_compute; reflexivity).
    split; [exact Hwf|].
    split; [vm_compute; reflexivity|]. split; [vm_compute; reflexivity|].
    destruct (makeMove_rejects_unchanged_or_applies_in_full
                (fst castlingGame) (snd castlingGame) (sq 7 4) (sq 7 6)
                Hwf Hv)
      as (_ & _ & Hok).
    destruct (Hok 25%nat (mkPiece king white)) as
        (h' & st' & Hmv & _ & Hto & _ & _ & _ & _ & _
         & (Hcastle & _ & _) & _ & _ & _ & _ & Hks & Hqs & Hrights & _);
      try (vm_compute; reflexivity).
    { vm_compute. auto 10. }
    destruct (Hcastle eq_refl eq_refl) as (Hpassed & Hcorner).
    exists h', st'. split; [exact Hmv|].
    split; [rewrite Hto; vm_compute; reflexivity|].
    split; [exact Hpassed|]. split; [exact Hcorner|].
    rewrite Hks, Hqs, !Hrights.
    split; [vm_compute; reflexivity|].
    split; vm_compute; reflexivity.
Defined.

(** C7: after every successful [makeMove] of a piece [p] from [f] to
    [t] the en-passant target is the square passed over (same file,
    the row between) when [p] was a pawn that advanced two rows, and
    null otherwise; so in the state the move leaves, pawn move
    generation offers a diagonal step onto an empty square only when
    the move just made was such an advance, and only onto the square it
    passed over; and when [getPossibleMoves] offers it, the capturing
    pawn is of the other colour than [p]. *)
Theorem enPassantTarget_follows_double_step h st f t h' st' p :
  wfBoard (board st) ->
  pieceAt h (board st) f = Some p ->
  makeMove h st f t = (true, (h', st')) ->
  let doubleStep := type p = pawn /\ Z.abs (row t - row f) = 2 in
  let passedOver := mkPos (row f + direction (color p)) (col f) in
  (doubleStep ->
   enPassantTarget st' = Some passedOver
   /\ t = mkPos (row f + 2 * direction (color p)) (col f))
  /\ (~ doubleStep -> enPassantTarget st' = None)
  /\ (forall origin c pos,
        In pos (getPawnMoves h' st' origin c) ->
        col pos <> col origin -> vacant st' pos = true ->
        doubleStep /\ pos = passedOver)
  /\ (forall origin q pos,
        pieceAt h' (board st') origin = Some q -> type q = pawn ->
        In pos (getPossibleMoves h' st' origin) ->
        col pos <> col origin -> vacant st' pos = true ->
        doubleStep /\ pos = passedOver /\ color q = opponent (color p)).
Proof.
  intros Hwf Hp Hmv doubleStep passedOver.
  apply pieceAt_Some in Hp as (l & El & Ep).
  pose proof Hmv as Hmv'.
  apply makeMove_true in Hmv' as (l' & p' & El' & _ & _ & Hin & E).
  rewrite El in El'. injection El' as <-.
  destruct (legal_destination _ _ _ _ _ _ Hwf El Ep Hin) as (Hf & Ht & Hne & Hg).
  pose proof (performMove_enPassant _ _ _ _ _ _ Hwf El Ep Hin) as He.
  rewrite <- E in He. simpl in He.
  assert (doubleStep ->
          enPassantTarget st' = Some passedOver
          /\ t = mkPos (row f + 2 * direction (color p)) (col f)) as Hyes.
  { intros [Hpawn Habs]. rewrite He.
    destruct (pawn_edge _ _ _ _ _ Hf Hpawn Hg) as (_ & _ & H2).
    destruct (H2 Habs) as (Et & _ & Hmid & _).
    rewrite Hpawn, Habs. simpl. subst passedOver. now rewrite Hmid. }
  assert (~ doubleStep -> enPassantTarget st' = None) as Hno.
  { intros Hn. rewrite He.
    destruct (PieceType_eqb (type p) pawn) eqn:Et; auto. simpl.
    destruct (Z.eqb_spec (Z.abs (row t - row f)) 2); auto.
    exfalso. apply Hn. split; auto. now apply PieceType_eqb_eq. }
  assert (forall origin c pos,
            In pos (getPawnMoves h' st' origin c) ->
            col pos <> col origin -> vacant st' pos = true ->
            doubleStep /\ pos = passedOver) as Hoffer.
  { intros origin c pos Hpos Hdiag Hvac.
    apply getPawnMoves_spec in Hpos as (_ & Hpos).
    destruct Hpos as [(-> & _)|[(-> & _)|(_ & _ & Hcase)]];
      [now simpl in Hdiag|now simpl in Hdiag|].
    destruct Hcase as [(target & Htarget & _)|Hep].
    - apply pieceAt_Some in Htarget as (k & Hk & _).
      unfold vacant in Hvac. rewrite Hk in Hvac. discriminate.
    - assert (doubleStep) as Hd.
      { destruct (PieceType_eqb (type p) pawn) eqn:Et;
          [|rewrite He in Hep; discriminate].
        destruct (Z.eqb_spec (Z.abs (row t - row f)) 2);
          [|rewrite He in Hep; simpl in Hep; discriminate].
        split; auto. now apply PieceType_eqb_eq. }
      split; auto. destruct (Hyes Hd) as (Hsome & _). congruence. }
  split; [exact Hyes|]. split; [exact Hno|]. split; [exact Hoffer|].
  intros origin q pos Hq Hpawn Hpos Hdiag Hvac.
  apply pieceAt_Some in Hq as (k & Hk & Hdk).
  apply getPossibleMoves_spec in Hpos as (k' & q' & Hk' & Hdk' & Hturn & Hgen & _).
  rewrite Hk in Hk'. injection Hk' as <-.
  rewrite Hdk in Hdk'. injection Hdk' as <-.
  unfold calculateLegalMoves in Hgen. rewrite Hpawn in Hgen.
  destruct (Hoffer _ _ _ Hgen Hdiag Hvac) as (Hd & Hpos).
  split; [exact Hd|]. split; [exact Hpos|].
  rewrite Hturn.
  destruct (performMove_fields h st f t l) as (_ & Hc & _).
  rewrite <- E in Hc. simpl in Hc. rewrite Hc.
  pose proof Hmv as Hmv2.
  apply makeMove_true in Hmv2 as (l2 & p2 & El2 & Ep2 & Ecol & _).
  rewrite El in El2. injection El2 as <-.
  rewrite Ep in Ep2. injection Ep2 as <-. now rewrite Ecol.
Qed.

Lemma enPassantTarget_follows_double_step_witness :
  let h := fst newGame in
  let st := snd newGame in
  let r := makeMove h st (sq 6 4) (sq 4 4) in
  wfBoard (board st)
  /\ pieceAt h (board st) (sq 6 4) = Some (mkPiece pawn white)
  /\ r = (true, snd r)
  /\ enPassantTarget (snd (snd r)) = Some (sq 5 4).
Proof.
  cbv zeta.
  assert (wfBoard (board (snd newGame))) as Hwf by apply wfBoard_newGame.
  assert (pieceAt (fst newGame) (board (snd newGame)) (sq 6 4)
          = Some (mkPiece pawn white)) as Hp by (vm_compute; reflexivity).
  assert (makeMove (fst newGame) (snd newGame) (sq 6 4) (sq 4 4)
          = (true, (fst (snd (makeMove (fst newGame) (snd newGame)
                                       (sq 6 4) (sq 4 4))),
                    snd (snd (makeMove (fst newGame) (snd newGame)
                                       (sq 6 4) (sq 4 4))))))
    as Hmv by (vm_compute; reflexivity).
  split; [exact Hwf|]. split; [exact Hp|]. split.
  - vm_compute. reflexivity.
  - destruct (enPassantTarget_follows_double_step _ _ _ _ _ _ _ Hwf Hp Hmv)
      as (Hyes & _).
    destruct Hyes as (He & _); [split; vm_compute; reflexivity|]. exact He.
Defined.

(** C8: whenever a successful [makeMove] takes a pawn to the final rank
    of its colour, the destination afterwards holds a queen of the
    mover's colour; after any successful move the piece on the
    destination has the mover's colour and either the mover's type or,
    for a pawn, the type queen, and it is not a pawn when the
    destination is on row 0 or row 7; and in a game played from the
    initial position no pawn stands on row 0 or row 7 after the move. *)
Theorem promotion_is_always_to_queen h st f t h' st' p :
  wfBoard (board st) ->
  pieceAt h (board st) f = Some p ->
  makeMove h st f t = (true, (h', st')) ->
  (type p = pawn -> row t = finalRank (color p) ->
   pieceAt h' (board st') t = Some (mkPiece queen (color p)))
  /\ (exists q, pieceAt h' (board st') t = Some q
                /\ color q = color p
                /\ (type q = type p \/ (type p = pawn /\ type q = queen))
                /\ (type q = pawn -> row t <> 0 /\ row t <> 7))
  /\ (reachable (h, st) -> noEdgePawn h' (board st')).
Proof.
  intros Hwf Hp Hmv.
  apply pieceAt_Some in Hp as (l & El & Ep).
  destruct (moved_piece _ _ _ _ _ _ _ _ Hwf El Ep Hmv) as (Hbt & _ & _ & Hl & _).
  assert (pieceAt h' (board st') t
          = Some (mkPiece (if PieceType_eqb (type p) pawn
                              && (row t =? finalRank (color p))
                           then queen else type p) (color p))) as Hat.
  { unfold pieceAt. now rewrite Hbt. }
  split; [|split].
  - intros Hpawn Hrow. rewrite Hat, Hpawn, Hrow, Z.eqb_refl. reflexivity.
  - eexists. split; [exact Hat|]. simpl. split; [reflexivity|].
    pose proof Hmv as Hmv'.
    apply makeMove_true in Hmv' as (l' & p' & El' & _ & _ & Hin & _).
    destruct (legal_destination _ _ _ _ _ _ Hwf El Ep Hin) as (Hf & _ & _ & Hg).
    destruct (PieceType_eqb (type p) pawn) eqn:Et; simpl.
    + apply PieceType_eqb_eq in Et.
      destruct (pawn_edge _ _ _ _ _ Hf Et Hg) as (Hedge & _).
      destruct (Z.eqb_spec (row t) (finalRank (color p))).
      * split; [right; auto|discriminate].
      * split; [left; reflexivity|]. intros _.
        destruct (Z.eqb_spec (row t) 0), (Z.eqb_spec (row t) 7);
          simpl in Hedge; try discriminate; auto.
    + split; [left; reflexivity|]. intros Hq.
      apply PieceType_eqb_eq in Hq. congruence.
  - intros Hr. eapply noEdgePawn_step; eauto.
    apply (reachable_noEdgePawn _ Hr).
Qed.

Lemma promotion_is_always_to_queen_witness :
  let h := fst promotionGame in
  let st := snd promotionGame in
  let r := makeMove h st (sq 1 1) (sq 0 0) in
  wfBoard (board st)
  /\ pieceAt h (board st) (sq 1 1) = Some (mkPiece pawn white)
  /\ r = (true, snd r)
  /\ pieceAt (fst (snd r)) (board (snd (snd r))) (sq 0 0)
     = Some (mkPiece queen white).
Proof.
  cbv zeta.
  pose proof (reachable_wfBoard _ reachable_promotionGame) as Hwf.
  assert (pieceAt (fst promotionGame) (board (snd promotionGame)) (sq 1 1)
          = Some (mkPiece pawn white)) as Hp by (vm_compute; reflexivity).
  assert (makeMove (fst promotionGame) (snd promotionGame) (sq 1 1) (sq 0 0)
          = (true,
             (fst (snd (makeMove (fst promotionGame) (snd promotionGame)
                                 (sq 1 1) (sq 0 0))),
              snd (snd (makeMove (fst promotionGame) (snd promotionGame)
                                 (sq 1 1) (sq 0 0))))))
    as Hmv by (vm_compute; reflexivity).
  split; [exact Hwf|]. split; [exact Hp|]. split; [vm_compute; reflexivity|].
  destruct (promotion_is_always_to_queen _ _ _ _ _ _ _ Hwf Hp Hmv)
    as (Hqueen & _).
  apply Hqueen; vm_compute; reflexivity.
Defined.

(** C10: in every state reached from the initial position by successful
    [makeMove] calls, [isCheckmate] and [isStalemate] are not both
    true; and once either is true every further [makeMove] call from a
    square of the grid answers false and leaves store and state as they
    were, so any sequence of such calls leaves the game where it is. *)
Theorem terminal_state_is_frozen s :
  reachable s ->
  ~ (isCheckmate (snd s) = true /\ isStalemate (snd s) = true)
  /\ (isCheckmate (snd s) = true \/ isStalemate (snd s) = true ->
      (forall f t, isValidPosition f = true ->
                   makeMove (fst s) (snd s) f t = (false, s))
      /\ (forall ms,
            Forall (fun ft => isValidPosition (fst ft) = true) ms ->
            snd (play s ms) = s
            /\ Forall (fun answer => answer = false) (fst (play s ms)))).
Proof.
  intros Hr.
  destruct (reachable_statusInv _ Hr) as (Hiff & Hboth).
  split; [exact Hboth|]. intros Hterm.
  apply Hiff in Hterm.
  pose proof (reachable_wfBoard _ Hr) as Hwf.
  assert (forall f t, isValidPosition f = true ->
                      makeMove (fst s) (snd s) f t = (false, s)) as Hrej.
  { intros f t _. rewrite (no_legal_moves_rejects _ _ f t Hwf Hterm).
    now destruct s. }
  split; [exact Hrej|].
  induction ms as [|[f t] ms IH]; intros Hvalid; simpl;
    [split; [reflexivity|constructor]|].
  inversion Hvalid as [|x xs Hf Hrest]; subst. simpl in Hf.
  rewrite (Hrej f t Hf). simpl. destruct (IH Hrest) as (IH1 & IH2).
  split; auto.
Qed.

Lemma terminal_state_is_frozen_witness :
  reachable queenCheckGame
  /\ isCheckmate (snd queenCheckGame) = true
  /\ isStalemate (snd queenCheckGame) = false
  /\ makeMove (fst queenCheckGame) (snd queenCheckGame) (sq 1 6) (sq 2 6)
     = (false, queenCheckGame).
Proof.
  split; [exact reachable_queenCheckGame|].
  assert (isCheckmate (snd queenCheckGame) = true) as Hmate
      by (vm_compute; reflexivity).
  split; [exact Hmate|]. split; [vm_compute; reflexivity|].
  destruct (terminal_state_is_frozen _ reachable_queenCheckGame)
    as (_ & Hfrozen).
  destruct (Hfrozen (or_introl Hmate)) as (Hrej & _).
  apply Hrej. vm_compute. reflexivity.
Defined.

(** C2 fails on the code as stated: in the reachable state after 1.g4
    b6 2.Nh3 Bb7 3.e3 Bxh1 4.Bc4 a6 the king-side castling square g1
    is generated and offered to the white king although the rook was
    taken on h1, where a black bishop now stands; the move is accepted
    and carries that bishop to f1. *)
Lemma castling_offered_without_rook :
  let h := fst capturedRookGame in
  let st := snd capturedRookGame in
  let r := makeMove h st (sq 7 4) (sq 7 6) in
  reachable capturedRookGame
  /\ pieceAt h (board st) (sq 7 4) = Some (mkPiece king white)
  /\ pieceAt h (board st) (sq 7 7) = Some (mkPiece bishop black)
  /\ existsb (positionsEqual (sq 7 6)) (getKingMoves h st (sq 7 4)) = true
  /\ existsb (positionsEqual (sq 7 6)) (getPossibleMoves h st (sq 7 4)) = true
  /\ fst r = true
  /\ pieceAt (fst (snd r)) (board (snd (snd r))) (sq 7 5)
     = Some (mkPiece bishop black).
Proof.
  cbv zeta. split; [exact reachable_capturedRookGame|].
  vm_compute. repeat split; reflexivity.
Qed.

(** C2 as amended: a destination two columns away is generated for a
    king only when the king stands on the home square of its colour
    (column 4 of row 7 for White, of row 0 for Black), the castling
    right of that colour and side is set and the squares between the
    king and the rook's corner are empty; whether a rook stands on the
    corner is not looked at.  When such a move is applied, the same
    [makeMove] call puts the king on its destination and empties its
    origin, moves what stands on the corner (the rook, when it is
    there) to the square the king passed over and empties the corner.
    A right is cleared by every move of the king of its colour and by
    every rook move from its corner, and no call of [makeMove] ever
    sets a right again. *)
Theorem castling_by_rights_and_empty_squares h st f t p :
  wfBoard (board st) ->
  pieceAt h (board st) f = Some p ->
  let r := homeRow (color p) in
  let corner := mkPos r (if col t >? col f then 7 else 0) in
  let passed := mkPos r (if col t >? col f then 5 else 3) in
  (type p = king -> Z.abs (col t - col f) = 2 ->
   In t (calculateLegalMoves h st f p) ->
   f = mkPos r 4
   /\ ((t = mkPos r 6
        /\ flagOf h (canCastleKingSide st) (color p) = true
        /\ vacant st (mkPos r 5) = true /\ vacant st (mkPos r 6) = true)
       \/ (t = mkPos r 2
           /\ flagOf h (canCastleQueenSide st) (color p) = true
           /\ vacant st (mkPos r 3) = true /\ vacant st (mkPos r 2) = true
           /\ vacant st (mkPos r 1) = true)))
  /\ (forall h' st',
        makeMove h st f t = (true, (h', st')) ->
        (type p = king -> Z.abs (col t - col f) = 2 ->
         pieceAt h' (board st') t = Some p
         /\ cellAt (board st') f = None
         /\ cellAt (board st') passed = cellAt (board st) corner
         /\ cellAt (board st') corner = None
         /\ (forall rk, pieceAt h (board st) corner = Some rk ->
                        type rk = rook ->
                        pieceAt h' (board st') passed = Some rk))
        /\ (type p = king ->
            flagOf h' (canCastleKingSide st') (color p) = false
            /\ flagOf h' (canCastleQueenSide st') (color p) = false)
        /\ (type p = rook -> f = mkPos r 7 ->
            flagOf h' (canCastleKingSide st') (color p) = false)
        /\ (type p = rook -> f = mkPos r 0 ->
            flagOf h' (canCastleQueenSide st') (color p) = false))
  /\ (forall f' t' answer h' st' c,
        makeMove h st f' t' = (answer, (h', st')) ->
        (flagOf h (canCastleKingSide st) c = false ->
         flagOf h' (canCastleKingSide st') c = false)
        /\ (flagOf h (canCastleQueenSide st) c = false ->
            flagOf h' (canCastleQueenSide st') c = false)).
Proof.
  intros Hwf Hp r corner passed.
  assert (type p = king -> Z.abs (col t - col f) = 2 ->
          In t (calculateLegalMoves h st f p) ->
          f = mkPos r 4
          /\ ((t = mkPos r 6
               /\ flagOf h (canCastleKingSide st) (color p) = true
               /\ vacant st (mkPos r 5) = true /\ vacant st (mkPos r 6) = true)
              \/ (t = mkPos r 2
                  /\ flagOf h (canCastleQueenSide st) (color p) = true
                  /\ vacant st (mkPos r 3) = true
                  /\ vacant st (mkPos r 2) = true
                  /\ vacant st (mkPos r 1) = true))) as Hgen.
  { intros Htype Habs. unfold calculateLegalMoves. rewrite Htype. intros Hin.
    apply getKingMoves_spec in Hin.
    destruct Hin as [(_ & _ & Hc & _)|(k' & Hk' & Hf & Hin)]; [lia|].
    rewrite Hp in Hk'. injection Hk' as <-. split; [exact Hf|].
    apply castlingMoves_spec in Hin. exact Hin. }
  split; [exact Hgen|]. split.
  - intros h' st' Hmv.
    pose proof Hp as Hp0.
    apply pieceAt_Some in Hp0 as (l & El & Ep).
    pose proof Hmv as Hmv'.
    apply makeMove_true in Hmv' as (l' & p' & El' & _ & _ & Hin & E).
    rewrite El in El'. injection El' as <-.
    destruct (legal_destination _ _ _ _ _ _ Hwf El Ep Hin)
      as (Hf & Ht & Hne & Hg).
    destruct (moved_piece _ _ _ _ _ _ _ _ Hwf El Ep Hmv)
      as (Hbt & Hbf & _ & Hl & Hothers).
    destruct (performMove_fields h st f t l) as (Hb & _ & _ & Hks & Hqs & _).
    pose proof (performMove_store h st f t l) as Hst. cbv zeta in Hst.
    rewrite <- E in Hb, Hks, Hqs, Hst. simpl in Hb, Hks, Hqs, Hst.
    assert (deref (pushMove (promoted h (candidate st f t l)) (moveHistory st)
                            (recorded h st (candidate st f t l)))
                  (piece (recorded h st (candidate st f t l))) = Some p
            \/ type p = pawn) as Hkept.
    { destruct (PieceType_eqb (type p) pawn) eqn:Et;
        [right; now apply PieceType_eqb_eq|left].
      cbn [recorded candidate piece].
      rewrite (deref_same_pieces h); auto.
      rewrite pieces_pushMove. unfold promoted, isPromotionMove.
      cbn [candidate piece]. now rewrite (isType_true _ _ _ _ Ep), Et. }
    split; [|split; [|split]].
    + intros Htype Habs.
      destruct (Hgen Htype Habs Hg) as (Ef & Hside).
      assert (PieceType_eqb (type p) pawn = false) as Hnp by now rewrite Htype.
      rewrite Hnp in Hl. simpl in Hl.
      split; [unfold pieceAt; rewrite Hbt, Hl; now destruct p|].
      split; [exact Hbf|].
      assert (specialBoard h st (candidate st f t l)
              = relocateRook (board st) (candidate st f t l)) as Hsb.
      { unfold specialBoard, isCastlingMove, isEnPassantMove.
        cbn [candidate piece from to].
        rewrite !(isType_true _ _ _ _ Ep), Htype. simpl.
        apply Z.eqb_eq in Habs. now rewrite Habs. }
      assert (row f = r /\ col f = 4) as [Hrf Hcf] by (rewrite Ef; auto).
      assert (isValidPosition corner = true /\ isValidPosition passed = true
              /\ corner <> passed /\ corner <> t /\ corner <> f
              /\ passed <> t /\ passed <> f)
        as (Hvc & Hvp & H1 & H2 & H3 & H4 & H5).
      { subst corner passed. rewrite Ef.
        destruct Hside as [(-> & _)|(-> & _)]; subst r;
          destruct (color p); simpl; repeat split; try reflexivity;
          discriminate. }
      assert (cellAt (board st') passed = cellAt (board st) corner) as Hpassed.
      { rewrite Hb, Hsb. unfold relocateRook.
        cbn [candidate from to]. rewrite Hrf.
        fold corner. fold passed.
        rewrite (cellAt_setCell_other _ f) by congruence.
        rewrite (cellAt_setCell_other _ t) by congruence.
        rewrite cellAt_setCell_other by congruence.
        now apply cellAt_setCell_same. }
      split; [exact Hpassed|]. split.
      * rewrite Hb, Hsb. unfold relocateRook.
        cbn [candidate from to]. rewrite Hrf.
        fold corner. fold passed.
        rewrite (cellAt_setCell_other _ f) by congruence.
        rewrite (cellAt_setCell_other _ t) by congruence.
        apply cellAt_setCell_same; auto using wfBoard_setCell.
      * intros rk Hrk Hrook.
        apply pieceAt_Some in Hrk as (lr & Hlr & Hdr).
        unfold pieceAt. rewrite Hpassed, Hlr.
        rewrite Hothers; auto. intros ->. congruence.
    + intros Htype. rewrite Hks, Hqs, Hst.
      destruct Hkept as [Hkept|Hpawn]; [|congruence].
      apply updateCastlingRights_king; auto.
    + intros Htype Ef. rewrite Hks, Hst.
      destruct Hkept as [Hkept|Hpawn]; [|congruence].
      destruct (updateCastlingRights_rook _ st _ _ Hkept Htype) as (H7 & _).
      * cbn [recorded candidate from]. now rewrite Ef.
      * apply H7. cbn [recorded candidate from]. now rewrite Ef.
    + intros Htype Ef. rewrite Hqs, Hst.
      destruct Hkept as [Hkept|Hpawn]; [|congruence].
      destruct (updateCastlingRights_rook _ st _ _ Hkept Htype) as (_ & H0).
      * cbn [recorded candidate from]. now rewrite Ef.
      * apply H0. cbn [recorded candidate from]. now rewrite Ef.
  - intros f' t' answer h' st' c Hmv.
    destruct (makeMove_rights_mono _ _ _ _ _ _ _ c Hmv) as (-> & -> & Hm).
    split; apply Hm.
Qed.

Lemma castling_by_rights_and_empty_squares_witness :
  let h := fst castlingGame in
  let st := snd castlingGame in
  let k := mkPiece king white in
  let r := makeMove h st (sq 7 4) (sq 7 6) in
  wfBoard (board st)
  /\ pieceAt h (board st) (sq 7 4) = Some k
  /\ In (sq 7 6) (calculateLegalMoves h st (sq 7 4) k)
  /\ flagOf h (canCastleKingSide st) white = true
  /\ r = (true, snd r)
  /\ pieceAt (fst (snd r)) (board (snd (snd r))) (sq 7 6) = Some k
  /\ pieceAt (fst (snd r)) (board (snd (snd r))) (sq 7 5)
     = Some (mkPiece rook white)
  /\ flagOf (fst (snd r)) (canCastleKingSide (snd (snd r))) white = false.
Proof.
  cbv zeta.
  pose proof (reachable_wfBoard _ reachable_castlingGame) as Hwf.
  assert (pieceAt (fst castlingGame) (board (snd castlingGame)) (sq 7 4)
          = Some (mkPiece king white)) as Hk by (vm_compute; reflexivity).
  assert (In (sq 7 6) (calculateLegalMoves (fst castlingGame)
                         (snd castlingGame) (sq 7 4) (mkPiece king white)))
    as Hin by (vm_compute; auto).
  assert (makeMove (fst castlingGame) (snd castlingGame) (sq 7 4) (sq 7 6)
          = (true,
             (fst (snd (makeMove (fst castlingGame) (snd castlingGame)
                                 (sq 7 4) (sq 7 6))),
              snd (snd (makeMove (fst castlingGame) (snd castlingGame)
                                 (sq 7 4) (sq 7 6))))))
    as Hmv by (vm_compute; reflexivity).
  destruct (castling_by_rights_and_empty_squares
              (fst castlingGame) (snd castlingGame) (sq 7 4) (sq 7 6)
              (mkPiece king white) Hwf Hk)
    as (Hgen & Happ & _).
  destruct (Hgen eq_refl eq_refl Hin) as (_ & [(_ & Hflag & _)|(Habs & _)]);
    [|discriminate Habs].
  destruct (Happ _ _ Hmv) as (Hmoved & Hcleared & _).
  destruct (Hmoved eq_refl eq_refl) as (Hking & _ & _ & _ & Hrook).
  destruct (Hcleared eq_refl) as (Hks & _).
  split; [exact Hwf|]. split; [exact Hk|]. split; [exact Hin|].
  split; [exact Hflag|]. split; [vm_compute; reflexivity|].
  split; [exact Hking|]. split; [|exact Hks].
  apply Hrook; vm_compute; reflexivity.
Defined.

(** ** The search *)

(** C6 fails on the code as stated.  (a) On the new game, where White
    is to move, [getBestMove] returns none although neither
    [isCheckmate] nor [isStalemate] is set.  (b) After 1.e4 a6 2.Bc4 a5
    3.Nf3 a4 4.Bxf7+, a reachable state with Black to move, no terminal
    flag set and the legal move Kxf7, [getBestMove] returns none as
    well: below Kxf7 the castling move generated for White is refused
    in its copy, because a sibling branch has cleared the rights object
    all copies share, and the call below it returns [-Infinity]. *)
Lemma getBestMove_none_without_terminal_flag :
  (snd (getBestMove (fst newGame) (snd newGame)) = None
   /\ currentPlayer (snd newGame) = white
   /\ isCheckmate (snd newGame) = false
   /\ isStalemate (snd newGame) = false)
  /\ (reachable bishopCheckGame
      /\ currentPlayer (snd bishopCheckGame) = black
      /\ isCheckmate (snd bishopCheckGame) = false
      /\ isStalemate (snd bishopCheckGame) = false
      /\ map (fun m => (from m, to m))
             (getAllLegalMoves (fst bishopCheckGame) (snd bishopCheckGame)
                               black)
         = [(sq 0 4, sq 1 5)]
      /\ snd (getBestMove (fst bishopCheckGame) (snd bishopCheckGame))
         = None).
Proof.
  split; [vm_compute; repeat split; reflexivity|].
  split; [exact reachable_bishopCheckGame|].
  do 4 (split; [vm_compute; reflexivity|]).
  vm_cast_no_check (eq_refl (@None Move)).
Qed.

(** C6 as amended: [getBestMove] returns none, and leaves the store as
    it was, whenever [getAllLegalMoves('black')] is empty, which is the
    case whenever Black is not the side to move; and in a state reached
    from the initial position by successful [makeMove] calls in which
    Black is to move, that list is empty exactly when [isCheckmate] or
    [isStalemate] is set. *)
Theorem getBestMove_none_when_black_has_no_move h st :
  (getAllLegalMoves h st black = [] -> getBestMove h st = (h, None))
  /\ (currentPlayer st <> black -> getAllLegalMoves h st black = [])
  /\ (reachable (h, st) -> currentPlayer st = black ->
      (getAllLegalMoves h st black = [] <->
       isCheckmate st = true \/ isStalemate st = true)).
Proof.
  split; [apply getBestMove_no_moves|]. split.
  - intros Hturn. unfold getAllLegalMoves. apply flat_map_nil.
    intros pos _. unfold getPossibleMoves.
    destruct (cellAt (board st) pos) as [l|]; auto.
    destruct (deref h l) as [p|]; auto.
    destruct (Color_eqb (color p) black) eqn:Eb; auto.
    apply Color_eqb_eq in Eb.
    destruct (Color_eqb (color p) (currentPlayer st)) eqn:Ec; auto.
    apply Color_eqb_eq in Ec. congruence.
  - intros Hr Hturn.
    destruct (reachable_statusInv _ Hr) as (Hiff & _). simpl in Hiff.
    rewrite Hturn in Hiff. rewrite getAllLegalMoves_nil. symmetry. exact Hiff.
Qed.

Lemma getBestMove_none_when_black_has_no_move_witness :
  reachable queenCheckGame
  /\ currentPlayer (snd queenCheckGame) = black
  /\ isCheckmate (snd queenCheckGame) = true
  /\ getBestMove (fst queenCheckGame) (snd queenCheckGame)
     = (fst queenCheckGame, None).
Proof.
  assert (currentPlayer (snd queenCheckGame) = black) as Hturn
      by (vm_compute; reflexivity).
  assert (isCheckmate (snd queenCheckGame) = true) as Hmate
      by (vm_compute; reflexivity).
  split; [exact reachable_queenCheckGame|]. split; [exact Hturn|].
  split; [exact Hmate|].
  destruct (getBestMove_none_when_black_has_no_move
              (fst queenCheckGame) (snd queenCheckGame))
    as (Hnone & _ & Hflags).
  apply Hnone. apply Hflags; auto.
  rewrite <- surjective_pairing. exact reachable_queenCheckGame.
Defined.

(** * Further properties of the engine *)

(** ** What the move generators return *)

Lemma isEnemyOfMover_landing h st from m l :
  pieceAt h (board st) from = Some m ->
  isEnemyOfMover h st from l = true <->
  exists p, deref h l = Some p /\ color p <> color m.
Proof.
  intros Hm. unfold isEnemyOfMover. rewrite Hm.
  destruct (deref h l) as [p|]; split.
  - intros E. exists p. split; [reflexivity|].
    intros C. rewrite C, Color_eqb_refl in E. discriminate.
  - intros (q & Hq & Hc). inversion Hq; subst q.
    destruct (Color_eqb (color p) (color m)) eqn:E; [|reflexivity].
    apply Color_eqb_eq in E. contradiction.
  - discriminate.
  - intros (q & Hq & _). discriminate.
Qed.

Lemma ray_countFrom h st from m dr dc n k pos :
  pieceAt h (board st) from = Some m ->
  In pos (ray h st from dr dc (countFrom k n)) <->
  exists i, k <= i < k + Z.of_nat n /\ pos = offsetBy from (dr, dc) i
            /\ (forall j, k <= j <= i ->
                          isValidPosition (offsetBy from (dr, dc) j) = true)
            /\ (forall j, k <= j < i ->
                          cellAt (board st) (offsetBy from (dr, dc) j) = None)
            /\ landing h st (color m) pos.
Proof.
  intros Hm. revert k. induction n as [|n IH]; intros k.
  - simpl. split; [contradiction|]. intros (i & Hi & _). lia.
  - cbn [countFrom ray].
    change (mkPos (row from + dr * k) (col from + dc * k))
      with (offsetBy from (dr, dc) k).
    set (P := offsetBy from (dr, dc)) in *.
    destruct (isValidPosition (P k)) eqn:Hv; cbn [negb].
    + destruct (cellAt (board st) (P k)) as [l|] eqn:Hc.
      * (* the ray stops on an occupied square *)
        split.
        -- intros Hin.
           destruct (isEnemyOfMover h st from l) eqn:He; [|contradiction].
           destruct Hin as [<-|[]].
           exists k. split; [lia|]. split; [reflexivity|].
           split; [intros j Hj; replace j with k by lia; exact Hv|].
           split; [intros j Hj; lia|].
           right. apply (isEnemyOfMover_landing _ _ _ _ _ Hm) in He.
           destruct He as (p & Hp & Hne). exists p. split; [|exact Hne].
           unfold pieceAt. rewrite Hc. exact Hp.
        -- intros (i & Hi & -> & Hval & Hemp & Hland).
           assert (i = k) as ->.
           { destruct (Z.eq_dec i k) as [|Hne]; [assumption|].
             specialize (Hemp k ltac:(lia)). congruence. }
           destruct Hland as [Hn|(p & Hp & Hne)]; [congruence|].
           unfold pieceAt in Hp. rewrite Hc in Hp.
           assert (isEnemyOfMover h st from l = true) as ->.
           { apply (isEnemyOfMover_landing _ _ _ _ _ Hm). eauto. }
           left. reflexivity.
      * split.
        -- intros [<-|Hin].
           ++ exists k. split; [lia|]. split; [reflexivity|].
              split; [intros j Hj; replace j with k by lia; exact Hv|].
              split; [intros j Hj; lia|]. left. exact Hc.
           ++ apply IH in Hin as (i & Hi & -> & Hval & Hemp & Hland).
              exists i. split; [lia|]. split; [reflexivity|].
              split.
              { intros j Hj. destruct (Z.eq_dec j k) as [->|];
                  [exact Hv|apply Hval; lia]. }
              split; [|exact Hland].
              intros j Hj. destruct (Z.eq_dec j k) as [->|];
                [exact Hc|apply Hemp; lia].
        -- intros (i & Hi & -> & Hval & Hemp & Hland).
           destruct (Z.eq_dec i k) as [->|Hne]; [left; reflexivity|].
           right. apply IH. exists i. split; [lia|]. split; [reflexivity|].
           split; [intros j Hj; apply Hval; lia|].
           split; [intros j Hj; apply Hemp; lia|exact Hland].
    + split; [contradiction|].
      intros (i & Hi & _ & Hval & _). specialize (Hval k ltac:(lia)).
      congruence.
Qed.

Lemma ray_slidesTo h st from m d pos :
  pieceAt h (board st) from = Some m ->
  In pos (ray h st from (fst d) (snd d) steps) <->
  slidesTo h st (color m) from d pos.
Proof.
  intros Hm. change steps with (countFrom 1 7).
  rewrite (ray_countFrom _ _ _ _ _ _ _ _ _ Hm).
  destruct d as [dr dc]. unfold slidesTo. cbn [fst snd].
  split; intros (i & Hi & R); exists i; (split; [lia|exact R]).
Qed.

Lemma flat_map_rays h st from m ds pos :
  pieceAt h (board st) from = Some m ->
  In pos (flat_map (fun d => ray h st from (fst d) (snd d) steps) ds) <->
  exists d, In d ds /\ slidesTo h st (color m) from d pos.
Proof.
  intros Hm. rewrite in_flat_map.
  split; intros (d & Hd & R); exists d; (split; [exact Hd|]);
    apply (ray_slidesTo _ _ _ _ _ _ Hm); exact R.
Qed.

(** X1: on an 8x8 grid, for a square [from] that holds a piece,
    [getRookMoves] returns exactly the squares reached by sliding along
    a row or a column, [getBishopMoves] those reached along a diagonal
    and [getQueenMoves] those reached along any of the eight directions:
    1 to 7 steps, every square passed on the grid and empty, the last
    one on the grid and either empty or held by a piece of the other
    colour. *)
Theorem sliding_moves_follow_clear_lines h st from m pos :
  wfBoard (board st) ->
  pieceAt h (board st) from = Some m ->
  let straight := [(-1, 0); (1, 0); (0, -1); (0, 1)] in
  let diagonal := [(-1, -1); (-1, 1); (1, -1); (1, 1)] in
  (In pos (getRookMoves h st from) <->
   exists d, In d straight /\ slidesTo h st (color m) from d pos)
  /\ (In pos (getBishopMoves h st from) <->
      exists d, In d diagonal /\ slidesTo h st (color m) from d pos)
  /\ (In pos (getQueenMoves h st from) <->
      exists d, In d (straight ++ diagonal)
                /\ slidesTo h st (color m) from d pos).
Proof.
  intros _ Hm straight diagonal.
  pose proof (flat_map_rays h st from m straight pos Hm) as Hr.
  pose proof (flat_map_rays h st from m diagonal pos Hm) as Hb.
  split; [exact Hr|]. split; [exact Hb|].
  unfold getQueenMoves. rewrite in_app_iff.
  change (getRookMoves h st from)
    with (flat_map (fun d => ray h st from (fst d) (snd d) steps) straight).
  change (getBishopMoves h st from)
    with (flat_map (fun d => ray h st from (fst d) (snd d) steps) diagonal).
  rewrite Hr, Hb. split.
  - intros [(d & Hd & R)|(d & Hd & R)]; exists d;
      (split; [apply in_app_iff; auto|exact R]).
  - intros (d & Hd & R). apply in_app_iff in Hd as [Hd|Hd]; eauto.
Qed.

Lemma sliding_moves_follow_clear_lines_witness :
  pieceAt (fst italianGame) (board (snd italianGame)) (sq 4 2)
  = Some (mkPiece bishop white)
  /\ exists d, In d [(-1, -1); (-1, 1); (1, -1); (1, 1)]
               /\ slidesTo (fst italianGame) (snd italianGame) white
                           (sq 4 2) d (sq 1 5).
Proof.
  assert (pieceAt (fst italianGame) (board (snd italianGame)) (sq 4 2)
          = Some (mkPiece bishop white)) as Hm by (vm_compute; reflexivity).
  split; [exact Hm|].
  apply (proj1 (proj1 (proj2 (sliding_moves_follow_clear_lines
                                _ _ _ _ (sq 1 5)
                                (reachable_wfBoard _ reachable_italianGame)
                                Hm)))).

  vm_compute. tauto.
Defined.

Lemma jumps_iff h st from m offsets pos :
  pieceAt h (board st) from = Some m ->
  In pos (jumps h st from offsets) <->
  exists d, In d offsets /\ pos = offsetBy from d 1
            /\ isValidPosition pos = true /\ landing h st (color m) pos.
Proof.
  intros Hm. unfold jumps. rewrite in_flat_map.
  assert (forall d, mkPos (row from + fst d) (col from + snd d)
                    = offsetBy from d 1) as Hoff.
  { intros d. unfold offsetBy. f_equal; lia. }
  split.
  - intros (d & Hd & Hin). exists d. split; [exact Hd|].
    rewrite Hoff in Hin.
    destruct (isValidPosition (offsetBy from d 1)) eqn:Hv; [|contradiction].
    destruct (cellAt (board st) (offsetBy from d 1)) as [l|] eqn:Hc.
    + destruct (isEnemyOfMover h st from l) eqn:He; [|contradiction].
      destruct Hin as [<-|[]]. split; [reflexivity|]. split; [exact Hv|].
      right. apply (isEnemyOfMover_landing _ _ _ _ _ Hm) in He.
      destruct He as (p & Hp & Hne). exists p. split; [|exact Hne].
      unfold pieceAt. rewrite Hc. exact Hp.
    + destruct Hin as [<-|[]]. split; [reflexivity|]. split; [exact Hv|].
      left. exact Hc.
  - intros (d & Hd & -> & Hv & Hland). exists d. split; [exact Hd|].
    rewrite Hoff, Hv.
    destruct Hland as [Hn|(p & Hp & Hne)].
    + rewrite Hn. left. reflexivity.
    + unfold pieceAt in Hp.
      destruct (cellAt (board st) (offsetBy from d 1)) as [l|];
        [|discriminate].
      assert (isEnemyOfMover h st from l = true) as ->.
      { apply (isEnemyOfMover_landing _ _ _ _ _ Hm). eauto. }
      left. reflexivity.
Qed.

(** X2: on an 8x8 grid, for a square [from] that holds a piece,
    [getKnightMoves] returns exactly the squares of the grid that lie
    one row and two columns, or two rows and one column, away from
    [from] and are empty or held by a piece of the other colour. *)
Theorem knight_moves_are_the_free_L_squares h st from m pos :
  wfBoard (board st) ->
  pieceAt h (board st) from = Some m ->
  In pos (getKnightMoves h st from) <->
  isValidPosition pos = true
  /\ ((Z.abs (row pos - row from) = 1 /\ Z.abs (col pos - col from) = 2)
      \/ (Z.abs (row pos - row from) = 2 /\ Z.abs (col pos - col from) = 1))
  /\ landing h st (color m) pos.
Proof.
  intros _ Hm. unfold getKnightMoves.
  rewrite (jumps_iff _ _ _ _ _ _ Hm). split.
  - intros (d & Hd & -> & Hv & Hland). split; [exact Hv|].
    split; [|exact Hland].
    cbn [In] in Hd.
    repeat (destruct Hd as [<-|Hd]; [unfold offsetBy; cbn; lia|]).
    contradiction.
  - intros (Hv & Hshape & Hland).
    exists (row pos - row from, col pos - col from).
    split; [|split; [|split; [exact Hv|exact Hland]]].
    + assert (row pos - row from = -2 /\ col pos - col from = -1
              \/ row pos - row from = -2 /\ col pos - col from = 1
              \/ row pos - row from = -1 /\ col pos - col from = -2
              \/ row pos - row from = -1 /\ col pos - col from = 2
              \/ row pos - row from = 1 /\ col pos - col from = -2
              \/ row pos - row from = 1 /\ col pos - col from = 2
              \/ row pos - row from = 2 /\ col pos - col from = -1
              \/ row pos - row from = 2 /\ col pos - col from = 1) as Hd
        by lia.
      cbn [In].
      repeat (destruct Hd as [[-> ->]|Hd]; [tauto|]).
      destruct Hd as [-> ->]. tauto.
    + unfold offsetBy. cbn [fst snd]. destruct pos as [r c]. cbn [row col].
      f_equal; lia.
Qed.

Lemma knight_moves_are_the_free_L_squares_witness :
  pieceAt (fst newGame) (board (snd newGame)) (sq 7 1)
  = Some (mkPiece knight white)
  /\ In (sq 5 2) (getKnightMoves (fst newGame) (snd newGame) (sq 7 1)).
Proof.
  assert (pieceAt (fst newGame) (board (snd newGame)) (sq 7 1)
          = Some (mkPiece knight white)) as Hm by (vm_compute; reflexivity).
  split; [exact Hm|].
  apply (proj2 (knight_moves_are_the_free_L_squares _ _ _ _ (sq 5 2)
                  wfBoard_newGame Hm)).
  split; [vm_compute; reflexivity|].
  split; [right; vm_compute; split; reflexivity|].
  left. vm_compute. reflexivity.
Defined.

Lemma castlingMoves_iff h st c r pos :
  In pos (castlingMoves h st c r) <->
  (pos = mkPos r 6
   /\ flagOf h (canCastleKingSide st) c = true
   /\ vacant st (mkPos r 5) = true /\ vacant st (mkPos r 6) = true)
  \/ (pos = mkPos r 2
      /\ flagOf h (canCastleQueenSide st) c = true
      /\ vacant st (mkPos r 3) = true /\ vacant st (mkPos r 2) = true
      /\ vacant st (mkPos r 1) = true).
Proof.
  split; [apply castlingMoves_spec|].
  unfold castlingMoves. rewrite in_app_iff.
  intros [(-> & Hf & H5 & H6)|(-> & Hf & H3 & H2 & H1)].
  - left. rewrite Hf, H5, H6. left. reflexivity.
  - right. rewrite Hf, H3, H2, H1. left. reflexivity.
Qed.

(** X3: on an 8x8 grid, for a square [from] that holds a piece of colour
    [c], [getKingMoves] returns exactly (a) the squares of the grid next
    to [from], in any of the eight directions, that are empty or held by
    a piece of the other colour, and (b) when [from] is column 4 of the
    home row of [c], the castling squares: column 6 when the king-side
    right of [c] is set and columns 5 and 6 of that row are empty,
    column 2 when the queen-side right is set and columns 3, 2 and 1 are
    empty. Nothing else enters: neither the rook nor any attack on the
    king or on the squares it crosses is looked at here. *)
Theorem king_moves_are_steps_and_castling h st from m pos :
  wfBoard (board st) ->
  pieceAt h (board st) from = Some m ->
  let r := homeRow (color m) in
  In pos (getKingMoves h st from) <->
  (isValidPosition pos = true /\ pos <> from
   /\ Z.abs (row pos - row from) <= 1 /\ Z.abs (col pos - col from) <= 1
   /\ landing h st (color m) pos)
  \/ (from = mkPos r 4
      /\ ((pos = mkPos r 6
           /\ flagOf h (canCastleKingSide st) (color m) = true
           /\ vacant st (mkPos r 5) = true /\ vacant st (mkPos r 6) = true)
          \/ (pos = mkPos r 2
              /\ flagOf h (canCastleQueenSide st) (color m) = true
              /\ vacant st (mkPos r 3) = true /\ vacant st (mkPos r 2) = true
              /\ vacant st (mkPos r 1) = true))).
Proof.
  intros _ Hm r. unfold getKingMoves. rewrite in_app_iff.
  rewrite (jumps_iff _ _ _ _ _ _ Hm), Hm. cbn [option_map].
  assert (forall q, In q (castlingMoves h st (color m) r) <->
            (q = mkPos r 6
             /\ flagOf h (canCastleKingSide st) (color m) = true
             /\ vacant st (mkPos r 5) = true /\ vacant st (mkPos r 6) = true)
            \/ (q = mkPos r 2
                /\ flagOf h (canCastleQueenSide st) (color m) = true
                /\ vacant st (mkPos r 3) = true
                /\ vacant st (mkPos r 2) = true
                /\ vacant st (mkPos r 1) = true)) as Hc
    by (intros q; apply castlingMoves_iff).
  split.
  - intros [(d & Hd & -> & Hv & Hland)|Hin].
    + left. split; [exact Hv|].
      cbn [In] in Hd.
      repeat (destruct Hd as [<-|Hd];
              [split; [intros E; apply (f_equal row) in E as Er;
                       apply (f_equal col) in E as Ec;
                       unfold offsetBy in Er, Ec; cbn in Er, Ec; lia|];
               split; [unfold offsetBy; cbn; lia|];
               split; [unfold offsetBy; cbn; lia|exact Hland]|]).
      contradiction.
    + right. subst r. destruct (color m) eqn:Ecol; cbn [homeRow] in *.
      * destruct ((row from =? 7) && (col from =? 4)) eqn:Eh;
          [|contradiction].
        apply andb_true_iff in Eh as (Er & Ec).
        apply Z.eqb_eq in Er, Ec. split.
        { destruct from as [fr fc]; cbn in *; subst; reflexivity. }
        apply Hc. exact Hin.
      * destruct ((row from =? 0) && (col from =? 4)) eqn:Eh;
          [|contradiction].
        apply andb_true_iff in Eh as (Er & Ec).
        apply Z.eqb_eq in Er, Ec. split.
        { destruct from as [fr fc]; cbn in *; subst; reflexivity. }
        apply Hc. exact Hin.
  - intros [(Hv & Hne & Hr & Hcl & Hland)|(Hf & Hcast)].
    + left. exists (row pos - row from, col pos - col from).
      split; [|split; [|split; [exact Hv|exact Hland]]].
      * assert (~ (row pos - row from = 0 /\ col pos - col from = 0)) as Hnz.
        { intros (Er & Ec). apply Hne.
          destruct pos as [pr pc], from as [fr fc]; cbn in *.
          f_equal; lia. }
        assert (row pos - row from = -1 /\ col pos - col from = -1
                \/ row pos - row from = -1 /\ col pos - col from = 0
                \/ row pos - row from = -1 /\ col pos - col from = 1
                \/ row pos - row from = 0 /\ col pos - col from = -1
                \/ row pos - row from = 0 /\ col pos - col from = 1
                \/ row pos - row from = 1 /\ col pos - col from = -1
                \/ row pos - row from = 1 /\ col pos - col from = 0
                \/ row pos - row from = 1 /\ col pos - col from = 1) as Hd
          by lia.
        cbn [In].
        repeat (destruct Hd as [[-> ->]|Hd]; [tauto|]).
        destruct Hd as [-> ->]. tauto.
      * unfold offsetBy. cbn [fst snd]. destruct pos as [pr pc].
        cbn [row col]. f_equal; lia.
    + right. apply Hc in Hcast. subst r. rewrite Hf.
      destruct (color m); cbn [homeRow row col] in *;
        rewrite !Z.eqb_refl; exact Hcast.
Qed.

Lemma king_moves_are_steps_and_castling_witness :
  pieceAt (fst castlingGame) (board (snd castlingGame)) (sq 7 4)
  = Some (mkPiece king white)
  /\ In (sq 7 6) (getKingMoves (fst castlingGame) (snd castlingGame) (sq 7 4)).
Proof.
  assert (pieceAt (fst castlingGame) (board (snd castlingGame)) (sq 7 4)
          = Some (mkPiece king white)) as Hm by (vm_compute; reflexivity).
  split; [exact Hm|].
  apply (proj2 (king_moves_are_steps_and_castling _ _ _ _ (sq 7 6)
                  (reachable_wfBoard _ reachable_castlingGame) Hm)).
  right. split; [reflexivity|]. left.
  repeat split; vm_compute; reflexivity.
Defined.

Lemma getPawnMoves_iff h st from c pos :
  let oneStep := mkPos (row from + direction c) (col from) in
  let twoStep := mkPos (row from + 2 * direction c) (col from) in
  In pos (getPawnMoves h st from c) <->
  (pos = oneStep /\ isValidPosition oneStep = true
   /\ cellAt (board st) oneStep = None)
  \/ (pos = twoStep /\ row from = startRow c
      /\ isValidPosition oneStep = true /\ cellAt (board st) oneStep = None
      /\ isValidPosition twoStep = true /\ cellAt (board st) twoStep = None)
  \/ (row pos = row from + direction c
      /\ (col pos = col from - 1 \/ col pos = col from + 1)
      /\ isValidPosition pos = true
      /\ ((exists target, pieceAt h (board st) pos = Some target
                          /\ color target <> c)
          \/ enPassantTarget st = Some pos)).
Proof.
  intros oneStep twoStep.
  assert (forall q, vacant st q = true <-> cellAt (board st) q = None) as Hvac.
  { intros q. unfold vacant. destruct (cellAt (board st) q); cbn;
      split; congruence. }
  unfold getPawnMoves.
  change (match c with white => -1 | black => 1 end) with (direction c).
  change (match c with white => 6 | black => 1 end) with (startRow c).
  fold oneStep. fold twoStep.
  rewrite in_app_iff, in_flat_map.
  split.
  - intros [Hfwd|(q & Hq & Hin)].
    + destruct (isValidPosition oneStep && vacant st oneStep) eqn:E1;
        [|contradiction].
      apply andb_true_iff in E1 as (Hv1 & Hc1). apply Hvac in Hc1.
      destruct Hfwd as [<-|Hfwd]; [left; auto|].
      destruct (row from =? startRow c) eqn:Es; [|contradiction].
      apply Z.eqb_eq in Es.
      destruct (isValidPosition twoStep && vacant st twoStep) eqn:E2;
        [|contradiction].
      apply andb_true_iff in E2 as (Hv2 & Hc2). apply Hvac in Hc2.
      destruct Hfwd as [<-|[]]. right. left. auto 7.
    + right. right.
      destruct (isValidPosition q) eqn:Hv; [|contradiction].
      assert (row q = row from + direction c
              /\ (col q = col from - 1 \/ col q = col from + 1)) as (Hr & Hcl).
      { destruct Hq as [<-|[<-|[]]]; cbn; auto. }
      apply in_app_iff in Hin as [Hin|Hin].
      * destruct (pieceAt h (board st) q) as [target|] eqn:Ht;
          [|contradiction].
        destruct (Color_eqb (color target) c) eqn:Ec; cbn [negb] in Hin;
          [contradiction|].
        destruct Hin as [<-|[]].
        split; [exact Hr|]. split; [exact Hcl|]. split; [exact Hv|].
        left. exists target. split; [exact Ht|].
        intros C. rewrite C, Color_eqb_refl in Ec. discriminate.
      * destruct (enPassantTarget st) as [ep|] eqn:Ee; [|contradiction].
        destruct (positionsEqual q ep) eqn:Eq; [|contradiction].
        apply positionsEqual_eq in Eq. subst ep.
        destruct Hin as [<-|[]].
        split; [exact Hr|]. split; [exact Hcl|]. split; [exact Hv|].
        right. reflexivity.
  - intros [(-> & Hv1 & Hc1)|[(-> & Hs & Hv1 & Hc1 & Hv2 & Hc2)
                              |(Hr & Hcl & Hv & Hwhat)]].
    + left. apply Hvac in Hc1. rewrite Hv1, Hc1. left. reflexivity.
    + left. apply Hvac in Hc1, Hc2. rewrite Hv1, Hc1, Hv2, Hc2.
      apply Z.eqb_eq in Hs. rewrite Hs. right. left. reflexivity.
    + right. exists pos. split.
      { destruct pos as [pr pc]. cbn [row col] in Hr, Hcl. subst pr.
        destruct Hcl as [->| ->]; [left|right; left]; reflexivity. }
      rewrite Hv. apply in_app_iff.
      destruct Hwhat as [(target & Ht & Hne)|He].
      * left. rewrite Ht.
        destruct (Color_eqb (color target) c) eqn:Ec.
        { apply Color_eqb_eq in Ec. contradiction. }
        left. reflexivity.
      * right. rewrite He, positionsEqual_refl. left. reflexivity.
Qed.

(** X4: on an 8x8 grid [getPawnMoves from c] returns exactly: the square
    one row forward (row - 1 for White, row + 1 for Black) when it is on
    the grid and empty; the square two rows forward when [from] is on
    the start row of [c] and both that square and the one passed over
    are empty; and each of the two squares one row forward and one
    column aside that is on the grid and either holds a piece of the
    other colour or is the en-passant target. So a pawn never moves
    backward or sideways, never captures straight ahead and never jumps
    over a piece. *)
Theorem pawn_moves_are_pushes_and_diagonal_captures h st from c pos :
  wfBoard (board st) ->
  let oneStep := mkPos (row from + direction c) (col from) in
  let twoStep := mkPos (row from + 2 * direction c) (col from) in
  In pos (getPawnMoves h st from c) <->
  (pos = oneStep /\ isValidPosition oneStep = true
   /\ cellAt (board st) oneStep = None)
  \/ (pos = twoStep /\ row from = startRow c
      /\ isValidPosition oneStep = true /\ cellAt (board st) oneStep = None
      /\ isValidPosition twoStep = true /\ cellAt (board st) twoStep = None)
  \/ (row pos = row from + direction c
      /\ (col pos = col from - 1 \/ col pos = col from + 1)
      /\ isValidPosition pos = true
      /\ ((exists target, pieceAt h (board st) pos = Some target
                          /\ color target <> c)
          \/ enPassantTarget st = Some pos)).
Proof. intros _. exact (getPawnMoves_iff h st from c pos). Qed.

Lemma pawn_moves_are_pushes_and_diagonal_captures_witness :
  In (sq 4 4) (getPawnMoves (fst newGame) (snd newGame) (sq 6 4) white).
Proof.
  apply (proj2 (pawn_moves_are_pushes_and_diagonal_captures
                  (fst newGame) (snd newGame) (sq 6 4) white (sq 4 4)
                  wfBoard_newGame)).
  right. left. repeat split; vm_compute; reflexivity.
Defined.

(** ** Where a move may land *)

Lemma vacant_None st q : vacant st q = true <-> cellAt (board st) q = None.
Proof.
  unfold vacant. destruct (cellAt (board st) q); cbn; split; congruence.
Qed.

Lemma slidesTo_landing h st c from d pos :
  slidesTo h st c from d pos -> landing h st c pos.
Proof. intros (i & _ & _ & _ & _ & Hl). exact Hl. Qed.

Lemma calculateLegalMoves_landing h st from p pos :
  pieceAt h (board st) from = Some p ->
  In pos (calculateLegalMoves h st from p) ->
  landing h st (color p) pos
  \/ (type p = pawn /\ enPassantTarget st = Some pos).
Proof.
  intros Hp Hin. unfold calculateLegalMoves in Hin.
  destruct (type p) eqn:Et.
  - (* pawn *)
    apply getPawnMoves_iff in Hin
      as [(-> & _ & Hc)|[(-> & _ & _ & _ & _ & Hc)|(_ & _ & _ & Hw)]].
    + left. left. exact Hc.
    + left. left. exact Hc.
    + destruct Hw as [Ht|He]; [left; right; exact Ht|right; auto].
  - left. apply (flat_map_rays _ _ _ _ _ _ Hp) in Hin as (d & _ & Hs).
    exact (slidesTo_landing _ _ _ _ _ _ Hs).
  - left. apply (jumps_iff _ _ _ _ _ _ Hp) in Hin as (d & _ & _ & _ & Hl).
    exact Hl.
  - left. apply (flat_map_rays _ _ _ _ _ _ Hp) in Hin as (d & _ & Hs).
    exact (slidesTo_landing _ _ _ _ _ _ Hs).
  - left. apply in_app_iff in Hin as [Hin|Hin];
      apply (flat_map_rays _ _ _ _ _ _ Hp) in Hin as (d & _ & Hs);
      exact (slidesTo_landing _ _ _ _ _ _ Hs).
  - left. unfold getKingMoves in Hin. apply in_app_iff in Hin as [Hin|Hin].
    + apply (jumps_iff _ _ _ _ _ _ Hp) in Hin as (d & _ & _ & _ & Hl).
      exact Hl.
    + rewrite Hp in Hin. cbn [option_map] in Hin. left.
      destruct (color p).
      * destruct ((row from =? 7) && (col from =? 4)); [|contradiction].
        apply castlingMoves_spec in Hin
          as [(-> & _ & _ & Hv)|(-> & _ & _ & Hv & _)];
          apply vacant_None; exact Hv.
      * destruct ((row from =? 0) && (col from =? 4)); [|contradiction].
        apply castlingMoves_spec in Hin
          as [(-> & _ & _ & Hv)|(-> & _ & _ & Hv & _)];
          apply vacant_None; exact Hv.
Qed.

Lemma cellAt_setCell_None_kept b q pos :
  cellAt b pos = None -> cellAt (setCell b q None) pos = None.
Proof.
  intros Hn. destruct (cellAt (setCell b q None) pos) as [k|] eqn:E;
    [|reflexivity].
  apply setCell_None_origin in E. congruence.
Qed.

Lemma specialBoard_pawn h st m p :
  deref h (piece m) = Some p -> type p = pawn ->
  specialBoard h st m
  = if isEnPassantMove h st m then removePassedPawn h (board st) m
    else board st.
Proof.
  intros Hp Ht. unfold specialBoard, isCastlingMove.
  rewrite (isType_true _ _ _ _ Hp), Ht. reflexivity.
Qed.

(** The square a double step passes over is empty after the move. *)
Lemma enPassantTarget_vacant_step h st f t h' st' e :
  wfBoard (board st) ->
  makeMove h st f t = (true, (h', st')) ->
  enPassantTarget st' = Some e -> cellAt (board st') e = None.
Proof.
  intros Hwf Hmv He.
  apply makeMove_true in Hmv as (l & p & Hl & Hp & Hc & Hin & E).
  pose proof (performMove_enPassant _ _ _ _ _ _ Hwf Hl Hp Hin) as Hep.
  destruct (performMove_fields h st f t l) as (Hb & _).
  rewrite <- E in Hep, Hb. cbn [snd] in Hep, Hb.
  rewrite He in Hep.
  destruct (PieceType_eqb (type p) pawn && (Z.abs (row t - row f) =? 2))
    eqn:Ed; [|discriminate].
  apply andb_true_iff in Ed as (Et & Ea).
  apply PieceType_eqb_eq in Et. apply Z.eqb_eq in Ea.
  destruct (legal_destination _ _ _ _ _ _ Hwf Hl Hp Hin)
    as (Hvf & Hvt & Hne & Hcalc).
  unfold calculateLegalMoves in Hcalc. rewrite Et in Hcalc.
  apply getPawnMoves_iff in Hcalc
    as [(-> & _)|[(-> & Hs & Hv1 & Hc1 & Hv2 & Hc2)|(Hr & _)]].
  - cbn [row] in Ea. destruct (color p); cbn in Ea; lia.
  - (* the double step *)
    assert (e = mkPos (row f + direction (color p)) (col f)) as ->.
    { injection Hep as ->. cbn [row col]. f_equal.
      symmetry. destruct (color p); cbn [direction];
        apply Z.div_unique with (r := 0); lia. }
    rewrite Hb.
    rewrite cellAt_setCell_other.
    2:{ intros C. apply (f_equal row) in C. cbn in C.
        destruct (color p); cbn in C; lia. }
    rewrite cellAt_setCell_other.
    2:{ intros C. apply (f_equal row) in C. cbn in C.
        destruct (color p); cbn in C; lia. }
    rewrite (specialBoard_pawn h st _ p); [|exact Hp|exact Et].
    destruct (isEnPassantMove h st _); [|exact Hc1].
    unfold removePassedPawn. apply cellAt_setCell_None_kept. exact Hc1.
  - rewrite Hr in Ea. destruct (color p); cbn in Ea; lia.
Qed.

Lemma reachable_enPassantTarget_vacant s e :
  reachable s -> enPassantTarget (snd s) = Some e ->
  cellAt (board (snd s)) e = None.
Proof.
  intros Hr. revert e.
  induction Hr as [|h st f t h' st' Hr IH Hmv]; intros e He.
  - vm_compute in He. discriminate.
  - cbn [snd] in *.
    apply (enPassantTarget_vacant_step _ _ _ _ _ _ _
             (reachable_wfBoard _ Hr) Hmv He).
Qed.

(** X5: in every state reached from the initial position by successful
    [makeMove] calls, the en-passant target, when there is one, is an
    empty square, and every destination [getPossibleMoves] offers to a
    piece is a square that is empty or held by a piece of the other
    colour: no move lands on a piece of the mover's own side. *)
Theorem moves_never_land_on_own_piece s :
  reachable s ->
  (forall e, enPassantTarget (snd s) = Some e ->
             cellAt (board (snd s)) e = None)
  /\ (forall f p t,
        pieceAt (fst s) (board (snd s)) f = Some p ->
        In t (getPossibleMoves (fst s) (snd s) f) ->
        landing (fst s) (snd s) (color p) t).
Proof.
  intros Hr.
  split; [intros e; apply reachable_enPassantTarget_vacant; exact Hr|].
  intros f p t Hp Hin.
  apply getPossibleMoves_spec in Hin as (l & q & Hl & Hq & _ & Hcalc & _).
  assert (q = p) as ->.
  { unfold pieceAt in Hp. rewrite Hl, Hq in Hp. congruence. }
  apply (calculateLegalMoves_landing _ _ _ _ _ Hp) in Hcalc
    as [Hland|(_ & He)]; [exact Hland|].
  left. apply reachable_enPassantTarget_vacant; assumption.
Qed.

Lemma moves_never_land_on_own_piece_witness :
  landing (fst italianGame) (snd italianGame) black (sq 2 3).
Proof.
  destruct (moves_never_land_on_own_piece _ reachable_italianGame)
    as (_ & Hland).
  apply (Hland (sq 1 3) (mkPiece pawn black)); vm_compute; auto.
Defined.

(** ** Turn order and the number of pieces *)

(** X6: in every state reached from the initial position by successful
    [makeMove] calls the side to move is White exactly when the history
    holds an even number of moves: the two sides alternate, one history
    entry per move. *)
Theorem side_to_move_alternates_with_history s :
  reachable s ->
  currentPlayer (snd s)
  = if Nat.even (length (historyOf (fst s) (snd s))) then white else black.
Proof.
  intros Hr. induction Hr as [|h st f t h' st' Hr IH Hmv].
  - vm_compute. reflexivity.
  - cbn [fst snd] in *.
    destruct (reachable_wfState _ Hr) as (_ & Hhist). cbn [fst snd] in Hhist.
    apply makeMove_true in Hmv as (l & p & _ & _ & _ & _ & E).
    pose proof (performMove_history h st f t l Hhist) as Hh.
    destruct (performMove_fields h st f t l) as (_ & Hpl & _).
    cbv zeta in Hh. rewrite <- E in Hh, Hpl. cbn [fst snd] in Hh, Hpl.
    rewrite Hh, Hpl, IH, length_app, Nat.add_comm. cbn [length Nat.add].
    rewrite Nat.even_succ, <- Nat.negb_even.
    destruct (Nat.even (length (historyOf h st))); reflexivity.
Qed.

Lemma side_to_move_alternates_with_history_witness :
  currentPlayer (snd italianGame)
  = if Nat.even (length (historyOf (fst italianGame) (snd italianGame)))
    then white else black.
Proof.
  exact (side_to_move_alternates_with_history _ reachable_italianGame).
Defined.

Lemma occupiedCells_app a b :
  occupiedCells (a ++ b) = (occupiedCells a + occupiedCells b)%nat.
Proof. unfold occupiedCells. rewrite filter_app, length_app. reflexivity. Qed.

Lemma occupiedCells_setNth r n v x :
  nth_error r n = Some x ->
  (occupiedCells (setNth r n v) + occ x = occupiedCells r + occ v)%nat.
Proof.
  revert n. induction r as [|y r IH]; intros [|n] Hn; cbn in Hn;
    try discriminate.
  - injection Hn as ->. unfold occupiedCells, occ. cbn.
    destruct x, v; cbn; lia.
  - specialize (IH n Hn). cbn [setNth].
    change (y :: setNth r n v) with ([y] ++ setNth r n v).
    change (y :: r) with ([y] ++ r).
    rewrite !occupiedCells_app. lia.
Qed.

Lemma occupied_setNth b n r r' :
  nth_error b n = Some r ->
  (occupied (setNth b n r') + occupiedCells r
   = occupied b + occupiedCells r')%nat.
Proof.
  unfold occupied. revert n. induction b as [|y b IH]; intros [|n] Hn;
    cbn in Hn; try discriminate.
  - injection Hn as ->. cbn [setNth concat]. rewrite !occupiedCells_app. lia.
  - specialize (IH n Hn). cbn [setNth concat].
    rewrite !occupiedCells_app. lia.
Qed.

Lemma setNth_same {A} (a : list A) n x :
  nth_error a n = Some x -> setNth a n x = a.
Proof.
  revert n. induction a as [|y a IH]; intros [|n] Hn; cbn in *;
    try discriminate.
  - congruence.
  - f_equal. apply IH. exact Hn.
Qed.

Lemma setNth_overflow {A} (a : list A) n v :
  (length a <= n)%nat -> setNth a n v = a.
Proof.
  revert n. induction a as [|y a IH]; intros [|n] Hn; cbn in *;
    try reflexivity; try lia.
  f_equal. apply IH. lia.
Qed.

Lemma setCell_off_grid b pos v :
  wfBoard b -> isValidPosition pos = false -> setCell b pos v = b.
Proof.
  intros Hwf Hv. unfold setCell.
  destruct (index b (row pos)) as [r|] eqn:Hr; [|reflexivity].
  pose proof (wfBoard_row _ _ _ Hwf Hr) as Hlen.
  apply index_Some_range in Hr as Hrange. destruct Hwf as (Hb & _).
  assert (assign r (col pos) v = r) as ->.
  { unfold assign. destruct (col pos <? 0) eqn:El; [reflexivity|].
    apply setNth_overflow. apply Z.ltb_ge in El.
    destruct (Z.ltb_spec (col pos) 8) as [Hlt|Hge]; [|lia].
    exfalso. rewrite Hb in Hrange.
    assert (isValidPosition pos = true) as Hyes
      by (apply isValidPosition_range; lia).
    congruence. }
  unfold assign, index in *. destruct (row pos <? 0); [reflexivity|].
  apply setNth_same. exact Hr.
Qed.

Lemma occupied_setCell b pos v :
  wfBoard b -> isValidPosition pos = true ->
  (occupied (setCell b pos v) + occ (cellAt b pos) = occupied b + occ v)%nat.
Proof.
  intros Hwf Hv. apply isValidPosition_range in Hv as (Hr & Hc).
  destruct (index_in_range b (row pos)) as (r & Er).
  { destruct Hwf as (-> & _). lia. }
  destruct (index_in_range r (col pos)) as (x & Ex).
  { rewrite (wfBoard_row _ _ _ Hwf Er). lia. }
  unfold setCell, cellAt. rewrite Er, Ex.
  unfold index, assign in *.
  destruct (row pos <? 0); [discriminate|].
  destruct (col pos <? 0); [discriminate|].
  pose proof (occupied_setNth b _ r (setNth r (Z.to_nat (col pos)) v) Er).
  pose proof (occupiedCells_setNth r _ v x Ex).
  lia.
Qed.

Lemma occupied_setCell_None b pos :
  wfBoard b ->
  (occupied (setCell b pos None) + occ (cellAt b pos) = occupied b)%nat.
Proof.
  intros Hwf. destruct (isValidPosition pos) eqn:Hv.
  - pose proof (occupied_setCell b pos None Hwf Hv). cbn [occ isNone] in *.
    lia.
  - rewrite (setCell_off_grid _ _ _ Hwf Hv).
    destruct (cellAt b pos) as [k|] eqn:Hc; [|cbn; lia].
    apply (cellAt_valid _ _ _ Hwf) in Hc. congruence.
Qed.

Lemma occ_le_1 o : (occ o <= 1)%nat.
Proof. destruct o; cbn; lia. Qed.

(** The grid after the castling branch: as many pieces as before, the
    king still on its square and its destination still empty. *)
Lemma relocateRook_count h st f t l p :
  wfBoard (board st) ->
  cellAt (board st) f = Some l -> deref h l = Some p -> type p = king ->
  Z.abs (col t - col f) = 2 ->
  In t (calculateLegalMoves h st f p) ->
  let b1 := relocateRook (board st) (candidate st f t l) in
  occupied b1 = occupied (board st)
  /\ cellAt b1 f = Some l /\ cellAt b1 t = None.
Proof.
  intros Hwf Hl Hp Ht Habs Hin.
  unfold calculateLegalMoves in Hin. rewrite Ht in Hin.
  apply getKingMoves_spec in Hin as [(_ & _ & Hc & _)|(k & Hk & Hf & Hin)];
    [lia|].
  assert (k = p) as ->.
  { unfold pieceAt in Hk. rewrite Hl, Hp in Hk. congruence. }
  set (r := homeRow (color p)) in *.
  assert (r = 0 \/ r = 7) as Hr by (subst r; destruct (color p); cbn; auto).
  assert (forall c, 0 <= c < 8 -> isValidPosition (mkPos r c) = true) as Hval.
  { intros c Hc. apply isValidPosition_range. cbn. lia. }
  unfold relocateRook, candidate. cbn [from to]. subst f. cbn [row col].
  apply castlingMoves_spec in Hin
    as [(-> & _ & H5 & H6)|(-> & _ & H3 & H2 & _)]; cbn [col];
    apply vacant_None in H5 || apply vacant_None in H3;
    apply vacant_None in H6 || apply vacant_None in H2.
  - change (6 >? 4) with true. cbv iota.
    pose proof (occupied_setCell (board st) (mkPos r 5)
                  (cellAt (board st) (mkPos r 7)) Hwf (Hval 5 ltac:(lia)))
      as E1.
    pose proof (occupied_setCell
                  (setCell (board st) (mkPos r 5)
                           (cellAt (board st) (mkPos r 7)))
                  (mkPos r 7) None (wfBoard_setCell _ _ _ Hwf)
                  (Hval 7 ltac:(lia))) as E2.
    rewrite cellAt_setCell_other in E2 by congruence.
    rewrite H5 in E1. cbn [occ isNone] in E1, E2.
    split; [lia|].
    rewrite !cellAt_setCell_other by congruence. auto.
  - change (2 >? 4) with false. cbv iota.
    pose proof (occupied_setCell (board st) (mkPos r 3)
                  (cellAt (board st) (mkPos r 0)) Hwf (Hval 3 ltac:(lia)))
      as E1.
    pose proof (occupied_setCell
                  (setCell (board st) (mkPos r 3)
                           (cellAt (board st) (mkPos r 0)))
                  (mkPos r 0) None (wfBoard_setCell _ _ _ Hwf)
                  (Hval 0 ltac:(lia))) as E2.
    rewrite cellAt_setCell_other in E2 by congruence.
    rewrite H3 in E1. cbn [occ isNone] in E1, E2.
    split; [lia|].
    rewrite !cellAt_setCell_other by congruence. auto.
Qed.

Lemma performMove_count h st f t l p :
  wfBoard (board st) ->
  cellAt (board st) f = Some l -> deref h l = Some p ->
  In t (getPossibleMoves h st f) ->
  let b' := board (snd (performMove h st f t l)) in
  (occupied b' <= occupied (board st))%nat
  /\ ((forall e, enPassantTarget st = Some e -> cellAt (board st) e = None) ->
      (occupied (board st) <= S (occupied b'))%nat).
Proof.
  intros Hwf Hl Hp Hin b'.
  destruct (legal_destination _ _ _ _ _ _ Hwf Hl Hp Hin)
    as (Hvf & Hvt & Hne & Hcalc).
  destruct (performMove_fields h st f t l) as (Hb & _). cbv zeta in Hb.
  subst b'. rewrite Hb. clear Hb.
  set (m := candidate st f t l).
  set (b1 := specialBoard h st m).
  assert (wfBoard b1) as Hwf1 by (apply wfBoard_specialBoard; exact Hwf).
  pose proof (occupied_setCell b1 t (Some l) Hwf1 Hvt) as E2.
  pose proof (occupied_setCell (setCell b1 t (Some l)) f None
                (wfBoard_setCell _ _ _ Hwf1) Hvf) as E3.
  rewrite cellAt_setCell_other in E3 by exact Hne.
  cbn [occ isNone] in E2, E3.
  assert ((occupied b1 + 1 <= occupied (board st) + occ (cellAt b1 f)
                              + occ (cellAt b1 t))%nat
          /\ ((forall e, enPassantTarget st = Some e ->
                         cellAt (board st) e = None) ->
              (occupied (board st) + occ (cellAt b1 f) + occ (cellAt b1 t)
               <= occupied b1 + 2)%nat)) as (Hup & Hlow).
  { subst b1. unfold specialBoard.
    destruct (isCastlingMove h m) eqn:Ecast.
    - (* castling *)
      unfold isCastlingMove in Ecast. subst m.
      cbn [piece from to candidate] in Ecast.
      apply andb_true_iff in Ecast as (Ek & Ea).
      rewrite (isType_true _ _ _ _ Hp) in Ek. apply PieceType_eqb_eq in Ek.
      apply Z.eqb_eq in Ea.
      assert (isEnPassantMove h st (candidate st f t l) = false) as ->.
      { unfold isEnPassantMove. cbn [piece candidate].
        rewrite (isType_true _ _ _ _ Hp), Ek. reflexivity. }
      destruct (relocateRook_count _ _ _ _ _ _ Hwf Hl Hp Ek Ea Hcalc)
        as (-> & -> & ->).
      cbn [occ isNone]. split; [lia|intros _; lia].
    - destruct (isEnPassantMove h st m) eqn:Eep.
      + (* en passant *)
        unfold removePassedPawn.
        set (q := mkPos _ _).
        pose proof (occupied_setCell_None (board st) q Hwf) as E1.
        pose proof (occ_le_1 (cellAt (board st) q)).
        pose proof (occ_le_1 (cellAt (setCell (board st) q None) f)).
        pose proof (occ_le_1 (cellAt (setCell (board st) q None) t)).
        split.
        * destruct (cellAt (setCell (board st) q None) f) as [k|] eqn:Ef;
            [cbn [occ isNone]; lia|].
          assert (q = f) as Hq.
          { destruct (Z.eq_dec (row q) (row f)) as [Er|Er];
              [destruct (Z.eq_dec (col q) (col f)) as [Ec|Ec]|].
            - clearbody q. destruct q, f; cbn in *; congruence.
            - rewrite cellAt_setCell_other in Ef by congruence.
              congruence.
            - rewrite cellAt_setCell_other in Ef by congruence.
              congruence. }
          assert (cellAt (board st) q = Some l) as Hql
            by (rewrite Hq; exact Hl).
          rewrite Hql in E1. cbn [occ isNone] in *. lia.
        * intros Hvac.
          assert (cellAt (setCell (board st) q None) t = None) as ->.
          { apply cellAt_setCell_None_kept. apply Hvac.
            unfold isEnPassantMove in Eep.
            apply andb_true_iff in Eep as (_ & Eep).
            destruct (enPassantTarget st) as [e|]; [|discriminate].
            apply positionsEqual_eq in Eep. subst m. cbn [to candidate] in Eep.
            congruence. }
          cbn [occ isNone]. lia.
      + rewrite Hl. cbn [occ isNone].
        pose proof (occ_le_1 (cellAt (board st) t)).
        split; [lia|intros _; lia]. }
  split; [lia|]. intros Hvac. specialize (Hlow Hvac). lia.
Qed.

Lemma makeMove_count h st f t h' st' :
  wfBoard (board st) ->
  makeMove h st f t = (true, (h', st')) ->
  (occupied (board st') <= occupied (board st))%nat
  /\ ((forall e, enPassantTarget st = Some e -> cellAt (board st) e = None) ->
      (occupied (board st) <= S (occupied (board st')))%nat).
Proof.
  intros Hwf Hmv.
  apply makeMove_true in Hmv as (l & p & Hl & Hp & _ & Hin & E).
  pose proof (performMove_count _ _ _ _ _ _ Hwf Hl Hp Hin) as H.
  cbv zeta in H. rewrite <- E in H. exact H.
Qed.

Lemma reachable_count s : reachable s -> (occupied (board (snd s)) <= 32)%nat.
Proof.
  intros Hr. induction Hr as [|h st f t h' st' Hr IH Hmv].
  - vm_compute. lia.
  - cbn [snd] in *.
    destruct (makeMove_count _ _ _ _ _ _ (reachable_wfBoard _ Hr) Hmv)
      as (Hle & _). cbn [snd] in Hle. lia.
Qed.

(** X7: in every state reached from the initial position by successful
    [makeMove] calls at most 32 squares are occupied, and a further
    successful [makeMove] never adds a piece to the board and removes at
    most one. *)
Theorem piece_count_never_grows s :
  reachable s ->
  (occupied (board (snd s)) <= 32)%nat
  /\ (forall f t h' st',
        makeMove (fst s) (snd s) f t = (true, (h', st')) ->
        (occupied (board st') <= occupied (board (snd s))
         /\ occupied (board (snd s)) <= S (occupied (board st')))%nat).
Proof.
  intros Hr. split; [exact (reachable_count _ Hr)|].
  intros f t h' st' Hmv.
  destruct (makeMove_count _ _ _ _ _ _ (reachable_wfBoard _ Hr) Hmv)
    as (Hup & Hlow).
  split; [exact Hup|]. apply Hlow.
  intros e. apply reachable_enPassantTarget_vacant. exact Hr.
Qed.

Lemma piece_count_never_grows_witness :
  (occupied (board (snd bishopCheckGame)) <= 32)%nat.
Proof.
  exact (proj1 (piece_count_never_grows _ reachable_bishopCheckGame)).
Defined.

(** ** The en-passant capture *)

Lemma piece_eta q : mkPiece (type q) (color q) = q.
Proof. destruct q; reflexivity. Qed.

(** X8: when a pawn has just advanced two rows from [f] to [t] and a
    pawn of the other side then moves onto the square passed over, the
    same [makeMove] call removes the pawn that advanced: afterwards [t]
    is empty, the capturing pawn stands on the square passed over, still
    a pawn, and its origin is empty. *)
Theorem en_passant_removes_the_passed_pawn
  h st f t h1 st1 p f2 q h2 st2 :
  wfBoard (board st) ->
  pieceAt h (board st) f = Some p -> type p = pawn ->
  Z.abs (row t - row f) = 2 ->
  makeMove h st f t = (true, (h1, st1)) ->
  let e := mkPos (row f + direction (color p)) (col f) in
  pieceAt h1 (board st1) f2 = Some q -> type q = pawn ->
  makeMove h1 st1 f2 e = (true, (h2, st2)) ->
  cellAt (board st2) t = None
  /\ pieceAt h2 (board st2) e = Some q
  /\ cellAt (board st2) f2 = None.
Proof.
  intros Hwf Hp Htp Habs Hmv1 e Hq Htq Hmv2.
  apply pieceAt_Some in Hp as (l & Hl & Hpl).
  apply pieceAt_Some in Hq as (l2 & Hl2 & Hql).
  (* the first move *)
  destruct (moved_piece _ _ _ _ _ _ _ _ Hwf Hl Hpl Hmv1)
    as (Ht1 & _ & Hwf1 & _ & _).
  apply makeMove_true in Hmv1 as (l' & p' & Hl' & Hp' & Hcol & Hin & E1).
  assert (l' = l) as -> by congruence.
  assert (p' = p) as -> by congruence.
  destruct (legal_destination _ _ _ _ _ _ Hwf Hl Hpl Hin)
    as (Hvf & Hvt & _ & Hcalc).
  destruct (pawn_edge _ _ _ _ _ Hvf Htp Hcalc) as (_ & _ & Hdbl).
  destruct (Hdbl Habs) as (Ht & Hstart & Hmid & _).
  pose proof (performMove_enPassant _ _ _ _ _ _ Hwf Hl Hpl Hin) as Hep.
  destruct (performMove_fields h st f t l) as (_ & Hpl1 & _).
  rewrite <- E1 in Hep, Hpl1. cbn [snd] in Hep, Hpl1.
  rewrite Htp in Hep. cbn [PieceType_eqb andb] in Hep.
  rewrite (proj2 (Z.eqb_eq _ _) Habs), Hmid in Hep. fold e in Hep.
  (* the second move *)
  destruct (moved_piece _ _ _ _ _ _ _ _ Hwf1 Hl2 Hql Hmv2)
    as (He2 & Hf2 & _ & Hd2 & _).
  apply makeMove_true in Hmv2 as (l2' & q' & Hl2' & Hq' & Hcol2 & Hin2 & E2).
  assert (l2' = l2) as -> by congruence.
  assert (q' = q) as -> by congruence.
  assert (color q = opponent (color p)) as Hopp by congruence.
  split; [|split; [|exact Hf2]].
  - destruct (performMove_fields h1 st1 f2 e l2) as (Hb2 & _).
    cbv zeta in Hb2. rewrite <- E2 in Hb2. cbn [snd] in Hb2.
    rewrite Hb2. clear Hb2.
    rewrite (specialBoard_pawn h1 st1 (candidate st1 f2 e l2) q Hql Htq).
    assert (isEnPassantMove h1 st1 (candidate st1 f2 e l2) = true) as ->.
    { unfold isEnPassantMove. cbn [piece to candidate].
      rewrite (isType_true _ _ _ _ Hql), Htq, Hep, positionsEqual_refl.
      reflexivity. }
    assert (removePassedPawn h1 (board st1) (candidate st1 f2 e l2)
            = setCell (board st1) t None) as ->.
    { unfold removePassedPawn, colorOf. cbn [piece to candidate].
      rewrite Hql. cbn [option_map]. rewrite Hopp, Ht. subst e.
      cbn [row col]. f_equal. f_equal.
      destruct (color p); cbn [opponent direction]; lia. }
    assert (t <> e) as Hte.
    { rewrite Ht. subst e. intros C. apply (f_equal row) in C.
      cbn in C. destruct (color p); cbn in C; lia. }
    destruct (Z.eq_dec (row f2) (row t)) as [Er|Er];
      [destruct (Z.eq_dec (col f2) (col t)) as [Ec|Ec]|].
    + assert (f2 = t) as -> by (destruct f2, t; cbn in *; congruence).
      apply cellAt_setCell_same; [|exact Hvt].
      apply wfBoard_setCell, wfBoard_setCell. exact Hwf1.
    + rewrite cellAt_setCell_other by congruence.
      rewrite cellAt_setCell_other by congruence.
      apply cellAt_setCell_same; assumption.
    + rewrite cellAt_setCell_other by congruence.
      rewrite cellAt_setCell_other by congruence.
      apply cellAt_setCell_same; assumption.
  - unfold pieceAt. rewrite He2, Hd2, Htq. cbn [PieceType_eqb andb].
    assert ((row e =? finalRank (color q)) = false) as ->.
    { apply Z.eqb_neq. subst e. cbn [row]. rewrite Hopp, Hstart.
      destruct (color p); cbn; lia. }
    rewrite <- Htq. rewrite piece_eta. reflexivity.
Qed.

Lemma en_passant_removes_the_passed_pawn_witness :
  let s1 := snd (makeMove (fst enPassantGame) (snd enPassantGame)
                          (sq 1 3) (sq 3 3)) in
  let s2 := snd (makeMove (fst s1) (snd s1) (sq 3 4) (sq 2 3)) in
  cellAt (board (snd s2)) (sq 3 3) = None
  /\ pieceAt (fst s2) (board (snd s2)) (sq 2 3) = Some (mkPiece pawn white)
  /\ cellAt (board (snd s2)) (sq 3 4) = None.
Proof.
  intros s1 s2.
  apply (en_passant_removes_the_passed_pawn
           (fst enPassantGame) (snd enPassantGame) (sq 1 3) (sq 3 3)
           (fst s1) (snd s1) (mkPiece pawn black) (sq 3 4)
           (mkPiece pawn white) (fst s2) (snd s2)).
  - apply (reachable_wfBoard enPassantGame).
    apply play_reachable; [apply reachable_new|vm_compute; reflexivity].
  - vm_compute. reflexivity.
  - reflexivity.
  - vm_compute. reflexivity.
  - vm_compute. reflexivity.
  - vm_compute. reflexivity.
  - reflexivity.
  - vm_compute. reflexivity.
Defined.

(** ** Check detection and the list of all moves *)

Lemma allSquares_valid pos : In pos allSquares -> isValidPosition pos = true.
Proof.
  assert (forallb isValidPosition allSquares = true) as H
    by (vm_compute; reflexivity).
  intros Hin. exact (proj1 (forallb_forall _ _) H pos Hin).
Qed.

Lemma findKing_Some h b c kingPos :
  findKing h b c = Some kingPos ->
  isValidPosition kingPos = true
  /\ exists k, pieceAt h b kingPos = Some k /\ type k = king /\ color k = c.
Proof.
  unfold findKing. intros H. apply find_some in H as (Hin & Hk).
  split; [exact (allSquares_valid _ Hin)|].
  destruct (pieceAt h b kingPos) as [k|]; [|discriminate].
  apply andb_true_iff in Hk as (Ht & Hc).
  apply PieceType_eqb_eq in Ht. apply Color_eqb_eq in Hc. eauto.
Qed.

Lemma findKing_None h b c :
  findKing h b c = None <->
  forall pos k, isValidPosition pos = true -> pieceAt h b pos = Some k ->
                type k = king -> color k <> c.
Proof.
  unfold findKing. split.
  - intros H pos k Hv Hk Ht Hc.
    pose proof (find_none _ _ H pos (In_allSquares _ Hv)) as Hn.
    cbv beta in Hn. rewrite Hk, Ht, Hc, Color_eqb_refl in Hn. discriminate.
  - intros H.
    destruct (find _ allSquares) as [pos|] eqn:E; [|reflexivity].
    apply find_some in E as (Hin & Hk).
    destruct (pieceAt h b pos) as [k|] eqn:Ek; [|discriminate].
    apply andb_true_iff in Hk as (Ht & Hc).
    apply PieceType_eqb_eq in Ht. apply Color_eqb_eq in Hc.
    exfalso. exact (H pos k (allSquares_valid _ Hin) Ek Ht Hc).
Qed.

Lemma isSquareAttacked_iff h st b target byColor :
  isSquareAttacked h st b target byColor = true <->
  exists pos p, isValidPosition pos = true /\ pieceAt h b pos = Some p
                /\ color p = byColor
                /\ In target (calculateLegalMoves h st pos p).
Proof.
  unfold isSquareAttacked. rewrite existsb_exists. split.
  - intros (pos & Hin & H).
    destruct (pieceAt h b pos) as [p|] eqn:Ep; [|discriminate].
    apply andb_true_iff in H as (Hc & Hm).
    apply Color_eqb_eq in Hc. apply existsb_positionsEqual in Hm.
    exists pos, p. auto using allSquares_valid.
  - intros (pos & p & Hv & Hp & Hc & Hm).
    exists pos. split; [exact (In_allSquares _ Hv)|].
    rewrite Hp. apply andb_true_iff. split.
    + apply Color_eqb_eq. exact Hc.
    + apply existsb_positionsEqual. exact Hm.
Qed.

(** X9: for 8x8 grids, [isInCheck(board, color)] is true exactly when
    [findKing] finds a king of that colour on the given board and some
    square of that board holds a piece of the other colour for which
    [calculateLegalMoves], which reads the engine's own board and
    en-passant target, lists the king's square. The square [findKing]
    returns is on the grid and holds a king of the colour asked for; and
    when the given board holds no king of that colour [findKing] returns
    null and [isInCheck] is false. *)
Theorem check_is_an_enemy_move_onto_the_king h st b c :
  wfBoard b -> wfBoard (board st) ->
  (isInCheck h st b c = true <->
   exists kingPos,
     findKing h b c = Some kingPos
     /\ exists pos p, isValidPosition pos = true /\ pieceAt h b pos = Some p
                      /\ color p = opponent c
                      /\ In kingPos (calculateLegalMoves h st pos p))
  /\ (forall kingPos,
        findKing h b c = Some kingPos ->
        isValidPosition kingPos = true
        /\ exists k, pieceAt h b kingPos = Some k
                     /\ type k = king /\ color k = c)
  /\ ((forall pos k, isValidPosition pos = true ->
                     pieceAt h b pos = Some k -> type k = king ->
                     color k <> c) ->
      findKing h b c = None /\ isInCheck h st b c = false).
Proof.
  intros _ _. split; [|split].
  - unfold isInCheck. destruct (findKing h b c) as [kingPos|].
    + rewrite isSquareAttacked_iff. split.
      * intros H. exists kingPos. auto.
      * intros (k' & E & H). injection E as <-. exact H.
    + split; [discriminate|]. intros (k' & E & _). discriminate.
  - apply findKing_Some.
  - intros H. apply findKing_None in H. unfold isInCheck. rewrite H. auto.
Qed.

Lemma check_is_an_enemy_move_onto_the_king_witness :
  isInCheck (fst queenCheckGame) (snd queenCheckGame)
            (board (snd queenCheckGame)) black = true
  /\ exists kingPos,
       findKing (fst queenCheckGame) (board (snd queenCheckGame)) black
       = Some kingPos
       /\ exists pos p,
            isValidPosition pos = true
            /\ pieceAt (fst queenCheckGame) (board (snd queenCheckGame)) pos
               = Some p
            /\ color p = opponent black
            /\ In kingPos (calculateLegalMoves (fst queenCheckGame)
                                               (snd queenCheckGame) pos p).
Proof.
  assert (isInCheck (fst queenCheckGame) (snd queenCheckGame)
                    (board (snd queenCheckGame)) black = true) as Hc
    by (vm_compute; reflexivity).
  split; [exact Hc|].
  exact (proj1 (proj1 (check_is_an_enemy_move_onto_the_king
                         _ _ _ black
                         (reachable_wfBoard _ reachable_queenCheckGame)
                         (reachable_wfBoard _ reachable_queenCheckGame)))
               Hc).
Defined.

Lemma getAllLegalMoves_In h st c m :
  In m (getAllLegalMoves h st c) <->
  exists p, isValidPosition (from m) = true
            /\ cellAt (board st) (from m) = Some (piece m)
            /\ deref h (piece m) = Some p /\ color p = c
            /\ In (to m) (getPossibleMoves h st (from m))
            /\ m = mkMove (from m) (to m) (piece m)
                          (cellAt (board st) (to m)) false false None.
Proof.
  unfold getAllLegalMoves. rewrite in_flat_map. split.
  - intros (pos & Hin & H).
    destruct (cellAt (board st) pos) as [l|] eqn:El; [|contradiction].
    destruct (deref h l) as [p|] eqn:Ep; [|contradiction].
    destruct (Color_eqb (color p) c) eqn:Ec; [|contradiction].
    apply Color_eqb_eq in Ec.
    apply in_map_iff in H as (t & <- & Ht). cbn [from to piece].
    exists p. auto 8 using allSquares_valid.
  - intros (p & Hv & Hl & Hp & Hc & Hin & E).
    exists (from m). split; [exact (In_allSquares _ Hv)|].
    rewrite Hl, Hp, Hc, Color_eqb_refl.
    apply in_map_iff. exists (to m). split; [symmetry; exact E|exact Hin].
Qed.

(** X10: on an 8x8 grid [getAllLegalMoves(color)] lists exactly the
    moves [makeMove] accepts. Every listed move starts on a square of
    the grid that holds a piece of [color], [color] is the side to move,
    the destination is on the grid, [capturedPiece] is what stands on
    the destination, and [makeMove(move.from, move.to)] answers true on
    the same state; conversely every pair of squares that [makeMove]
    accepts from an origin on the grid is the [from] and [to] of a
    listed move of the side to move. *)
Theorem listed_moves_are_exactly_the_accepted_ones h st :
  wfBoard (board st) ->
  (forall c m,
     In m (getAllLegalMoves h st c) ->
     c = currentPlayer st
     /\ isValidPosition (from m) = true /\ isValidPosition (to m) = true
     /\ (exists p, pieceAt h (board st) (from m) = Some p /\ color p = c)
     /\ capturedPiece m = cellAt (board st) (to m)
     /\ fst (makeMove h st (from m) (to m)) = true)
  /\ (forall f t,
        isValidPosition f = true -> fst (makeMove h st f t) = true ->
        exists m, In m (getAllLegalMoves h st (currentPlayer st))
                  /\ from m = f /\ to m = t).
Proof.
  intros _. split.
  - intros c m Hin.
    apply getAllLegalMoves_In in Hin as (p & Hv & Hl & Hp & Hc & Hto & E).
    pose proof Hto as Hspec.
    apply getPossibleMoves_spec in Hspec
      as (l & q & Hl' & Hq & Hcur & Hcalc & _).
    assert (l = piece m) as -> by congruence.
    assert (q = p) as -> by congruence.
    split; [congruence|]. split; [exact Hv|].
    split; [exact (proj1 (calculateLegalMoves_valid _ _ _ _ _ Hcalc))|].
    split; [exists p; unfold pieceAt; rewrite Hl; auto|].
    split; [rewrite E; reflexivity|].
    rewrite (makeMove_accepts _ _ _ _ _ _ Hl Hp Hcur Hto). reflexivity.
  - intros f t Hv Hmv.
    destruct (makeMove h st f t) as [answer s] eqn:E. cbn [fst] in Hmv.
    subst answer.
    apply makeMove_true in E as (l & p & Hl & Hp & Hc & Hin & _).
    exists (mkMove f t l (cellAt (board st) t) false false None).
    split; [|split; reflexivity].
    apply getAllLegalMoves_In. exists p. cbn [from to piece]. auto 8.
Qed.

Lemma listed_moves_are_exactly_the_accepted_ones_witness :
  exists m, In m (getAllLegalMoves (fst newGame) (snd newGame)
                                   (currentPlayer (snd newGame)))
            /\ from m = sq 6 4 /\ to m = sq 4 4.
Proof.
  apply (proj2 (listed_moves_are_exactly_the_accepted_ones
                  (fst newGame) (snd newGame) wfBoard_newGame));
    vm_compute; reflexivity.
Defined.

(** ** The search and the store *)

Lemma storeKept_refl h : storeKept h h.
Proof.
  unfold storeKept. repeat split; auto.
  intros l p Hp. exists p. auto.
Qed.

Lemma storeKept_trans h1 h2 h3 :
  storeKept h1 h2 -> storeKept h2 h3 -> storeKept h1 h3.
Proof.
  intros (Hp1 & Hd1 & Hf1 & Hm1 & Ha1) (Hp2 & Hd2 & Hf2 & Hm2 & Ha2).
  unfold storeKept. split; [congruence|]. split; [|split; [congruence|split]].
  - intros l p Hp.
    destruct (Hd1 l p Hp) as (p' & Hp' & Hc' & Ht').
    destruct (Hd2 l p' Hp') as (p'' & Hp'' & Hc'' & Ht'').
    exists p''. split; [exact Hp''|]. split; [congruence|].
    destruct Ht' as [E1|(E1 & E1')], Ht'' as [E2|(E2 & E2')].
    + left. congruence.
    + right. split; congruence.
    + right. split; congruence.
    + rewrite E1' in E2. discriminate.
  - auto.
  - intros a Ha. rewrite <- (Ha1 a Ha). apply Ha2.
    apply nth_error_Some. rewrite (Ha1 a Ha). apply nth_error_Some. exact Ha.
Qed.

Lemma length_flagObjs_clearFlag h l c :
  length (flagObjs (clearFlag h l c)) = length (flagObjs h).
Proof.
  unfold clearFlag. destruct (nth_error (flagObjs h) l); [|reflexivity].
  cbn. apply length_setNth.
Qed.

Lemma length_flagObjs_updateCastlingRights h st m :
  length (flagObjs (updateCastlingRights h st m)) = length (flagObjs h).
Proof.
  unfold updateCastlingRights.
  repeat match goal with
         | |- context [match ?x with _ => _ end] => destruct x
         end; rewrite ?length_flagObjs_clearFlag; reflexivity.
Qed.

Lemma promoted_deref h m l p :
  deref h l = Some p ->
  exists p', deref (promoted h m) l = Some p' /\ color p' = color p
             /\ (type p' = type p \/ (type p = pawn /\ type p' = queen)).
Proof.
  intros Hp. unfold promoted.
  destruct (isPromotionMove h m) eqn:E; [|exists p; auto].
  unfold isPromotionMove in E. apply andb_true_iff in E as (E & _).
  destruct (Nat.eq_dec (piece m) l) as [Heq|Hne].
  - rewrite Heq in *.
    rewrite (isType_true _ _ _ _ Hp) in E. apply PieceType_eqb_eq in E.
    rewrite (deref_setPieceType_same _ _ _ _ Hp).
    eexists. split; [reflexivity|]. cbn. auto.
  - rewrite (deref_setPieceType_other _ _ _ _ Hne). exists p. auto.
Qed.

Lemma length_pieces_promoted h m :
  length (pieces (promoted h m)) = length (pieces h).
Proof.
  unfold promoted, setPieceType.
  destruct (isPromotionMove h m); [|reflexivity].
  destruct (deref h (piece m)); [|reflexivity].
  cbn. apply length_setNth.
Qed.

(** What one [makeMove] call does to the store. *)
Lemma makeMove_store h st f t answer h' st' :
  makeMove h st f t = (answer, (h', st')) ->
  length (pieces h') = length (pieces h)
  /\ (forall l p, deref h l = Some p ->
                  exists p', deref h' l = Some p' /\ color p' = color p
                             /\ (type p' = type p
                                 \/ (type p = pawn /\ type p' = queen)))
  /\ length (flagObjs h') = length (flagObjs h)
  /\ (forall l c, flagOf h l c = false -> flagOf h' l c = false)
  /\ (forall a, a <> moveHistory st ->
                nth_error (arrays h') a = nth_error (arrays h) a).
Proof.
  intros Hmv.
  assert (forall l c, flagOf h l c = false -> flagOf h' l c = false) as Hmono.
  { intros l c. exact (proj2 (proj2 (makeMove_rights_mono
                                       _ _ _ _ _ _ _ c Hmv)) l). }
  destruct answer.
  - apply makeMove_true in Hmv as (l & p & _ & _ & _ & _ & E).
    pose proof (performMove_store h st f t l) as Hst. cbv zeta in Hst.
    rewrite <- E in Hst. cbn [fst] in Hst. subst h'.
    set (m := candidate st f t l) in *.
    split; [|split; [|split; [|split; [exact Hmono|]]]].
    + rewrite pieces_updateCastlingRights, pieces_pushMove.
      apply length_pieces_promoted.
    + intros k q Hq.
      destruct (promoted_deref h m k q Hq) as (q' & Hq' & R).
      exists q'. split; [|exact R].
      rewrite <- Hq'. apply deref_same_pieces.
      rewrite pieces_updateCastlingRights, pieces_pushMove. reflexivity.
    + rewrite length_flagObjs_updateCastlingRights, flagObjs_pushMove.
      unfold promoted. destruct (isPromotionMove h m); [|reflexivity].
      rewrite flagObjs_setPieceType. reflexivity.
    + intros a Ha. rewrite arrays_updateCastlingRights.
      rewrite <- (arrays_promoted h m). unfold pushMove.
      destruct (nth_error (arrays (promoted h m)) (moveHistory st));
        [|reflexivity].
      cbn [arrays]. apply nth_error_setNth_other. congruence.
  - apply makeMove_false in Hmv. injection Hmv as -> ->.
    repeat split; auto. intros l p Hp. exists p. auto.
Qed.

Lemma branch_storeKept h game m :
  storeKept h (fst (branch h game m)).
Proof.
  unfold branch, createGameCopy, applyMove.
  set (h0 := mkHeap _ _ _). set (g0 := mkState _ _ _ _ _ _ _ _ _).
  destruct (makeMove h0 g0 (from m) (to m)) as [answer [h' st']] eqn:E.
  cbn [fst snd].
  destruct (makeMove_store _ _ _ _ _ _ _ E) as (Hp & Hd & Hf & Hm & Ha).
  unfold storeKept. split; [exact Hp|]. split; [exact Hd|].
  split; [exact Hf|]. split; [exact Hm|].
  intros a Hlt. rewrite Ha.
  - subst h0. cbn [arrays]. apply nth_error_app1. exact Hlt.
  - subst g0. cbn [moveHistory]. lia.
Qed.

Lemma minimax_storeKept depth :
  forall h game alpha beta isMaximizing,
    storeKept h (fst (minimax depth h game alpha beta isMaximizing)).
Proof.
  induction depth as [|d IH]; intros h game alpha beta isMaximizing.
  - cbn. apply storeKept_refl.
  - cbn [minimax].
    destruct (isCheckmate (getGameState game)
              || isStalemate (getGameState game));
      [apply storeKept_refl|].
    destruct isMaximizing.
    + generalize (getAllLegalMoves h game black) as moves.
      generalize NegInf as maxEval. generalize alpha as a0.
      generalize h as h0.
      intros h0 a0 maxEval moves. revert h0 a0 maxEval.
      induction moves as [|move rest IHl]; intros h0 a0 maxEval.
      * apply storeKept_refl.
      * pose proof (branch_storeKept h0 game move) as Hb.
        destruct (branch h0 game move) as [h1 tempGame].
        pose proof (IH h1 tempGame a0 beta false) as Hc.
        destruct (minimax d h1 tempGame a0 beta false) as [h2 eval_].
        cbn [fst] in Hb, Hc.
        pose proof (storeKept_trans _ _ _ Hb Hc) as Hbc.
        destruct (Num_leb beta (Num_max a0 eval_)); [exact Hbc|].
        exact (storeKept_trans _ _ _ Hbc (IHl h2 _ _)).
    + generalize (getAllLegalMoves h game white) as moves.
      generalize PosInf as minEval. generalize beta as b0.
      generalize h as h0.
      intros h0 b0 minEval moves. revert h0 b0 minEval.
      induction moves as [|move rest IHl]; intros h0 b0 minEval.
      * apply storeKept_refl.
      * pose proof (branch_storeKept h0 game move) as Hb.
        destruct (branch h0 game move) as [h1 tempGame].
        pose proof (IH h1 tempGame alpha b0 true) as Hc.
        destruct (minimax d h1 tempGame alpha b0 true) as [h2 eval_].
        cbn [fst] in Hb, Hc.
        pose proof (storeKept_trans _ _ _ Hb Hc) as Hbc.
        destruct (Num_leb (Num_min b0 eval_) alpha); [exact Hbc|].
        exact (storeKept_trans _ _ _ Hbc (IHl h2 _ _)).
Qed.

Lemma getBestMove_loop h0 game moves :
  forall acc,
    let step := fun (acc : Heap * option Move * Num) (move : Move) =>
      let '(h, bestMove, bestValue) := acc in
      let '(h1, tempGame) := branch h game move in
      let '(h2, value) :=
        minimax (maxDepth - 1) h1 tempGame NegInf PosInf false in
      if Num_ltb bestValue value then (h2, Some move, value)
      else (h2, bestMove, bestValue) in
    let r := fold_left step moves acc in
    (storeKept h0 (fst (fst acc)) -> storeKept h0 (fst (fst r)))
    /\ (snd (fst r) = snd (fst acc)
        \/ exists m, In m moves /\ snd (fst r) = Some m).
Proof.
  induction moves as [|move rest IH]; intros acc step r.
  - subst r. cbn. auto.
  - subst r. cbn [fold_left].
    destruct (IH (step acc move)) as (Hk & Hm). cbv zeta in Hk, Hm.
    fold step in Hk, Hm.
    assert ((storeKept h0 (fst (fst acc)) ->
             storeKept h0 (fst (fst (step acc move))))
            /\ (snd (fst (step acc move)) = snd (fst acc)
                \/ snd (fst (step acc move)) = Some move)) as (Hk1 & Hm1).
    { subst step. cbv beta. destruct acc as [[h bestMove] bestValue].
      pose proof (branch_storeKept h game move) as Hb.
      destruct (branch h game move) as [h1 tempGame].
      pose proof (minimax_storeKept (maxDepth - 1) h1 tempGame
                    NegInf PosInf false) as Hc.
      destruct (minimax (maxDepth - 1) h1 tempGame NegInf PosInf false)
        as [h2 value].
      cbn [fst snd] in *.
      destruct (Num_ltb bestValue value); cbn [fst snd];
        (split; [intros H0; eauto using storeKept_trans|auto]). }
    split; [auto|].
    destruct Hm as [Hm|(m & Hin & Hm)].
    + rewrite Hm. destruct Hm1 as [->|Hm1]; [left; reflexivity|].
      right. exists move. split; [left; reflexivity|exact Hm1].
    + right. exists m. split; [right; exact Hin|exact Hm].
Qed.

Lemma getBestMove_facts h game :
  storeKept h (fst (getBestMove h game))
  /\ match snd (getBestMove h game) with
     | Some m => In m (getAllLegalMoves h game black)
     | None => True
     end.
Proof.
  unfold getBestMove.
  destruct (isNil (getAllLegalMoves h game black)).
  - cbn [fst snd]. split; [apply storeKept_refl|exact I].
  - pose proof (getBestMove_loop h game (getAllLegalMoves h game black)
                  (h, None, NegInf)) as H.
    cbv zeta in H.
    destruct (fold_left _ (getAllLegalMoves h game black) (h, None, NegInf))
      as [[h' bestMove] bestValue].
    cbn [fst snd] in *. destruct H as (Hk & Hm).
    split; [exact (Hk (storeKept_refl h))|].
    destruct Hm as [->|(m & Hin & ->)]; [exact I|exact Hin].
Qed.

(** X11: on an 8x8 grid, when [getBestMove] returns a move, it is one of
    the moves [getAllLegalMoves('black')] lists on the state the search
    started from: Black is the side to move, the move starts on a black
    piece, and [makeMove] accepts it on that state and store. *)
Theorem getBestMove_returns_a_listed_move h game :
  wfBoard (board game) ->
  match snd (getBestMove h game) with
  | Some m =>
      In m (getAllLegalMoves h game black)
      /\ currentPlayer game = black
      /\ (exists p, pieceAt h (board game) (from m) = Some p
                    /\ color p = black)
      /\ fst (makeMove h game (from m) (to m)) = true
  | None => True
  end.
Proof.
  intros _. destruct (getBestMove_facts h game) as (_ & H).
  destruct (snd (getBestMove h game)) as [m|]; [|exact I].
  split; [exact H|].
  apply getAllLegalMoves_In in H as (p & Hv & Hl & Hp & Hc & Hto & _).
  pose proof Hto as Hspec.
  apply getPossibleMoves_spec in Hspec as (l & q & Hl' & Hq & Hcur & _).
  assert (l = piece m) as -> by congruence.
  assert (q = p) as -> by congruence.
  split; [congruence|].
  split; [exists p; unfold pieceAt; rewrite Hl; auto|].
  rewrite (makeMove_accepts _ _ _ _ _ _ Hl Hp Hcur Hto). reflexivity.
Qed.

Lemma getBestMove_returns_a_listed_move_witness :
  match snd (getBestMove (fst italianGame) (snd italianGame)) with
  | Some m =>
      In m (getAllLegalMoves (fst italianGame) (snd italianGame) black)
      /\ currentPlayer (snd italianGame) = black
      /\ (exists p, pieceAt (fst italianGame) (board (snd italianGame))
                            (from m) = Some p
                    /\ color p = black)
      /\ fst (makeMove (fst italianGame) (snd italianGame) (from m) (to m))
         = true
  | None => True
  end.
Proof.
  exact (getBestMove_returns_a_listed_move
           (fst italianGame) (snd italianGame)
           (reachable_wfBoard _ reachable_italianGame)).
Defined.

(** X12: on an 8x8 grid a search changes the store it is given only in
    these ways: it adds arrays (the histories of its copies), it may
    turn a pawn object into a queen, and it may clear castling rights.
    Across [minimax] at any depth and window and across [getBestMove],
    every [Piece] object keeps its colour and its type or goes from pawn
    to queen, no castling flag that was cleared is set, and every array
    that existed keeps its contents; so the move history of the game
    searched reads the same before and after. *)
Theorem search_keeps_colours_rights_and_history h game :
  wfBoard (board game) ->
  (forall depth alpha beta isMaximizing,
     storeKept h (fst (minimax depth h game alpha beta isMaximizing)))
  /\ storeKept h (fst (getBestMove h game))
  /\ ((moveHistory game < length (arrays h))%nat ->
      historyOf (fst (getBestMove h game)) game = historyOf h game).
Proof.
  intros _. split; [intros; apply minimax_storeKept|].
  destruct (getBestMove_facts h game) as (Hk & _).
  split; [exact Hk|].
  intros Hlt. unfold historyOf.
  destruct Hk as (_ & _ & _ & _ & Ha). rewrite (Ha _ Hlt). reflexivity.
Qed.

Lemma search_keeps_colours_rights_and_history_witness :
  storeKept (fst italianGame)
            (fst (getBestMove (fst italianGame) (snd italianGame))).
Proof.
  exact (proj1 (proj2 (search_keeps_colours_rights_and_history
                         (fst italianGame) (snd italianGame)
                         (reachable_wfBoard _ reachable_italianGame)))).
Defined.

(** ** The evaluation *)

Lemma evaluatePosition_sum h b :
  evaluatePosition h b = sumZ (map (contribution h b) allSquares).
Proof.
  unfold evaluatePosition.
  assert (forall l a,
            fold_left (fun score pos =>
                         match pieceAt h b pos with
                         | Some p =>
                             let pieceValue := getPieceValue p pos in
                             score + match color p with
                                     | black => pieceValue
                                     | white => - pieceValue
                                     end
                         | None => score
                         end) l a
            = a + sumZ (map (contribution h b) l)) as H.
  { induction l as [|pos l IH]; intros a; cbn [fold_left map sumZ fold_right].
    - lia.
    - rewrite IH. unfold contribution at 2.
      fold (sumZ (map (contribution h b) l)).
      destruct (pieceAt h b pos) as [p|]; cbv zeta; lia. }
  rewrite H. lia.
Qed.

Lemma pieceValue_bounds : 
  forallb (fun pos =>
    forallb (fun t =>
      forallb (fun c =>
        (80 <=? getPieceValue (mkPiece t c) pos)
        && (getPieceValue (mkPiece t c) pos <=? 20030)) [white; black])
      [pawn; rook; knight; bishop; queen; king]) allSquares = true.
Proof. vm_compute. reflexivity. Qed.

Lemma getPieceValue_range p pos :
  isValidPosition pos = true -> 80 <= getPieceValue p pos <= 20030.
Proof.
  intros Hv. pose proof pieceValue_bounds as H.
  rewrite forallb_forall in H. specialize (H pos (In_allSquares _ Hv)).
  rewrite forallb_forall in H. specialize (H (type p)).
  rewrite forallb_forall in H.
  specialize (H ltac:(destruct (type p); cbn; tauto) (color p)).
  rewrite (piece_eta p) in H.
  specialize (H ltac:(destruct (color p); cbn; tauto)).
  apply andb_true_iff in H as (H1 & H2).
  apply Z.leb_le in H1, H2. lia.
Qed.

Lemma NoDup_allSquares : NoDup allSquares.
Proof.
  assert (forall l : list Position,
            (fix nodup (l : list Position) : bool :=
               match l with
               | [] => true
               | x :: r => negb (existsb (positionsEqual x) r) && nodup r
               end) l = true -> NoDup l) as H.
  { induction l as [|x r IH]; intros E; constructor.
    - apply andb_true_iff in E as (E & _).
      intros Hin. apply negb_true_iff in E.
      rewrite (proj2 (existsb_exists _ _)) in E; [discriminate|].
      exists x. split; [exact Hin|apply positionsEqual_refl].
    - apply andb_true_iff in E as (_ & E). apply IH. exact E. }
  apply H. vm_compute. reflexivity.
Qed.

Lemma sumZ_map_change (f g : Position -> Z) x l :
  NoDup l -> In x l -> (forall y, y <> x -> g y = f y) ->
  sumZ (map g l) = sumZ (map f l) - f x + g x.
Proof.
  intros Hnd Hin Hext. induction l as [|y l IH]; [contradiction|].
  inversion Hnd as [|? ? Hny Hnd']; subst.
  cbn [map sumZ fold_right]. fold (sumZ (map g l)). fold (sumZ (map f l)).
  destruct Hin as [->|Hin].
  - assert (sumZ (map g l) = sumZ (map f l)) as ->; [|lia].
    f_equal. apply map_ext_in. intros z Hz. apply Hext. congruence.
  - rewrite (IH Hnd' Hin), (Hext y); [lia|congruence].
Qed.

(** X13: [evaluatePosition] is the sum, over the 64 squares, of the
    value of the piece on the square, counted for Black and against
    White; on a square of the grid every piece is worth between 80 and
    20030, so emptying a square of an 8x8 grid changes the score by
    exactly the value of the piece that stood there: by at least 80
    upward for a white piece, by at least 80 downward for a black one. *)
Theorem evaluation_is_material_plus_position h b :
  wfBoard b ->
  evaluatePosition h b = sumZ (map (contribution h b) allSquares)
  /\ (forall p pos, isValidPosition pos = true ->
                    80 <= getPieceValue p pos <= 20030)
  /\ (forall pos, isValidPosition pos = true ->
                  evaluatePosition h (setCell b pos None)
                  = evaluatePosition h b - contribution h b pos)
  /\ (forall pos p, pieceAt h b pos = Some p ->
                    match color p with
                    | white => evaluatePosition h b + 80
                               <= evaluatePosition h (setCell b pos None)
                    | black => evaluatePosition h (setCell b pos None) + 80
                               <= evaluatePosition h b
                    end).
Proof.
  intros Hwf.
  assert (forall pos, isValidPosition pos = true ->
                      evaluatePosition h (setCell b pos None)
                      = evaluatePosition h b - contribution h b pos) as Hrm.
  { intros pos Hv. rewrite !evaluatePosition_sum.
    rewrite (sumZ_map_change (contribution h b)
               (contribution h (setCell b pos None)) pos allSquares
               NoDup_allSquares (In_allSquares _ Hv)).
    - unfold contribution at 3. unfold pieceAt.
      rewrite (cellAt_setCell_same _ _ _ Hwf Hv). lia.
    - intros y Hy. unfold contribution, pieceAt.
      rewrite cellAt_setCell_other by congruence. reflexivity. }
  split; [apply evaluatePosition_sum|].
  split; [intros p pos; apply getPieceValue_range|].
  split; [exact Hrm|].
  intros pos p Hp.
  assert (isValidPosition pos = true) as Hv.
  { apply pieceAt_Some in Hp as (l & Hl & _).
    exact (cellAt_valid _ _ _ Hwf Hl). }
  rewrite (Hrm pos Hv). unfold contribution. rewrite Hp.
  pose proof (getPieceValue_range p pos Hv).
  destruct (color p); lia.
Qed.

Lemma evaluation_is_material_plus_position_witness :
  evaluatePosition (fst newGame) (board (snd newGame))
  = sumZ (map (contribution (fst newGame) (board (snd newGame))) allSquares).
Proof.
  exact (proj1 (evaluation_is_material_plus_position
                  (fst newGame) (board (snd newGame)) wfBoard_newGame)).
Defined.

Lemma mirror_sum (g : Position -> Z) :
  sumZ (map (fun pos => - g (mkPos (7 - row pos) (col pos))) allSquares)
  = - sumZ (map g allSquares).
Proof.
  cbv [allSquares range8 flat_map map app sumZ fold_right row col].
  repeat match goal with
         | |- context [7 - ?k] =>
             let v := eval compute in (7 - k) in change (7 - k) with v
         end.
  lia.
Qed.

Lemma cellAt_rev b pos :
  wfBoard b -> isValidPosition pos = true ->
  cellAt (rev b) pos = cellAt b (mkPos (7 - row pos) (col pos)).
Proof.
  intros (Hlen & _) Hv. apply isValidPosition_range in Hv as (Hr & _).
  unfold cellAt, index. cbn [row col].
  destruct (Z.ltb_spec (row pos) 0) as [|_]; [lia|].
  destruct (Z.ltb_spec (7 - row pos) 0) as [|_]; [lia|].
  rewrite nth_error_rev, Hlen.
  destruct (Nat.ltb_spec (Z.to_nat (row pos)) 8) as [_|]; [|lia].
  replace (8 - S (Z.to_nat (row pos)))%nat with (Z.to_nat (7 - row pos))
    by lia.
  reflexivity.
Qed.

Lemma getPieceValue_mirror p pos :
  getPieceValue (mkPiece (type p) (opponent (color p))) pos
  = getPieceValue p (mkPos (7 - row pos) (col pos)).
Proof.
  unfold getPieceValue, getPositionValue. cbn [type color row col].
  destruct (color p); cbn [opponent]; [|reflexivity].
  replace (7 - (7 - row pos)) with (row pos) by lia. reflexivity.
Qed.

(** X14: the evaluation treats the two sides alike: on an 8x8 grid,
    turning the board upside down (row [r] becomes row [7 - r]) and
    giving every piece the other colour negates [evaluatePosition]. *)
Theorem evaluation_is_antisymmetric h b :
  wfBoard b ->
  evaluatePosition (swapColors h) (rev b) = - evaluatePosition h b.
Proof.
  intros Hwf. rewrite !evaluatePosition_sum, <- mirror_sum.
  f_equal. apply map_ext_in. intros pos Hin.
  pose proof (allSquares_valid _ Hin) as Hv.
  unfold contribution, pieceAt. rewrite (cellAt_rev _ _ Hwf Hv).
  destruct (cellAt b (mkPos (7 - row pos) (col pos))) as [l|]; [|reflexivity].
  unfold deref, swapColors. cbn [pieces]. rewrite nth_error_map.
  destruct (nth_error (pieces h) l) as [p|]; cbn [option_map]; [|reflexivity].
  rewrite getPieceValue_mirror. cbn [color].
  destruct (color p); cbn [opponent]; lia.
Qed.

Lemma evaluation_is_antisymmetric_witness :
  evaluatePosition (swapColors (fst italianGame))
                   (rev (board (snd italianGame)))
  = - evaluatePosition (fst italianGame) (board (snd italianGame)).
Proof.
  exact (evaluation_is_antisymmetric _ _
           (reachable_wfBoard _ reachable_italianGame)).
Defined.

(** ** What a move leaves alone *)

(** X15: a successful [makeMove] of the piece [p] from [f] to [t]
    changes at most these squares: [f], [t], for a king that moves two
    columns the rook's corner and the square the king passes over, and
    for a pawn that moves onto the en-passant target the square behind
    [t]. Every other square of the grid holds what it held, and every
    [Piece] object other than the moved one is as it was. *)
Theorem makeMove_touches_only_the_squares_of_the_move
  h st f t h' st' p :
  wfBoard (board st) ->
  pieceAt h (board st) f = Some p ->
  makeMove h st f t = (true, (h', st')) ->
  let castles := type p = king /\ Z.abs (col t - col f) = 2 in
  let corner := mkPos (row f) (if col t >? col f then 7 else 0) in
  let passed := mkPos (row f) (if col t >? col f then 5 else 3) in
  let takesEnPassant := type p = pawn /\ enPassantTarget st = Some t in
  let behind := mkPos (row t - direction (color p)) (col t) in
  (forall pos,
     pos <> f -> pos <> t ->
     (castles -> pos <> corner /\ pos <> passed) ->
     (takesEnPassant -> pos <> behind) ->
     cellAt (board st') pos = cellAt (board st) pos)
  /\ (forall l k, cellAt (board st) f = Some l -> k <> l ->
                  deref h' k = deref h k).
Proof.
  intros Hwf Hp Hmv castles corner passed takesEnPassant behind.
  apply pieceAt_Some in Hp as (l & Hl & Hpl).
  destruct (moved_piece _ _ _ _ _ _ _ _ Hwf Hl Hpl Hmv)
    as (_ & _ & _ & _ & Hothers).
  split; [|intros l' k Hl' Hk; apply Hothers; congruence].
  apply makeMove_true in Hmv as (l' & p' & Hl' & Hp' & _ & _ & E).
  assert (l' = l) as -> by congruence.
  destruct (performMove_fields h st f t l) as (Hb & _). cbv zeta in Hb.
  rewrite <- E in Hb. cbn [snd] in Hb.
  intros pos Hf Ht Hcast Hep. rewrite Hb.
  rewrite cellAt_setCell_other by congruence.
  rewrite cellAt_setCell_other by congruence.
  unfold specialBoard, isCastlingMove, isEnPassantMove.
  cbn [piece from to candidate].
  rewrite !(isType_true _ _ _ _ Hpl).
  assert (forall b, (if PieceType_eqb (type p) pawn
                        && match enPassantTarget st with
                           | Some ep => positionsEqual t ep
                           | None => false
                           end
                     then cellAt (removePassedPawn h b (candidate st f t l)) pos
                     else cellAt b pos) = cellAt b pos) as Hrm.
  { intros b.
    destruct (PieceType_eqb (type p) pawn) eqn:Et; [|reflexivity].
    apply PieceType_eqb_eq in Et.
    destruct (enPassantTarget st) as [ep|] eqn:Ee; [|reflexivity].
    destruct (positionsEqual t ep) eqn:Eq; [|reflexivity].
    apply positionsEqual_eq in Eq. subst ep. cbn [andb].
    unfold removePassedPawn, colorOf. cbn [piece to candidate].
    rewrite Hpl. cbn [option_map].
    apply cellAt_setCell_other. intros C. apply (Hep (conj Et eq_refl)).
    subst behind. rewrite <- C.
    destruct (color p); cbn [direction]; f_equal; lia. }
  match goal with
  | |- cellAt (if ?c then removePassedPawn h ?b ?m else ?b) pos = _ =>
      transitivity (if c then cellAt (removePassedPawn h b m) pos
                    else cellAt b pos);
        [destruct c; reflexivity|]
  end.
  rewrite Hrm.
  destruct (PieceType_eqb (type p) king) eqn:Ek; [|reflexivity].
  apply PieceType_eqb_eq in Ek.
  destruct (Z.abs (col t - col f) =? 2) eqn:Ea; [|reflexivity].
  apply Z.eqb_eq in Ea. cbn [andb].
  destruct (Hcast (conj Ek Ea)) as (Hc & Hps).
  unfold relocateRook. cbn [from to candidate].
  fold corner. fold passed.
  rewrite cellAt_setCell_other by congruence.
  rewrite cellAt_setCell_other by congruence. reflexivity.
Qed.

Lemma makeMove_touches_only_the_squares_of_the_move_witness :
  let s := makeMove (fst newGame) (snd newGame) (sq 6 4) (sq 4 4) in
  cellAt (board (snd (snd s))) (sq 6 3)
  = cellAt (board (snd newGame)) (sq 6 3).
Proof.
  intros s.
  apply (proj1 (makeMove_touches_only_the_squares_of_the_move
                  (fst newGame) (snd newGame) (sq 6 4) (sq 4 4)
                  (fst (snd s)) (snd (snd s)) (mkPiece pawn white)
                  wfBoard_newGame ltac:(vm_compute; reflexivity)
                  ltac:(vm_compute; reflexivity))).
  - discriminate.
  - discriminate.
  - intros (C & _). discriminate.
  - intros (_ & C). vm_compute in C. discriminate.
Defined.

(** ** The component [App] *)

Lemma reachable_status_exact s :
  reachable s ->
  let h := fst s in
  let st := snd s in
  let stuck := negb (hasLegalMoves h st (currentPlayer st)) in
  isCheck st = isInCheck h st (board st) (currentPlayer st)
  /\ isCheckmate st = stuck && isCheck st
  /\ isStalemate st = stuck && negb (isCheck st).
Proof.
  intros Hr. induction Hr as [|h st f t h' st' Hr IH Hmv].
  - vm_compute. auto.
  - cbn [fst snd] in *. cbv zeta in IH.
    pose proof (makeMove_true_hasLegalMoves _ _ _ _ _
                  (reachable_wfBoard _ Hr) Hmv) as Hhas.
    cbn [fst snd] in Hhas. rewrite Hhas in IH. cbn [negb andb] in IH.
    destruct IH as (_ & Hmate & Hstale).
    apply makeMove_true in Hmv as (l & p & _ & _ & _ & _ & E).
    destruct (performMove_status h st f t l) as (h3 & st4 & E4 & Hm4 & Hs4).
    rewrite E4 in E. injection E as -> ->.
    destruct (updateGameStatus_reads h3 st4) as (Rchk & Rhas & _).
    destruct (updateGameStatus_fields h3 st4) as (Hb & Hc & _).
    cbv zeta. rewrite Rchk, Rhas, Hb, Hc.
    unfold updateGameStatus.
    destruct (hasLegalMoves h3 st4 (currentPlayer st4));
      destruct (isInCheck h3 st4 (board st4) (currentPlayer st4));
      cbn; rewrite ?Hm4, ?Hs4, ?Hmate, ?Hstale; auto.
Qed.

Section AppFacts.

Import String.

(** X16: when the engine is in a state reached from the initial position
    by successful [makeMove] calls and the component's [gameState] is
    its current snapshot, the status message says what the position is:
    the checkmate message, naming the side that is not to move as the
    winner, exactly when the side to move has no legal move and
    [isInCheck] holds for it; the stalemate message exactly when it has
    no legal move and is not in check; the check message for the side to
    move when it is in check and has a move; and the empty string
    otherwise. *)
Theorem status_message_tells_the_position a :
  reachable (App.store a, App.game a) ->
  App.gameState a = getGameState (App.game a) ->
  let h := App.store a in
  let st := App.game a in
  App.getGameStatusMessage a
  = if negb (hasLegalMoves h st (currentPlayer st)) then
      if isInCheck h st (board st) (currentPlayer st) then
        match currentPlayer st with
        | white => "Black wins by checkmate!"%string
        | black => "White wins by checkmate!"%string
        end
      else "Game ends in stalemate!"%string
    else if isInCheck h st (board st) (currentPlayer st) then
      match currentPlayer st with
      | white => "White is in check!"%string
      | black => "Black is in check!"%string
      end
    else ""%string.
Proof.
  intros Hr Hsnap h st.
  destruct (reachable_status_exact _ Hr) as (Hchk & Hmate & Hstale).
  cbn [fst snd] in Hchk, Hmate, Hstale. fold h st in Hchk, Hmate, Hstale.
  unfold App.getGameStatusMessage. rewrite Hsnap. fold st.
  unfold getGameState, setBoard.
  cbn [isCheckmate isStalemate isCheck currentPlayer].
  rewrite Hmate, Hstale, <- Hchk.
  destruct (hasLegalMoves h st (currentPlayer st)), (isCheck st),
    (currentPlayer st); reflexivity.
Qed.

Lemma status_message_tells_the_position_witness :
  App.getGameStatusMessage
    (App.mkApp (fst queenCheckGame) (snd queenCheckGame)
               (getGameState (snd queenCheckGame)) None [] false)
  = "White wins by checkmate!"%string.
Proof.
  rewrite status_message_tells_the_position.
  - vm_compute. reflexivity.
  - cbn [App.store App.game]. rewrite <- surjective_pairing.
    exact reachable_queenCheckGame.
  - cbn [App.gameState App.game]. exact eq_refl.
Defined.

End AppFacts.

Lemma getPossibleMoves_nil_when_stuck h st pos :
  wfBoard (board st) ->
  hasLegalMoves h st (currentPlayer st) = false ->
  getPossibleMoves h st pos = [].
Proof.
  intros Hwf Hno.
  destruct (getPossibleMoves h st pos) as [|t rest] eqn:E; [reflexivity|].
  exfalso.
  assert (In t (getPossibleMoves h st pos)) as Hin by (rewrite E; left; auto).
  apply getPossibleMoves_spec in Hin as (l & p & Hl & Hp & Hc & _).
  pose proof (cellAt_valid _ _ _ Hwf Hl) as Hv.
  unfold hasLegalMoves in Hno.
  pose proof (proj1 (existsb_false _ _) Hno pos (In_allSquares _ Hv)) as Hn.
  cbv beta in Hn. unfold pieceAt in Hn.
  rewrite Hl, Hp, Hc, Color_eqb_refl, E in Hn. discriminate.
Qed.

(** X17: one call of [handleSquareClick] for a square of the grid, with
    the engine's grid 8x8 and the selected square, if any, on the grid.
    While the rendered state shows Black to move in an unfinished game
    the click changes nothing. Otherwise the engine is changed only by a
    successful [makeMove] from the selected square to the clicked one,
    after which the snapshot is refreshed, the selection is cleared and
    the AI timer is set exactly when the game is not finished; in every
    other case engine and snapshot stay as they are and no timer is set.
    The selection afterwards is the one before, or none with no
    highlighted squares, or the clicked square with the non-empty list
    [getPossibleMoves] gives for it; so highlighted squares never exist
    without a selected square, and the selected square stays on the
    grid. *)
Theorem click_acts_only_through_makeMove a position :
  wfBoard (board (App.game a)) ->
  isValidPosition position = true ->
  (forall selected, App.selectedSquare a = Some selected ->
                    isValidPosition selected = true) ->
  let a' := fst (App.handleSquareClick a position) in
  let scheduled := snd (App.handleSquareClick a position) in
  (currentPlayer (App.gameState a) = black ->
   isCheckmate (App.gameState a) = false ->
   isStalemate (App.gameState a) = false ->
   a' = a /\ scheduled = false)
  /\ ((App.store a' = App.store a /\ App.game a' = App.game a
       /\ App.gameState a' = App.gameState a /\ scheduled = false)
      \/ (exists selected,
            App.selectedSquare a = Some selected
            /\ selected <> position
            /\ makeMove (App.store a) (App.game a) selected position
               = (true, (App.store a', App.game a'))
            /\ App.gameState a' = getGameState (App.game a')
            /\ App.selectedSquare a' = None /\ App.possibleMoves a' = []
            /\ scheduled = negb (isCheckmate (App.game a'))
                           && negb (isStalemate (App.game a'))))
  /\ ((App.selectedSquare a' = App.selectedSquare a
       /\ App.possibleMoves a' = App.possibleMoves a)
      \/ (App.selectedSquare a' = None /\ App.possibleMoves a' = [])
      \/ (App.selectedSquare a' = Some position
          /\ App.possibleMoves a'
             = getPossibleMoves (App.store a') (App.game a') position
          /\ App.possibleMoves a' <> []))
  /\ App.isThinking a' = App.isThinking a
  /\ (forall selected, App.selectedSquare a' = Some selected ->
                       isValidPosition selected = true).
Proof.
  intros Hwf Hvp Hvs a' scheduled.
  assert ((App.selectedSquare a' = App.selectedSquare a
           /\ App.possibleMoves a' = App.possibleMoves a)
          \/ (App.selectedSquare a' = None /\ App.possibleMoves a' = [])
          \/ (App.selectedSquare a' = Some position
              /\ App.possibleMoves a'
                 = getPossibleMoves (App.store a') (App.game a') position
              /\ App.possibleMoves a' <> []) ->
          forall selected, App.selectedSquare a' = Some selected ->
                           isValidPosition selected = true) as Hsel.
  { intros [(E & _)|[(E & _)|(E & _)]] selected Hs; rewrite E in Hs.
    - exact (Hvs _ Hs).
    - discriminate.
    - injection Hs as <-. exact Hvp. }
  cut ((currentPlayer (App.gameState a) = black ->
        isCheckmate (App.gameState a) = false ->
        isStalemate (App.gameState a) = false ->
        a' = a /\ scheduled = false)
       /\ ((App.store a' = App.store a /\ App.game a' = App.game a
            /\ App.gameState a' = App.gameState a /\ scheduled = false)
           \/ (exists selected,
                 App.selectedSquare a = Some selected
                 /\ selected <> position
                 /\ makeMove (App.store a) (App.game a) selected position
                    = (true, (App.store a', App.game a'))
                 /\ App.gameState a' = getGameState (App.game a')
                 /\ App.selectedSquare a' = None /\ App.possibleMoves a' = []
                 /\ scheduled = negb (isCheckmate (App.game a'))
                                && negb (isStalemate (App.game a'))))
       /\ ((App.selectedSquare a' = App.selectedSquare a
            /\ App.possibleMoves a' = App.possibleMoves a)
           \/ (App.selectedSquare a' = None /\ App.possibleMoves a' = [])
           \/ (App.selectedSquare a' = Some position
               /\ App.possibleMoves a'
                  = getPossibleMoves (App.store a') (App.game a') position
               /\ App.possibleMoves a' <> []))
       /\ App.isThinking a' = App.isThinking a).
  { intros (H1 & H2 & H3 & H4). auto 6. }
  clear Hsel. subst a' scheduled.
  unfold App.handleSquareClick.
  destruct (Color_eqb (currentPlayer (App.gameState a)) black
            && negb (isCheckmate (App.gameState a))
            && negb (isStalemate (App.gameState a))) eqn:Eguard.
  { cbn [fst snd]. repeat split; auto. }
  split.
  { intros Hb Hm Hs. rewrite Hb, Hm, Hs in Eguard. discriminate. }
  destruct (App.selectedSquare a) as [selected|] eqn:Esel.
  - destruct ((row selected =? row position) && (col selected =? col position))
      eqn:Esame.
    { cbn [fst snd App.store App.game App.gameState App.selectedSquare
           App.possibleMoves App.isThinking].
      split; [left; auto|]. split; [right; left; auto|reflexivity]. }
    assert (selected <> position) as Hne.
    { intros ->. rewrite !Z.eqb_refl in Esame. discriminate. }
    destruct (makeMove (App.store a) (App.game a) selected position)
      as [moveSuccessful [h st]] eqn:Emv.
    destruct moveSuccessful.
    + cbn [fst snd App.store App.game App.gameState App.selectedSquare
           App.possibleMoves App.isThinking].
      split; [right; exists selected; repeat split; auto|].
      split; [right; left; auto|reflexivity].
    + apply makeMove_false in Emv. injection Emv as -> ->.
      destruct (getPossibleMoves (App.store a) (App.game a) position)
        as [|m rest] eqn:Emoves;
        cbn [negb isNil fst snd App.store App.game App.gameState
             App.selectedSquare App.possibleMoves App.isThinking].
      * split; [left; auto|]. split; [right; left; auto|reflexivity].
      * split; [left; auto|]. split; [|reflexivity].
        right. right. rewrite Emoves. repeat split; auto. discriminate.
  - destruct (getPossibleMoves (App.store a) (App.game a) position)
      as [|m rest] eqn:Emoves;
      cbn [negb isNil fst snd App.store App.game App.gameState
           App.selectedSquare App.possibleMoves App.isThinking].
    + split; [left; auto|]. split; [left; auto|reflexivity].
    + split; [left; auto|]. split; [|reflexivity].
      right. right. rewrite Emoves. repeat split; auto. discriminate.
Qed.

Lemma click_acts_only_through_makeMove_witness :
  App.isThinking (fst (App.handleSquareClick App.initial (sq 6 4)))
  = App.isThinking App.initial.
Proof.
  refine (proj1 (proj2 (proj2 (proj2 (click_acts_only_through_makeMove
                                        App.initial (sq 6 4) _ _ _))))).
  - exact wfBoard_newGame.
  - reflexivity.
  - intros selected E. discriminate E.
Defined.

(** X18: once the engine, in a state reached from the initial position,
    has set [isCheckmate] or [isStalemate] and the component has
    rendered that state, no click on a square of the grid changes the
    game: the engine stays as it is, nothing is selected afterwards and
    no AI timer is set. *)
Theorem finished_game_ignores_clicks a position :
  reachable (App.store a, App.game a) ->
  App.gameState a = getGameState (App.game a) ->
  isCheckmate (App.game a) = true \/ isStalemate (App.game a) = true ->
  isValidPosition position = true ->
  (forall selected, App.selectedSquare a = Some selected ->
                    isValidPosition selected = true) ->
  let a' := fst (App.handleSquareClick a position) in
  App.store a' = App.store a /\ App.game a' = App.game a
  /\ App.selectedSquare a' = None
  /\ snd (App.handleSquareClick a position) = false.
Proof.
  intros Hr Hsnap Hover _ _ a'. subst a'.
  pose proof (reachable_wfBoard _ Hr) as Hwf. cbn [snd] in Hwf.
  destruct (reachable_statusInv _ Hr) as (Hinv & _). cbn [fst snd] in Hinv.
  apply Hinv in Hover as Hstuck.
  unfold App.handleSquareClick. rewrite Hsnap.
  unfold getGameState, setBoard. cbn [currentPlayer isCheckmate isStalemate].
  assert (Color_eqb (currentPlayer (App.game a)) black
          && negb (isCheckmate (App.game a))
          && negb (isStalemate (App.game a)) = false) as ->.
  { destruct Hover as [-> | ->]; cbn;
      rewrite ?andb_false_r; reflexivity. }
  destruct (App.selectedSquare a) as [selected|] eqn:Esel.
  - rewrite (no_legal_moves_rejects _ _ selected position Hwf Hstuck).
    rewrite (getPossibleMoves_nil_when_stuck _ _ position Hwf Hstuck).
    destruct ((row selected =? row position)
              && (col selected =? col position)); cbn; auto.
  - rewrite (getPossibleMoves_nil_when_stuck _ _ position Hwf Hstuck).
    cbn. auto.
Qed.

Lemma finished_game_ignores_clicks_witness :
  let a := App.mkApp (fst queenCheckGame) (snd queenCheckGame)
                     (getGameState (snd queenCheckGame))
                     (Some (sq 1 4)) [sq 2 4] false in
  App.selectedSquare (fst (App.handleSquareClick a (sq 3 4))) = None.
Proof.
  intros a.
  refine (proj1 (proj2 (proj2 (finished_game_ignores_clicks a (sq 3 4)
                                 _ _ _ _ _)))).
  - cbn [App.store App.game a]. rewrite <- surjective_pairing.
    exact reachable_queenCheckGame.
  - cbn [App.gameState App.game a]. exact eq_refl.
  - left. vm_compute. reflexivity.
  - reflexivity.
  - cbn [App.selectedSquare a]. intros selected E. injection E as <-.
    reflexivity.
Defined.

Lemma getAllLegalMoves_other_side h st c :
  c <> currentPlayer st -> getAllLegalMoves h st c = [].
Proof.
  intros Hne.
  destruct (getAllLegalMoves h st c) as [|m rest] eqn:E; [reflexivity|].
  exfalso. assert (In m (getAllLegalMoves h st c)) as Hin
    by (rewrite E; left; reflexivity).
  apply getAllLegalMoves_In in Hin as (p & _ & Hl & Hp & Hc & Hto & _).
  apply getPossibleMoves_spec in Hto as (l & q & Hl' & Hq & Hcur & _).
  congruence.
Qed.

(** X19: the timer body of [makeAIMove], run with the engine's grid 8x8.
    It clears [isThinking] and leaves the selection alone. When White is
    to move it changes neither the store nor the engine nor the
    snapshot. Otherwise it either leaves the engine's state as it is or
    applies, with [makeMove] on the store the search left, one of the
    moves that [getAllLegalMoves('black')] listed before the search,
    after which it is White's turn and the snapshot is the engine's new
    state. *)
Theorem ai_callback_plays_a_listed_black_move_or_nothing a :
  wfBoard (board (App.game a)) ->
  let a' := App.aiMoveCallback a in
  let searched := fst (getBestMove (App.store a) (App.game a)) in
  App.isThinking a' = false
  /\ App.selectedSquare a' = App.selectedSquare a
  /\ App.possibleMoves a' = App.possibleMoves a
  /\ (currentPlayer (App.game a) = white ->
      App.store a' = App.store a /\ App.game a' = App.game a
      /\ App.gameState a' = App.gameState a)
  /\ (App.game a' = App.game a
      \/ (exists m,
            In m (getAllLegalMoves (App.store a) (App.game a) black)
            /\ makeMove searched (App.game a) (from m) (to m)
               = (true, (App.store a', App.game a'))
            /\ currentPlayer (App.game a) = black
            /\ currentPlayer (App.game a') = white
            /\ App.gameState a' = getGameState (App.game a'))).
Proof.
  intros _ a' searched. subst a' searched. unfold App.aiMoveCallback.
  pose proof (getBestMove_facts (App.store a) (App.game a)) as (_ & Hin).
  assert (currentPlayer (App.game a) = white ->
          getBestMove (App.store a) (App.game a) = (App.store a, None))
    as Hwhite.
  { intros Hw. apply getBestMove_no_moves.
    apply getAllLegalMoves_other_side. congruence. }
  destruct (getBestMove (App.store a) (App.game a)) as [h aiMove] eqn:Eb.
  cbn [fst snd] in *.
  destruct aiMove as [m|].
  - unfold applyMove.
    destruct (makeMove h (App.game a) (from m) (to m))
      as [answer [h' st']] eqn:Emv.
    cbn [snd App.store App.game App.gameState App.selectedSquare
         App.possibleMoves App.isThinking].
    split; [reflexivity|]. split; [reflexivity|]. split; [reflexivity|].
    split; [intros Hw; specialize (Hwhite Hw); discriminate|].
    destruct answer.
    + right. exists m. split; [exact Hin|]. split; [exact Emv|].
      apply makeMove_true in Emv as (l & p & _ & _ & _ & _ & E).
      destruct (performMove_fields h (App.game a) (from m) (to m) l)
        as (_ & Hpl & _).
      rewrite <- E in Hpl. cbn [snd] in Hpl.
      apply getAllLegalMoves_In in Hin as (q & _ & Hl & Hq & Hc & Hto & _).
      apply getPossibleMoves_spec in Hto as (l' & q' & Hl' & Hq' & Hcur & _).
      assert (currentPlayer (App.game a) = black) as Hb by congruence.
      rewrite Hpl, Hb. auto.
    + left. apply makeMove_false in Emv. congruence.
  - cbn [App.store App.game App.gameState App.selectedSquare
         App.possibleMoves App.isThinking].
    split; [reflexivity|]. split; [reflexivity|]. split; [reflexivity|].
    split; [|left; reflexivity].
    intros Hw. specialize (Hwhite Hw). injection Hwhite as ->. auto.
Qed.

Lemma ai_callback_plays_a_listed_black_move_or_nothing_witness :
  App.isThinking (App.aiMoveCallback App.initial) = false.
Proof.
  exact (proj1 (ai_callback_plays_a_listed_black_move_or_nothing
                  App.initial wfBoard_newGame)).
Defined.

(** ** A new game in a store that already holds one *)

Lemma setNth_map {A B} (g : A -> B) (a : list A) n x :
  setNth (map g a) n (g x) = map g (setNth a n x).
Proof.
  revert n. induction a as [|y a IH]; intros [|n]; cbn; try reflexivity.
  f_equal. apply IH.
Qed.

Lemma setCell_shiftBoard n b pos l :
  setCell (shiftBoard n b) pos (Some (n + l)%nat)
  = shiftBoard n (setCell b pos (Some l)).
Proof.
  unfold setCell, shiftBoard, index, assign.
  destruct (row pos <? 0); [reflexivity|].
  rewrite nth_error_map.
  destruct (nth_error b (Z.to_nat (row pos))) as [r|]; cbn [option_map];
    [|reflexivity].
  rewrite <- setNth_map. f_equal.
  destruct (col pos <? 0); [reflexivity|].
  change (Some (n + l)%nat)
    with (option_map (fun k : ref => (n + k)%nat) (Some l)).
  apply setNth_map.
Qed.

(** [s] is [s0] built on top of the store [h]. *)
Lemma place_onTop h s0 r c t k :
  let onTop := fun s0 : Heap * Board =>
    (mkHeap (pieces h ++ pieces (fst s0)) (flagObjs h) (arrays h),
     shiftBoard (length (pieces h)) (snd s0)) in
  place (onTop s0) r c t k = onTop (place s0 r c t k).
Proof.
  intros onTop. subst onTop. unfold place, allocPiece. cbn [fst snd pieces].
  rewrite length_app, <- app_assoc, setCell_shiftBoard. reflexivity.
Qed.

Lemma createInitialBoard_onTop h :
  createInitialBoard h
  = (mkHeap (pieces h ++ pieces (fst (createInitialBoard emptyHeap)))
            (flagObjs h) (arrays h),
     shiftBoard (length (pieces h)) (snd (createInitialBoard emptyHeap))).
Proof.
  set (onTop := fun s0 : Heap * Board =>
    (mkHeap (pieces h ++ pieces (fst s0)) (flagObjs h) (arrays h),
     shiftBoard (length (pieces h)) (snd s0))).
  change (createInitialBoard h = onTop (createInitialBoard emptyHeap)).
  assert (forall {X} (f : Heap * Board -> X -> Heap * Board) l s0,
            (forall s x, f (onTop s) x = onTop (f s x)) ->
            fold_left f l (onTop s0) = onTop (fold_left f l s0)) as Hfold.
  { intros X f l. induction l as [|x l IH]; intros s0 Hf; cbn [fold_left].
    - reflexivity.
    - rewrite Hf. apply IH. exact Hf. }
  unfold createInitialBoard.
  assert ((h, emptyBoard) = onTop (emptyHeap, emptyBoard)) as ->.
  { subst onTop. cbn [fst snd pieces emptyHeap]. rewrite app_nil_r.
    destruct h; reflexivity. }
  pose proof (place_onTop h) as Hplace. cbv zeta in Hplace.
  rewrite Hfold.
  - apply Hfold. intros s x. unfold onTop. rewrite !Hplace. reflexivity.
  - intros s x. unfold onTop. rewrite !Hplace. reflexivity.
Qed.

Lemma viewBoard_shiftBoard h P b :
  viewBoard (mkHeap (pieces h ++ P) (flagObjs h) (arrays h))
            (shiftBoard (length (pieces h)) b)
  = viewBoard (mkHeap P [] []) b.
Proof.
  unfold viewBoard, shiftBoard. rewrite map_map.
  apply map_ext. intros r. rewrite map_map. apply map_ext.
  intros [l|]; cbn [option_map]; [|reflexivity].
  unfold deref. cbn [pieces].
  rewrite nth_error_app2 by lia. f_equal. lia.
Qed.

Lemma refsOf_shiftBoard n b l :
  In l (refsOf (shiftBoard n b)) -> (n <= l)%nat.
Proof.
  unfold refsOf, shiftBoard. rewrite in_flat_map.
  intros (cell & Hin & Hl).
  apply in_concat in Hin as (r & Hr & Hin).
  apply in_map_iff in Hr as (r0 & <- & _).
  apply in_map_iff in Hin as (cell0 & <- & _).
  destruct cell0 as [k|]; cbn in Hl; [|contradiction].
  destruct Hl as [<-|[]]. lia.
Qed.

Lemma createInitialGameState_onTop h :
  let h' := fst (createInitialGameState h) in
  let st := snd (createInitialGameState h) in
  viewBoard h' (board st) = viewBoard (fst newGame) (board (snd newGame))
  /\ currentPlayer st = white
  /\ isCheck st = false /\ isCheckmate st = false /\ isStalemate st = false
  /\ enPassantTarget st = None
  /\ historyOf h' st = []
  /\ (forall c, flagOf h' (canCastleKingSide st) c = true
                /\ flagOf h' (canCastleQueenSide st) c = true)
  /\ (forall l, (l < length (pieces h))%nat -> deref h' l = deref h l)
  /\ (forall l, (l < length (flagObjs h))%nat ->
                nth_error (flagObjs h') l = nth_error (flagObjs h) l)
  /\ (forall l, (l < length (arrays h))%nat ->
                nth_error (arrays h') l = nth_error (arrays h) l)
  /\ (forall l, In l (refsOf (board st)) -> (length (pieces h) <= l)%nat)
  /\ (length (arrays h) <= moveHistory st)%nat
  /\ (length (flagObjs h) <= canCastleKingSide st)%nat
  /\ (length (flagObjs h) <= canCastleQueenSide st)%nat.
Proof.
  intros h' st. subst h' st. unfold createInitialGameState.
  rewrite createInitialBoard_onTop.
  set (P := pieces (fst (createInitialBoard emptyHeap))).
  set (B := snd (createInitialBoard emptyHeap)).
  cbn [fst snd pieces flagObjs arrays board currentPlayer isCheck isCheckmate
       isStalemate enPassantTarget moveHistory canCastleKingSide
       canCastleQueenSide].
  split.
  { transitivity (viewBoard (mkHeap P [] []) B).
    - unfold viewBoard, shiftBoard. rewrite map_map.
      apply map_ext. intros r. rewrite map_map. apply map_ext.
      intros [l|]; cbn [option_map]; [|reflexivity].
      unfold deref. cbn [pieces].
      rewrite nth_error_app2 by lia. f_equal. lia.
    - subst P B. vm_compute. reflexivity. }
  repeat (split; [reflexivity|]).
  split.
  { unfold historyOf. cbn [arrays moveHistory].
    rewrite nth_error_app2 by lia. rewrite Nat.sub_diag. reflexivity. }
  split.
  { intros c. unfold flagOf.
    cbn [flagObjs canCastleKingSide canCastleQueenSide].
    rewrite !nth_error_app2 by lia.
    replace (S (length (flagObjs h)) - length (flagObjs h))%nat with 1%nat
      by lia.
    rewrite Nat.sub_diag. cbn. destruct c; auto. }
  split.
  { intros l Hl. unfold deref. cbn [pieces]. apply nth_error_app1. exact Hl. }
  split; [intros l Hl; apply nth_error_app1; exact Hl|].
  split; [intros l Hl; apply nth_error_app1; exact Hl|].
  split; [intros l; apply refsOf_shiftBoard|].
  split; [lia|]. split; lia.
Qed.

(** X20: [new ChessGame()] builds the same position whatever the store
    already holds: the grid, read through the store, is the standard
    starting position, White is to move, the three status flags are
    false, there is no en-passant target, the history is empty and the
    four castling rights are set. Everything it builds is new: every
    object that was in the store is as it was, and the grid, the history
    and the two rights objects of the new state are none of them. *)
Theorem new_game_is_the_same_in_any_store h :
  let h' := fst (createInitialGameState h) in
  let st := snd (createInitialGameState h) in
  viewBoard h' (board st) = viewBoard (fst newGame) (board (snd newGame))
  /\ currentPlayer st = white
  /\ isCheck st = false /\ isCheckmate st = false /\ isStalemate st = false
  /\ enPassantTarget st = None
  /\ historyOf h' st = []
  /\ (forall c, flagOf h' (canCastleKingSide st) c = true
                /\ flagOf h' (canCastleQueenSide st) c = true)
  /\ (forall l, (l < length (pieces h))%nat -> deref h' l = deref h l)
  /\ (forall l, (l < length (flagObjs h))%nat ->
                nth_error (flagObjs h') l = nth_error (flagObjs h) l)
  /\ (forall l, (l < length (arrays h))%nat ->
                nth_error (arrays h') l = nth_error (arrays h) l)
  /\ (forall l, In l (refsOf (board st)) -> (length (pieces h) <= l)%nat)
  /\ (length (arrays h) <= moveHistory st)%nat
  /\ (length (flagObjs h) <= canCastleKingSide st)%nat
  /\ (length (flagObjs h) <= canCastleQueenSide st)%nat.
Proof. exact (createInitialGameState_onTop h). Qed.

(** X21: [resetGame] gives the component the standard starting position
    whatever was played before: the engine's new state, read through the
    store, is that of a new game with White to move, no status flag, no
    en-passant target, an empty history and all four castling rights;
    the selection is cleared, the snapshot is the new state, and the
    objects of the game played before are left as they were. *)
Theorem resetGame_starts_over a :
  let a' := App.resetGame a in
  viewBoard (App.store a') (board (App.game a'))
  = viewBoard (fst newGame) (board (snd newGame))
  /\ currentPlayer (App.game a') = white
  /\ isCheck (App.game a') = false /\ isCheckmate (App.game a') = false
  /\ isStalemate (App.game a') = false
  /\ enPassantTarget (App.game a') = None
  /\ historyOf (App.store a') (App.game a') = []
  /\ (forall c, flagOf (App.store a') (canCastleKingSide (App.game a')) c = true
                /\ flagOf (App.store a') (canCastleQueenSide (App.game a')) c
                   = true)
  /\ App.selectedSquare a' = None /\ App.possibleMoves a' = []
  /\ App.gameState a' = getGameState (App.game a')
  /\ (forall l, (l < length (pieces (App.store a)))%nat ->
                deref (App.store a') l = deref (App.store a) l)
  /\ ((moveHistory (App.game a) < length (arrays (App.store a)))%nat ->
      historyOf (App.store a') (App.game a)
      = historyOf (App.store a) (App.game a)).
Proof.
  intros a'. subst a'. unfold App.resetGame.
  pose proof (createInitialGameState_onTop (App.store a)) as H.
  cbv zeta in H.
  destruct (createInitialGameState (App.store a)) as [h st].
  cbn [fst snd App.store App.game App.gameState App.selectedSquare
       App.possibleMoves] in *.
  destruct H as (Hv & Hp & Hc & Hm & Hs & He & Hh & Hf & Hd & _ & Ha & _).
  do 11 (split; [assumption || reflexivity|]).
  split; [exact Hd|].
  intros Hlt. unfold historyOf. rewrite (Ha _ Hlt). reflexivity.
Qed.

(** ** One square per piece, one king per side *)

Lemma onOneSquare_cleared b q :
  onOneSquare b -> onOneSquare (setCell b q None).
Proof.
  intros Hinj pos1 pos2 l H1 H2.
  apply setCell_None_origin in H1, H2. eauto.
Qed.

(** Moving the object [l], which stands on [f] at most, to [t]. *)
Lemma onOneSquare_moved b f t l :
  onOneSquare b -> (forall pos, cellAt b pos = Some l -> pos = f) ->
  onOneSquare (setCell (setCell b t (Some l)) f None).
Proof.
  intros Hinj Hl pos1 pos2 k H1 H2.
  apply setCell_None_origin in H1 as H1', H2 as H2'.
  assert (forall pos, cellAt (setCell (setCell b t (Some l)) f None) pos
                      = Some k -> pos <> f) as Hnf.
  { intros pos H ->.
    destruct (cellAt_setCell_cases (setCell b t (Some l)) f None)
      as [C|C]; congruence. }
  pose proof (Hnf _ H1) as Hn1. pose proof (Hnf _ H2) as Hn2.
  apply cellAt_setCell_origin in H1' as [(<- & E1)|H1'],
        H2' as [(<- & E2)|H2'].
  - reflexivity.
  - injection E1 as <-. apply Hl in H2'. congruence.
  - injection E2 as <-. apply Hl in H1'. congruence.
  - eauto.
Qed.

Lemma onOneSquare_relocateRook b m :
  onOneSquare b -> onOneSquare (relocateRook b m).
Proof.
  intros Hinj. unfold relocateRook.
  cbv zeta.
  set (corner := mkPos (row (from m))
                       (if col (to m) >? col (from m) then 7 else 0)).
  set (passed := mkPos (row (from m))
                       (if col (to m) >? col (from m) then 5 else 3)).
  destruct (cellAt b corner) as [k|] eqn:Ek.
  - apply onOneSquare_moved; [exact Hinj|].
    intros pos Hpos. exact (Hinj _ _ _ Hpos Ek).
  - apply onOneSquare_cleared, onOneSquare_cleared. exact Hinj.
Qed.

Lemma onOneSquare_specialBoard h st m :
  onOneSquare (board st) -> onOneSquare (specialBoard h st m).
Proof.
  intros Hinj. unfold specialBoard.
  assert (onOneSquare (if isCastlingMove h m then relocateRook (board st) m
                       else board st)) as H1.
  { destruct (isCastlingMove h m); [apply onOneSquare_relocateRook|];
      exact Hinj. }
  destruct (isEnPassantMove h st m); [|exact H1].
  unfold removePassedPawn. apply onOneSquare_cleared. exact H1.
Qed.

Lemma specialBoard_keeps_place h st m pos k :
  onOneSquare (board st) ->
  cellAt (board st) (from m) = Some k ->
  isValidPosition (to m) = true ->
  cellAt (specialBoard h st m) pos = Some k -> pos = from m.
Proof.
  intros Hinj Hk Hvt H. unfold specialBoard in H.
  assert (forall b, (forall q, cellAt b q = Some k -> q = from m) ->
                    cellAt (if isEnPassantMove h st m
                            then removePassedPawn h b m else b) pos = Some k ->
                    pos = from m) as Hep.
  { intros b Hb Hc. destruct (isEnPassantMove h st m); [|auto].
    unfold removePassedPawn in Hc. apply setCell_None_origin in Hc. auto. }
  apply Hep in H; [exact H|]. clear H Hep.
  intros q Hq. destruct (isCastlingMove h m) eqn:Ecast;
    [|exact (Hinj _ _ _ Hq Hk)].
  unfold isCastlingMove in Ecast. apply andb_true_iff in Ecast as (_ & Ea).
  apply Z.eqb_eq in Ea. apply isValidPosition_range in Hvt as (_ & Hct).
  unfold relocateRook in Hq. cbv zeta in Hq.
  set (corner := mkPos (row (from m))
                       (if col (to m) >? col (from m) then 7 else 0)) in Hq.
  set (passed := mkPos (row (from m))
                       (if col (to m) >? col (from m) then 5 else 3)) in Hq.
  apply setCell_None_origin in Hq.
  apply cellAt_setCell_origin in Hq as [(_ & E)|Hq];
    [|exact (Hinj _ _ _ Hq Hk)].
  (* the corner cannot be the origin of a move that ends on the grid *)
  pose proof (Hinj _ _ _ E Hk) as Hcf.
  exfalso. apply (f_equal col) in Hcf. subst corner. cbn [col] in Hcf.
  destruct (col (to m) >? col (from m)) eqn:Egt.
  - apply Z.gtb_lt in Egt. lia.
  - pose proof (Zgt_cases (col (to m)) (col (from m))) as Hc.
    rewrite Egt in Hc. lia.
Qed.

Lemma onOneSquare_step h st f t h' st' :
  wfBoard (board st) -> onOneSquare (board st) ->
  makeMove h st f t = (true, (h', st')) ->
  onOneSquare (board st').
Proof.
  intros Hwf Hinj Hmv.
  apply makeMove_true in Hmv as (l & p & Hl & Hp & _ & Hin & E).
  destruct (legal_destination _ _ _ _ _ _ Hwf Hl Hp Hin) as (_ & Hvt & _).
  destruct (performMove_fields h st f t l) as (Hb & _). cbv zeta in Hb.
  rewrite <- E in Hb. cbn [snd] in Hb. rewrite Hb.
  apply onOneSquare_moved.
  - apply onOneSquare_specialBoard. exact Hinj.
  - intros pos Hpos.
    exact (specialBoard_keeps_place h st (candidate st f t l) pos l
             Hinj Hl Hvt Hpos).
Qed.

Lemma onOneSquare_newGame : onOneSquare (board (snd newGame)).
Proof.
  assert (forallb (fun p1 =>
            forallb (fun p2 =>
              match cellAt (board (snd newGame)) p1,
                    cellAt (board (snd newGame)) p2 with
              | Some l1, Some l2 => negb (Nat.eqb l1 l2) || positionsEqual p1 p2
              | _, _ => true
              end) allSquares) allSquares = true) as H
    by (vm_compute; reflexivity).
  intros pos1 pos2 l H1 H2.
  pose proof (cellAt_valid _ _ _ wfBoard_newGame H1) as V1.
  pose proof (cellAt_valid _ _ _ wfBoard_newGame H2) as V2.
  rewrite forallb_forall in H. specialize (H pos1 (In_allSquares _ V1)).
  rewrite forallb_forall in H. specialize (H pos2 (In_allSquares _ V2)).
  rewrite H1, H2, Nat.eqb_refl in H. cbn in H.
  apply positionsEqual_eq. exact H.
Qed.

Lemma reachable_onOneSquare s : reachable s -> onOneSquare (board (snd s)).
Proof.
  intros Hr. induction Hr as [|h st f t h' st' Hr IH Hmv].
  - exact onOneSquare_newGame.
  - exact (onOneSquare_step _ _ _ _ _ _ (reachable_wfBoard _ Hr) IH Hmv).
Qed.

Lemma twoKings_step h st f t h' st' :
  wfBoard (board st) -> twoKings h ->
  makeMove h st f t = (true, (h', st')) -> twoKings h'.
Proof.
  intros Hwf Hk Hmv.
  pose proof Hmv as Hmv'.
  apply makeMove_true in Hmv' as (l & p & Hl & Hp & _ & _ & _).
  destruct (moved_piece _ _ _ _ _ _ _ _ Hwf Hl Hp Hmv)
    as (_ & _ & _ & Hd & Hothers).
  intros k q Hq Hking.
  destruct (Nat.eq_dec k l) as [->|Hne].
  - rewrite Hd in Hq. injection Hq as <-. cbn [type] in Hking.
    destruct (PieceType_eqb (type p) pawn && (row t =? finalRank (color p)));
      [discriminate|].
    rewrite piece_eta. apply Hk; assumption.
  - rewrite (Hothers k Hne) in Hq. apply Hk; assumption.
Qed.

Lemma reachable_twoKings s : reachable s -> twoKings (fst s).
Proof.
  intros Hr. induction Hr as [|h st f t h' st' Hr IH Hmv].
  - intros l p Hp _. exact Hp.
  - exact (twoKings_step _ _ _ _ _ _ (reachable_wfBoard _ Hr) IH Hmv).
Qed.

Lemma newGame_kings l1 l2 p1 p2 :
  deref (fst newGame) l1 = Some p1 -> deref (fst newGame) l2 = Some p2 ->
  type p1 = king -> type p2 = king -> color p1 = color p2 -> l1 = l2.
Proof.
  assert (forall l, (32 <= l)%nat -> deref (fst newGame) l = None) as Hbig.
  { intros l Hl. apply nth_error_None. vm_compute. lia. }
  assert (forallb (fun l1 =>
            forallb (fun l2 =>
              match deref (fst newGame) l1, deref (fst newGame) l2 with
              | Some p1, Some p2 =>
                  negb (PieceType_eqb (type p1) king
                        && PieceType_eqb (type p2) king
                        && Color_eqb (color p1) (color p2))
                  || Nat.eqb l1 l2
              | _, _ => true
              end) (seq 0 32)) (seq 0 32) = true) as H
    by (vm_compute; reflexivity).
  intros H1 H2 T1 T2 Hc.
  assert (l1 < 32)%nat as L1.
  { destruct (Nat.lt_ge_cases l1 32) as [|Hge]; [assumption|].
    rewrite (Hbig _ Hge) in H1. discriminate. }
  assert (l2 < 32)%nat as L2.
  { destruct (Nat.lt_ge_cases l2 32) as [|Hge]; [assumption|].
    rewrite (Hbig _ Hge) in H2. discriminate. }
  rewrite forallb_forall in H.
  specialize (H l1 ltac:(apply in_seq; lia)).
  rewrite forallb_forall in H.
  specialize (H l2 ltac:(apply in_seq; lia)).
  rewrite H1, H2, T1, T2, Hc, Color_eqb_refl in H. cbn in H.
  apply Nat.eqb_eq. exact H.
Qed.

Lemma reachable_one_king s pos1 pos2 k1 k2 :
  reachable s ->
  pieceAt (fst s) (board (snd s)) pos1 = Some k1 ->
  pieceAt (fst s) (board (snd s)) pos2 = Some k2 ->
  type k1 = king -> type k2 = king -> color k1 = color k2 ->
  pos1 = pos2.
Proof.
  intros Hr H1 H2 T1 T2 Hc.
  apply pieceAt_Some in H1 as (l1 & C1 & D1).
  apply pieceAt_Some in H2 as (l2 & C2 & D2).
  pose proof (reachable_twoKings _ Hr) as Hk.
  assert (l1 = l2) as ->.
  { exact (newGame_kings _ _ _ _ (Hk _ _ D1 T1) (Hk _ _ D2 T2) T1 T2 Hc). }
  exact (reachable_onOneSquare _ Hr _ _ _ C1 C2).
Qed.

(** X22: in every state reached from the initial position by successful
    [makeMove] calls no [Piece] object stands on two squares of the
    board, and each side has at most one king on the board: two squares
    that hold kings of the same colour are the same square. *)
Theorem one_square_per_piece_one_king_per_side s :
  reachable s ->
  (forall pos1 pos2 l,
     cellAt (board (snd s)) pos1 = Some l ->
     cellAt (board (snd s)) pos2 = Some l -> pos1 = pos2)
  /\ (forall pos1 pos2 k1 k2,
        pieceAt (fst s) (board (snd s)) pos1 = Some k1 ->
        pieceAt (fst s) (board (snd s)) pos2 = Some k2 ->
        type k1 = king -> type k2 = king -> color k1 = color k2 ->
        pos1 = pos2).
Proof.
  intros Hr. split; [exact (reachable_onOneSquare _ Hr)|].
  intros pos1 pos2 k1 k2. apply reachable_one_king. exact Hr.
Qed.

Lemma one_square_per_piece_one_king_per_side_witness :
  reachable italianGame /\ onOneSquare (board (snd italianGame)).
Proof.
  split; [exact reachable_italianGame|].
  exact (proj1 (one_square_per_piece_one_king_per_side
                  _ reachable_italianGame)).
Defined.

(** ** Two scans that agree, and the glyphs *)

(** X23: on an 8x8 grid the two scans of the board agree:
    [hasLegalMoves(color)] is true exactly when
    [getAllLegalMoves(color)] is not empty, and for the side that is not
    to move the first is false and the second empty. *)
Theorem hasLegalMoves_agrees_with_getAllLegalMoves h st c :
  wfBoard (board st) ->
  hasLegalMoves h st c = negb (isNil (getAllLegalMoves h st c))
  /\ (c <> currentPlayer st ->
      hasLegalMoves h st c = false /\ getAllLegalMoves h st c = []).
Proof.
  intros _.
  assert (hasLegalMoves h st c = negb (isNil (getAllLegalMoves h st c))) as E.
  { destruct (hasLegalMoves h st c) eqn:Eh.
    - destruct (getAllLegalMoves h st c) eqn:El; [|reflexivity].
      apply getAllLegalMoves_nil in El. congruence.
    - apply getAllLegalMoves_nil in Eh. rewrite Eh. reflexivity. }
  split; [exact E|].
  intros Hne. pose proof (getAllLegalMoves_other_side h st c Hne) as Hnil.
  rewrite E, Hnil. auto.
Qed.

Lemma hasLegalMoves_agrees_with_getAllLegalMoves_witness :
  hasLegalMoves (fst newGame) (snd newGame) black = false
  /\ getAllLegalMoves (fst newGame) (snd newGame) black = [].
Proof.
  apply (proj2 (hasLegalMoves_agrees_with_getAllLegalMoves
                  (fst newGame) (snd newGame) black wfBoard_newGame)).
  vm_compute. discriminate.
Defined.

(** X24: [getPieceSymbol] gives each of the twelve kinds of piece a
    glyph of its own: two pieces get the same symbol only when they have
    the same type and colour. *)
Theorem getPieceSymbol_tells_pieces_apart p q :
  Glyphs.getPieceSymbol p = Glyphs.getPieceSymbol q <-> p = q.
Proof.
  split; [|intros ->; reflexivity].
  destruct p as [[] []], q as [[] []]; cbn; intros H;
    first [reflexivity|discriminate H].
Qed.

(** ** Castling rights and the history *)

Lemma makeMove_clears_rights h st f t h' st' l p :
  wfBoard (board st) ->
  cellAt (board st) f = Some l -> deref h l = Some p ->
  makeMove h st f t = (true, (h', st')) ->
  (type p = king ->
   flagOf h' (canCastleKingSide st') (color p) = false
   /\ flagOf h' (canCastleQueenSide st') (color p) = false)
  /\ (type p = rook -> row f = homeRow (color p) ->
      (col f = 7 -> flagOf h' (canCastleKingSide st') (color p) = false)
      /\ (col f = 0 -> flagOf h' (canCastleQueenSide st') (color p) = false)).
Proof.
  intros Hwf El Ep Hmv.
  apply makeMove_true in Hmv as (l' & p' & El' & _ & _ & _ & E).
  assert (l' = l) as -> by congruence.
  destruct (performMove_fields h st f t l) as (_ & _ & _ & Hks & Hqs & _).
  pose proof (performMove_store h st f t l) as Hst. cbv zeta in Hst.
  rewrite <- E in Hks, Hqs, Hst. cbn [fst snd] in Hks, Hqs, Hst.
  assert (type p <> pawn ->
          deref (pushMove (promoted h (candidate st f t l)) (moveHistory st)
                          (recorded h st (candidate st f t l)))
                (piece (recorded h st (candidate st f t l))) = Some p)
    as Hkept.
  { intros Hnp. cbn [recorded candidate piece].
    rewrite (deref_same_pieces h); [exact Ep|].
    rewrite pieces_pushMove. unfold promoted, isPromotionMove.
    cbn [candidate piece]. rewrite (isType_true _ _ _ _ Ep).
    destruct (type p); try reflexivity. contradiction. }
  split.
  - intros Htype. rewrite Hks, Hqs, Hst.
    apply updateCastlingRights_king; [apply Hkept; congruence|exact Htype].
  - intros Htype Hrow. rewrite Hks, Hqs, Hst.
    exact (updateCastlingRights_rook _ st
             (recorded h st (candidate st f t l)) p
             (Hkept ltac:(congruence)) Htype Hrow).
Qed.

Lemma reachable_rights_history s :
  reachable s ->
  forall m p,
    In m (historyOf (fst s) (snd s)) -> deref (fst s) (piece m) = Some p ->
    (type p = king ->
     flagOf (fst s) (canCastleKingSide (snd s)) (color p) = false
     /\ flagOf (fst s) (canCastleQueenSide (snd s)) (color p) = false)
    /\ (type p = rook -> row (from m) = homeRow (color p) ->
        (col (from m) = 7 ->
         flagOf (fst s) (canCastleKingSide (snd s)) (color p) = false)
        /\ (col (from m) = 0 ->
            flagOf (fst s) (canCastleQueenSide (snd s)) (color p) = false)).
Proof.
  intros Hr. induction Hr as [|h st f t h' st' Hr IH Hmv].
  - intros m p Hin. vm_compute in Hin. contradiction.
  - cbn [fst snd] in *. intros m p' Hin Hp'.
    pose proof (reachable_wfBoard _ Hr) as Hwf. cbn [snd] in Hwf.
    destruct (reachable_wfState _ Hr) as (_ & Hhist). cbn [fst snd] in Hhist.
    pose proof Hmv as Hmv0.
    apply makeMove_true in Hmv0 as (l & p & El & Ep & _ & _ & E).
    destruct (moved_piece _ _ _ _ _ _ _ _ Hwf El Ep Hmv)
      as (_ & _ & _ & Hl & Hothers).
    destruct (makeMove_rights_mono _ _ _ _ _ _ _ (color p') Hmv)
      as (Eks & Eqs & Hmono).
    pose proof (performMove_history h st f t l Hhist) as Hh.
    cbv zeta in Hh. rewrite <- E in Hh. cbn [fst snd] in Hh.
    (* the object of [m] before the move: same colour, and the same type
       when it is now a king or a rook *)
    assert (exists p0, deref h (piece m) = Some p0 /\ color p0 = color p'
                       /\ (type p' = king -> type p0 = king)
                       /\ (type p' = rook -> type p0 = rook)) as Hbefore.
    { destruct (Nat.eq_dec (piece m) l) as [Heq|Hne].
      - rewrite Heq in Hp'. rewrite Hl in Hp'. injection Hp' as <-.
        exists p. rewrite Heq. cbn [type color].
        split; [exact Ep|]. split; [reflexivity|].
        destruct (PieceType_eqb (type p) pawn
                  && (row t =? finalRank (color p)));
          split; intros C; first [discriminate C|exact C].
      - rewrite (Hothers _ Hne) in Hp'. exists p'. auto. }
    destruct Hbefore as (p0 & Hp0 & Hc0 & Hk0 & Hr0).
    rewrite Hh in Hin. apply in_app_iff in Hin as [Hin|[<-|[]]].
    + (* an earlier move *)
      destruct (IH m p0 Hin Hp0) as (IHk & IHr). rewrite Hc0 in IHk, IHr.
      rewrite Eks, Eqs. split.
      * intros Hk. destruct (IHk (Hk0 Hk)). split; apply Hmono; assumption.
      * intros Hrk Hrow. destruct (IHr (Hr0 Hrk) Hrow) as (H7 & H0).
        split; intros Hcol; apply Hmono; auto.
    + (* the move just made *)
      cbn [recorded candidate piece from] in *.
      assert (p0 = p) as -> by congruence.
      destruct (makeMove_clears_rights _ _ _ _ _ _ _ _ Hwf El Ep Hmv)
        as (Hking & Hrook).
      rewrite Hc0 in Hking, Hrook. split.
      * intros Hk. exact (Hking (Hk0 Hk)).
      * intros Hrk Hrow. exact (Hrook (Hr0 Hrk) Hrow).
Qed.

(** X25: in every state reached from the initial position by
    successful [makeMove] calls, a castling right that is still set has
    not been used up: while either right of a colour is set the history
    holds no move of a king of that colour, while the king-side right
    is set it holds no move of a rook of that colour from column 7 of
    the home row, and while the queen-side right is set none from
    column 0 of the home row. *)
Theorem set_right_means_king_and_rook_have_not_moved s c :
  reachable s ->
  let h := fst s in
  let st := snd s in
  (flagOf h (canCastleKingSide st) c = true
   \/ flagOf h (canCastleQueenSide st) c = true ->
   forall m p, In m (historyOf h st) -> deref h (piece m) = Some p ->
               color p = c -> type p <> king)
  /\ (flagOf h (canCastleKingSide st) c = true ->
      forall m p, In m (historyOf h st) -> deref h (piece m) = Some p ->
                  color p = c -> type p = rook ->
                  from m <> mkPos (homeRow c) 7)
  /\ (flagOf h (canCastleQueenSide st) c = true ->
      forall m p, In m (historyOf h st) -> deref h (piece m) = Some p ->
                  color p = c -> type p = rook ->
                  from m <> mkPos (homeRow c) 0).
Proof.
  intros Hr h st. subst h st.
  pose proof (reachable_rights_history _ Hr) as Hinv.
  split; [|split].
  - intros Hset m p Hin Hp <- Hk.
    destruct (proj1 (Hinv m p Hin Hp) Hk) as (H1 & H2).
    destruct Hset; congruence.
  - intros Hset m p Hin Hp <- Hrk Hf.
    destruct (proj2 (Hinv m p Hin Hp) Hrk) as (H7 & _);
      [rewrite Hf; reflexivity|].
    rewrite H7 in Hset; [discriminate|rewrite Hf; reflexivity].
  - intros Hset m p Hin Hp <- Hrk Hf.
    destruct (proj2 (Hinv m p Hin Hp) Hrk) as (_ & H0);
      [rewrite Hf; reflexivity|].
    rewrite H0 in Hset; [discriminate|rewrite Hf; reflexivity].
Qed.

Lemma set_right_means_king_and_rook_have_not_moved_witness :
  flagOf (fst castlingGame) (canCastleKingSide (snd castlingGame)) white
  = true
  /\ (forall m p,
        In m (historyOf (fst castlingGame) (snd castlingGame)) ->
        deref (fst castlingGame) (piece m) = Some p ->
        color p = white -> type p <> king).
Proof.
  assert (flagOf (fst castlingGame) (canCastleKingSide (snd castlingGame))
                 white = true) as Hset by (vm_compute; reflexivity).
  split; [exact Hset|].
  exact (proj1 (set_right_means_king_and_rook_have_not_moved
                  castlingGame white reachable_castlingGame)
               (or_introl Hset)).
Defined.

(** ** What the legality filter tests *)

Lemma findKing_unique h b c K k :
  isValidPosition K = true ->
  pieceAt h b K = Some k -> type k = king -> color k = c ->
  (forall pos q, isValidPosition pos = true -> pieceAt h b pos = Some q ->
                 type q = king -> color q = c -> pos = K) ->
  findKing h b c = Some K.
Proof.
  intros Hv Hk Ht Hc Huniq.
  destruct (findKing h b c) as [pos|] eqn:E.
  - apply findKing_Some in E as (Hvp & q & Hq & Tq & Cq).
    f_equal. exact (Huniq pos q Hvp Hq Tq Cq).
  - exfalso. exact (proj1 (findKing_None h b c) E K k Hv Hk Ht Hc).
Qed.

(** The pieces of the simulated board: the mover on [t], nothing on
    [f], everything else where it was. *)
Lemma simulateMove_pieces h st f t l pos :
  wfBoard (board st) ->
  isValidPosition f = true -> isValidPosition t = true -> t <> f ->
  let b' := simulateMove st (mkMove f t l None false false None) in
  pieceAt h b' pos
  = if positionsEqual pos f then None
    else if positionsEqual pos t then deref h l
    else pieceAt h (board st) pos.
Proof.
  intros Hwf Hvf Hvt Hne b'. subst b'.
  unfold simulateMove, pieceAt. cbn [from to piece]. rewrite copyBoard_id.
  destruct (positionsEqual pos f) eqn:Ef.
  - apply positionsEqual_eq in Ef. subst pos.
    rewrite cellAt_setCell_same; auto using wfBoard_setCell.
  - assert (f <> pos) as Hfp.
    { intros <-. rewrite positionsEqual_refl in Ef. discriminate. }
    rewrite (cellAt_setCell_other _ f pos) by exact Hfp.
    destruct (positionsEqual pos t) eqn:Et.
    + apply positionsEqual_eq in Et. subst pos.
      rewrite cellAt_setCell_same; auto.
    + assert (t <> pos) as Htp.
      { intros <-. rewrite positionsEqual_refl in Et. discriminate. }
      rewrite (cellAt_setCell_other _ t pos) by exact Htp. reflexivity.
Qed.

Lemma isLegalMove_iff s f l p t target :
  reachable s ->
  let h := fst s in
  let st := snd s in
  cellAt (board st) f = Some l -> deref h l = Some p ->
  color p = currentPlayer st ->
  In t (calculateLegalMoves h st f p) ->
  findKing h (simulateMove st (mkMove f t l None false false None))
           (currentPlayer st) = Some target ->
  isLegalMove h st (mkMove f t l None false false None) = true <->
  forall pos q, pos <> t -> pieceAt h (board st) pos = Some q ->
                color q = opponent (color p) ->
                ~ In target (calculateLegalMoves h st pos q).
Proof.
  intros Hr. destruct s as [h st]. cbv zeta. cbn [fst snd].
  intros Hl Hp Hc Hcalc Hfind.
  pose proof (reachable_wfBoard _ Hr) as Hwf. cbn [snd] in Hwf.
  pose proof (cellAt_valid _ _ _ Hwf Hl) as Hvf.
  destruct (calculateLegalMoves_valid _ _ _ _ _ Hcalc) as (Hvt & Hne).
  pose proof (simulateMove_pieces h st f t l) as Hsim.
  cbv zeta in Hsim.
  unfold isLegalMove, isInCheck. rewrite Hfind.
  rewrite negb_true_iff, <- not_true_iff_false, isSquareAttacked_iff.
  rewrite <- Hc. split.
  - intros Hno pos q Hpt Hq Hcol Hin. apply Hno.
    assert (isValidPosition pos = true) as Hvp.
    { apply pieceAt_Some in Hq as (k & Hk & _).
      exact (cellAt_valid _ _ _ Hwf Hk). }
    exists pos, q. split; [exact Hvp|]. split; [|auto].
    rewrite (Hsim pos Hwf Hvf Hvt Hne).
    destruct (positionsEqual pos f) eqn:Ef.
    + apply positionsEqual_eq in Ef. subst pos. exfalso.
      unfold pieceAt in Hq. rewrite Hl, Hp in Hq. injection Hq as <-.
      destruct (color p); discriminate.
    + destruct (positionsEqual pos t) eqn:Et; [|exact Hq].
      apply positionsEqual_eq in Et. contradiction.
  - intros Hall (pos & q & Hvp & Hq & Hcol & Hin).
    rewrite (Hsim pos Hwf Hvf Hvt Hne) in Hq.
    destruct (positionsEqual pos f) eqn:Ef; [discriminate|].
    destruct (positionsEqual pos t) eqn:Et.
    + rewrite Hp in Hq. injection Hq as <-.
      destruct (color p); discriminate.
    + apply (Hall pos q); auto.
      intros ->. rewrite positionsEqual_refl in Et. discriminate.
Qed.

Lemma findKing_simulated s f l p t :
  reachable s ->
  let h := fst s in
  let st := snd s in
  let b' := simulateMove st (mkMove f t l None false false None) in
  cellAt (board st) f = Some l -> deref h l = Some p ->
  In t (calculateLegalMoves h st f p) ->
  (forall kingPos k,
     pieceAt h (board st) kingPos = Some k ->
     type k = king -> color k = color p ->
     findKing h b' (color p)
     = Some (if PieceType_eqb (type p) king then t else kingPos))
  /\ ((forall pos k, pieceAt h (board st) pos = Some k ->
                     type k = king -> color k <> color p) ->
      findKing h b' (color p) = None).
Proof.
  intros Hr. destruct s as [h st]. cbv zeta. cbn [fst snd].
  set (b' := simulateMove st (mkMove f t l None false false None)).
  intros Hl Hp Hcalc.
  pose proof (reachable_wfBoard _ Hr) as Hwf. cbn [snd] in Hwf.
  pose proof (cellAt_valid _ _ _ Hwf Hl) as Hvf.
  destruct (calculateLegalMoves_valid _ _ _ _ _ Hcalc) as (Hvt & Hne).
  pose proof (fun pos => simulateMove_pieces h st f t l pos Hwf Hvf Hvt Hne)
    as Hsim. cbv zeta in Hsim. fold b' in Hsim.
  assert (pieceAt h (board st) f = Some p) as Hpf
    by (unfold pieceAt; rewrite Hl; exact Hp).
  assert (positionsEqual t f = false) as Etf.
  { destruct (positionsEqual t f) eqn:E; [|reflexivity].
    apply positionsEqual_eq in E. contradiction. }
  split.
  - intros kingPos k Hk Tk Ck.
    destruct (PieceType_eqb (type p) king) eqn:Ek.
    + (* the king moves: it is found on [t] *)
      apply PieceType_eqb_eq in Ek.
      apply findKing_unique with (k := p);
        [exact Hvt| |exact Ek|reflexivity|].
      * rewrite Hsim, Etf, positionsEqual_refl. exact Hp.
      * intros pos q Hvp Hq Tq Cq. rewrite Hsim in Hq.
        destruct (positionsEqual pos f) eqn:Ef; [discriminate|].
        destruct (positionsEqual pos t) eqn:Et;
          [apply positionsEqual_eq; exact Et|].
        exfalso.
        assert (pos = f) as ->
          by exact (reachable_one_king _ pos f q p Hr Hq Hpf Tq Ek Cq).
        rewrite positionsEqual_refl in Ef. discriminate.
    + (* another piece moves: the king is found where it stands *)
      assert (positionsEqual kingPos f = false) as Ekf.
      { destruct (positionsEqual kingPos f) eqn:E; [|reflexivity].
        apply positionsEqual_eq in E. subst kingPos.
        rewrite Hpf in Hk. injection Hk as <-.
        rewrite Tk in Ek. discriminate. }
      assert (positionsEqual kingPos t = false) as Ekt.
      { destruct (positionsEqual kingPos t) eqn:E; [|reflexivity].
        apply positionsEqual_eq in E. subst kingPos. exfalso.
        destruct (calculateLegalMoves_landing h st f p t Hpf Hcalc)
          as [[Hn|(q & Hq & Hcq)]|(_ & He)].
        - unfold pieceAt in Hk. rewrite Hn in Hk. discriminate.
        - rewrite Hk in Hq. injection Hq as <-. contradiction.
        - pose proof (reachable_enPassantTarget_vacant _ _ Hr He) as Hn.
          unfold pieceAt in Hk. cbn [snd] in Hn. rewrite Hn in Hk.
          discriminate. }
      apply findKing_unique with (k := k); [|  |exact Tk|exact Ck|].
      * apply pieceAt_Some in Hk as (lk & Hlk & _).
        exact (cellAt_valid _ _ _ Hwf Hlk).
      * rewrite Hsim, Ekf, Ekt. exact Hk.
      * intros pos q Hvp Hq Tq Cq. rewrite Hsim in Hq.
        destruct (positionsEqual pos f) eqn:Ef; [discriminate|].
        destruct (positionsEqual pos t) eqn:Et.
        -- rewrite Hp in Hq. injection Hq as <-.
           rewrite Tq in Ek. discriminate.
        -- apply (reachable_one_king _ pos kingPos q k Hr Hq Hk Tq Tk).
           congruence.
  - intros Hnoking. apply findKing_None. intros pos q Hvp Hq Tq Cq.
    rewrite Hsim in Hq.
    destruct (positionsEqual pos f) eqn:Ef; [discriminate|].
    destruct (positionsEqual pos t) eqn:Et.
    + rewrite Hp in Hq. injection Hq as <-. exact (Hnoking f p Hpf Tq eq_refl).
    + exact (Hnoking pos q Hq Tq Cq).
Qed.

(** X26: what the legality filter of [getPossibleMoves] tests, in every
    state reached from the initial position by successful [makeMove]
    calls, for a piece [p] of the side to move on [f].  With that
    side's king on the board, a destination generated for [p] is
    offered exactly when no piece of the other side that stands on a
    square other than the destination has, among the moves generated
    for it on the current board, the square the king will be on: the
    destination when [p] is the king, the king's square otherwise.
    With no king of that side on the board every generated destination
    is offered. *)
Theorem legality_filter_tests_attacks_on_the_current_board s f p t :
  reachable s ->
  let h := fst s in
  let st := snd s in
  pieceAt h (board st) f = Some p ->
  color p = currentPlayer st ->
  (forall kingPos k,
     pieceAt h (board st) kingPos = Some k ->
     type k = king -> color k = color p ->
     let target := if PieceType_eqb (type p) king then t else kingPos in
     In t (getPossibleMoves h st f) <->
     In t (calculateLegalMoves h st f p)
     /\ forall pos q,
          pos <> t -> pieceAt h (board st) pos = Some q ->
          color q = opponent (color p) ->
          ~ In target (calculateLegalMoves h st pos q))
  /\ ((forall pos k, pieceAt h (board st) pos = Some k ->
                     type k = king -> color k <> color p) ->
      In t (getPossibleMoves h st f) <-> In t (calculateLegalMoves h st f p)).
Proof.
  intros Hr. destruct s as [h st]. cbv zeta. cbn [fst snd].
  intros Hpf Hc.
  apply pieceAt_Some in Hpf as (l & Hl & Hp).
  assert (In t (getPossibleMoves h st f) <->
          In t (calculateLegalMoves h st f p)
          /\ isLegalMove h st (mkMove f t l None false false None) = true)
    as Hfilter.
  { unfold getPossibleMoves. rewrite Hl, Hp, Hc, Color_eqb_refl. cbn [negb].
    apply filter_In. }
  split.
  - intros kingPos k Hk Tk Ck.
    set (target := if PieceType_eqb (type p) king then t else kingPos).
    rewrite Hfilter.
    split; intros (Hcalc & Hleg); (split; [exact Hcalc|]);
      destruct (findKing_simulated (h, st) f l p t Hr Hl Hp Hcalc)
        as (Hfind & _);
      specialize (Hfind kingPos k Hk Tk Ck); cbn [fst snd] in Hfind;
      fold target in Hfind; rewrite Hc in Hfind;
      apply (isLegalMove_iff (h, st) f l p t target Hr Hl Hp Hc Hcalc Hfind);
      exact Hleg.
  - intros Hnoking. rewrite Hfilter.
    split; [intros (Hcalc & _); exact Hcalc|].
    intros Hcalc. split; [exact Hcalc|].
    destruct (findKing_simulated (h, st) f l p t Hr Hl Hp Hcalc)
      as (_ & Hnone).
    specialize (Hnone Hnoking). cbn [fst snd] in Hnone. rewrite Hc in Hnone.
    unfold isLegalMove, isInCheck. rewrite Hnone. reflexivity.
Qed.

Lemma legality_filter_tests_attacks_on_the_current_board_witness :
  In (sq 4 4) (getPossibleMoves (fst pinGame) (snd pinGame) (sq 5 2))
  <-> In (sq 4 4) (calculateLegalMoves (fst pinGame) (snd pinGame) (sq 5 2)
                                        (mkPiece knight white))
      /\ forall pos q,
           pos <> sq 4 4 ->
           pieceAt (fst pinGame) (board (snd pinGame)) pos = Some q ->
           color q = opponent white ->
           ~ In (sq 7 4) (calculateLegalMoves (fst pinGame) (snd pinGame)
                                               pos q).
Proof.
  refine (proj1 (legality_filter_tests_attacks_on_the_current_board
                   pinGame (sq 5 2) (mkPiece knight white) (sq 4 4)
                   reachable_pinGame _ _)
                (sq 7 4) (mkPiece king white) _ _ _);
    vm_compute; reflexivity.
Defined.
